(** * firebase-tools: trigger discovery and runtime-config export

    A shallow embedding of

    - [src/commands/functions-config-export.ts]
      ([getAllProjects], [checkRequiredPermission], [checkReservedAlias],
      [convertKey], [configToEnv], [promptForPrefix], [escape],
      [toDotenvFormat] and the action of the command up to the texts of the
      files it writes) and
    - [src/deploy/functions/runtimes/node/parseTriggers.ts]
      ([removeInspectOptions], [parseTriggers], [discoverBackend],
      [addResourcesToBackend]),

    together with the properties the specification states about them and
    further properties of the code.

    JavaScript strings are modelled by [string]; every operation used here
    works code unit by code unit, one [ascii] standing for one code unit.
    Objects used as dictionaries ([Record<string, string>]) are [gmap]s,
    optional fields are [option]s, numbers, which are copied and never
    computed with, are [Z], exceptions are values of [exn] carried by
    [result].

    [addResourcesToBackend] is embedded twice: on values, with the aggregate
    as the state, where what it builds is stated, and on objects in a store
    ([Heap]), where what it shares and what it writes to is stated. *)

From Stdlib Require Import String Ascii List ZArith Lia Bool.
From stdpp Require Import base option list gmap strings.

Local Open Scope list_scope.

(** ** Exceptions *)

(** The three kinds of exception the two files distinguish:
    [env.KeyValidationError] (with its [key] and [message] fields),
    [FirebaseError] (with its message and the optional [original] it wraps)
    and anything else a callee may raise. *)
#[warnings="-register-all"]
Inductive exn : Type :=
| KeyValidationError (key message : string)
| FirebaseError (message : string) (original : option exn)
| OtherError (what : string).

Inductive result (A : Type) : Type :=
| Ok (a : A)
| Throw (e : exn).
Arguments Ok {A} a.
Arguments Throw {A} e.

(** [err instanceof env.KeyValidationError] *)
Definition instanceof_KeyValidationError (e : exn) : bool :=
  match e with
  | KeyValidationError _ _ => true
  | _ => false
  end.

(** [try { body } catch (err) { handler }] *)
Definition try_catch {A} (body : result A) (handler : exn -> result A) : result A :=
  match body with
  | Ok a => Ok a
  | Throw e => handler e
  end.

Definition rbind {A B} (c : result A) (k : A -> result B) : result B :=
  match c with
  | Ok a => k a
  | Throw e => Throw e
  end.

Notation "'let!' x ':=' c 'in' k" := (rbind c (fun x => k))
  (at level 10, x name, c at level 200, k at level 200).

(** ** JavaScript string primitives *)

Module Js.

(** [s.replace(/c/g, rep)] for a one-character pattern. *)
Fixpoint replaceAll (c : ascii) (rep : string) (s : string) : string :=
  match s with
  | EmptyString => EmptyString
  | String x s' =>
      if Ascii.eqb x c then rep +:+ replaceAll c rep s'
      else String x (replaceAll c rep s')
  end.

Fixpoint drop (n : nat) (s : string) : string :=
  match n, s with
  | O, _ => s
  | S n', String _ s' => drop n' s'
  | S _, EmptyString => EmptyString
  end.

(** [s.replace(pat, rep)] for a string pattern: only the leftmost
    occurrence of [pat] is replaced. *)
Fixpoint replace (pat rep : string) (s : string) : string :=
  if String.prefix pat s then rep +:+ drop (String.length pat) s
  else match s with
       | EmptyString => EmptyString
       | String x s' => String x (replace pat rep s')
       end.

Fixpoint spaces (n : nat) : string :=
  match n with
  | O => EmptyString
  | S n' => String " " (spaces n')
  end.

(** The value of [Math.max(...)]: [None] stands for [-Infinity], the
    result on no arguments. *)
Fixpoint Math_max (l : list nat) : option nat :=
  match l with
  | [] => None
  | x :: l' =>
      match Math_max l' with
      | None => Some x
      | Some m => Some (Nat.max x m)
      end
  end.

(** [s.padEnd(target)]: spaces are appended up to [target] code units; a
    target that is not larger than the length, [-Infinity] included,
    leaves [s] as it is. *)
Definition padEnd (s : string) (target : option nat) : string :=
  match target with
  | None => s
  | Some t => s +:+ spaces (t - String.length s)
  end.

(** [l.join(sep)] *)
Fixpoint join (sep : string) (l : list string) : string :=
  match l with
  | [] => EmptyString
  | [x] => x
  | x :: l' => x +:+ sep +:+ join sep l'
  end.

(** [s.includes(c)] for a one-character needle. *)
Fixpoint includes (c : ascii) (s : string) : bool :=
  match s with
  | EmptyString => false
  | String x s' => Ascii.eqb x c || includes c s'
  end.

(** [s.split(c)] for a one-character separator: the pieces between the
    separators, empty ones included; one empty piece for the empty string. *)
Fixpoint split (c : ascii) (s : string) : list string :=
  match s with
  | EmptyString => [EmptyString]
  | String x s' =>
      if Ascii.eqb x c then EmptyString :: split c s'
      else match split c s' with
           | w :: ws => String x w :: ws
           | [] => [String x EmptyString]
           end
  end.

(** [s.startsWith(p)] *)
Definition startsWith (p s : string) : bool := String.prefix p s.

End Js.

(** Characters named in the sources. *)
Definition LF : ascii := "010"%char.
Definition CR : ascii := "013"%char.
Definition TAB : ascii := "009"%char.
Definition VT : ascii := "011"%char.
Definition BACKSLASH : ascii := "\"%char.
Definition DQUOTE : ascii := "034"%char.
Definition SQUOTE : ascii := "'"%char.

Definition str1 (c : ascii) : string := String c EmptyString.

(** ** [functions-config-export.ts] *)

Record EnvMap : Type := mkEnvMap {
  origKey : string;
  newKey : string;
  value : string;
  err : option string
}.

Record ConfigToEnvResult : Type := mkConfigToEnvResult {
  success : list EnvMap;
  errors : list EnvMap
}.

(** What the validation of one key can come to. *)
Inductive KeyVerdict : Type :=
| KeyAccepted
| KeyRejected (reason : string)
| KeyCrashed (what : string).

Section ConfigExport.

(** [String.prototype.toUpperCase], the case mapping of the JavaScript
    runtime. *)
Variable toUpperCase : string -> string.

(** The rules of [env.validateKey]; [functions/env.ts] is not among the
    sources. *)
Variable keyRule : string -> KeyVerdict.

(** The type of the nested configuration object and [flatten] of the
    [flat] package, which lists its leaves under their dotted paths. *)
Variable Config : Type.
Variable flatten : Config -> list (string * string).

(** Modelled from the spec: [env.validateKey] is given a candidate key and
    succeeds, or fails with a validation-kind error carrying the offending
    key and a human-readable reason.  The callers also provide for an
    exception of another kind, so one may be raised here too. *)
Definition validateKey (key : string) : result unit :=
  match keyRule key with
  | KeyAccepted => Ok tt
  | KeyRejected reason => Throw (KeyValidationError key reason)
  | KeyCrashed what => Throw (OtherError what)
  end.

Definition convertKey (configKey prefix : string) : result string :=
  let baseKey :=
    Js.replaceAll "-" "_" (Js.replaceAll "." "_" (toUpperCase configKey)) in
  let envKey := baseKey in
  try_catch
    (let! _ := validateKey envKey in
     Ok envKey)
    (fun err =>
       if instanceof_KeyValidationError err then
         let envKey := prefix +:+ envKey in
         let! _ := validateKey envKey in
         Ok envKey
       else Ok envKey).

(** One turn of the loop of [configToEnv] on the lists built so far. *)
Definition configToEnv_step (prefix : string) (acc : ConfigToEnvResult)
    (entry : string * string) : result ConfigToEnvResult :=
  let '(configKey, value) := entry in
  try_catch
    (let! envKey := convertKey configKey prefix in
     Ok {| success := success acc ++ [mkEnvMap configKey envKey value None];
           errors := errors acc |})
    (fun err =>
       match err with
       | KeyValidationError key message =>
           Ok {| success := success acc;
                 errors := errors acc ++ [mkEnvMap configKey key value (Some message)] |}
       | _ =>
           Throw (FirebaseError "Unexpected error while converting config" (Some err))
       end).

Fixpoint configToEnv_loop (prefix : string) (acc : ConfigToEnvResult)
    (entries : list (string * string)) : result ConfigToEnvResult :=
  match entries with
  | [] => Ok acc
  | entry :: rest =>
      let! acc' := configToEnv_step prefix acc entry in
      configToEnv_loop prefix acc' rest
  end.

Definition configToEnv (configs : Config) (prefix : string) : result ConfigToEnvResult :=
  configToEnv_loop prefix {| success := []; errors := [] |} (flatten configs).

End ConfigExport.

(** [escape]: four single-shot replacements, then a backslash before every
    quote character. *)
Definition escape (s : string) : string :=
  let result :=
    Js.replace (str1 VT) "\v"
      (Js.replace (str1 TAB) "\t"
        (Js.replace (str1 CR) "\r"
          (Js.replace (str1 LF) "\n" s))) in
  let result :=
    Js.replaceAll DQUOTE (String BACKSLASH (str1 DQUOTE))
      (Js.replaceAll SQUOTE (String BACKSLASH (str1 SQUOTE)) result) in
  result.

Definition toDotenvFormat (envs : list EnvMap) : string :=
  let lines :=
    map (fun e => newKey e +:+ "=" +:+ str1 DQUOTE +:+ escape (value e) +:+ str1 DQUOTE) envs in
  let maxLineLen := Js.Math_max (map String.length lines) in
  Js.join (str1 LF)
    (map (fun '(line, e) => Js.padEnd line maxLineLen +:+ " # from " +:+ origKey e)
         (combine lines envs)).

(** ** [parseTriggers.ts]: the annotation and the backend it is turned into *)

(** JavaScript truthiness of the values tested in the source. *)
Definition truthy_string (s : string) : bool := negb (String.eqb s "").
Definition truthy_boolean (b : option bool) : bool := default false b.
Definition present {A} (o : option A) : bool :=
  match o with
  | Some _ => true
  | None => false
  end.

Inductive Platform : Type := gcfv1 | gcfv2.

Definition Platform_eqb (p q : Platform) : bool :=
  match p, q with
  | gcfv1, gcfv1 | gcfv2, gcfv2 => true
  | _, _ => false
  end.

Module ScheduleRetryConfig.
Record t : Type := mk {
  retryCount : option Z;
  maxRetryDuration : option string;
  minBackoffDuration : option string;
  maxBackoffDuration : option string;
  maxDoublings : option Z
}.
End ScheduleRetryConfig.

Module ScheduleAnnotation.
Record t : Type := mk {
  schedule : string;
  timeZone : option string;
  retryConfig : option ScheduleRetryConfig.t
}.
End ScheduleAnnotation.

Module HttpsTriggerAnnotation.
(** [allowInsecure?: boolean]: the outer [option] is the presence of the
    property (what ["allowInsecure" in httpsTrigger] tests), the inner one
    its value, which may be [undefined]. *)
Record t : Type := mk {
  allowInsecure : option (option bool)
}.
End HttpsTriggerAnnotation.

Module EventTriggerAnnotation.
Record t : Type := mk {
  eventType : string;
  resource : string;
  service : string
}.
End EventTriggerAnnotation.

Module TriggerAnnotation.
Record t : Type := mk {
  name : string;
  platform : option Platform;
  labels : option (gmap string string);
  entryPoint : string;
  vpcConnector : option string;
  vpcConnectorEgressSettings : option string;
  ingressSettings : option string;
  availableMemoryMb : option Z;
  timeout : option string;
  maxInstances : option Z;
  minInstances : option Z;
  serviceAccountEmail : option string;
  httpsTrigger : option HttpsTriggerAnnotation.t;
  eventTrigger : option EventTriggerAnnotation.t;
  failurePolicy : option unit;
  schedule : option ScheduleAnnotation.t;
  timeZone : option string;
  regions : option (list string);
  concurrency : option Z;
  invoker : option (list string)
}.
End TriggerAnnotation.

Module TargetIds.
Record t : Type := mk {
  id : string;
  region : string;
  project : string
}.
End TargetIds.

(** [backend.HttpsTrigger | backend.EventTrigger] *)
Inductive Trigger : Type :=
| HttpsTrigger (allowInsecure : bool)
| EventTrigger (eventType : string) (eventFilters : gmap string string) (retry : bool).

Module FunctionSpec.
Record t : Type := mk {
  platform : Platform;
  id : string;
  region : string;
  project : string;
  entryPoint : string;
  runtime : string;
  trigger : Trigger;
  vpcConnector : option string;
  concurrency : option Z;
  serviceAccountEmail : option string;
  labels : option (gmap string string);
  vpcConnectorEgressSettings : option string;
  ingressSettings : option string;
  timeout : option string;
  maxInstances : option Z;
  minInstances : option Z;
  availableMemoryMb : option Z;
  invoker : option (list string)
}.

Definition set_vpcConnector (f : t) (v : string) : t :=
  mk (platform f) (id f) (region f) (project f) (entryPoint f) (runtime f)
     (trigger f) (Some v) (concurrency f) (serviceAccountEmail f) (labels f)
     (vpcConnectorEgressSettings f) (ingressSettings f) (timeout f)
     (maxInstances f) (minInstances f) (availableMemoryMb f) (invoker f).

Definition set_trigger (f : t) (tr : Trigger) : t :=
  mk (platform f) (id f) (region f) (project f) (entryPoint f) (runtime f)
     tr (vpcConnector f) (concurrency f) (serviceAccountEmail f) (labels f)
     (vpcConnectorEgressSettings f) (ingressSettings f) (timeout f)
     (maxInstances f) (minInstances f) (availableMemoryMb f) (invoker f).

Definition set_labels (f : t) (l : gmap string string) : t :=
  mk (platform f) (id f) (region f) (project f) (entryPoint f) (runtime f)
     (trigger f) (vpcConnector f) (concurrency f) (serviceAccountEmail f) (Some l)
     (vpcConnectorEgressSettings f) (ingressSettings f) (timeout f)
     (maxInstances f) (minInstances f) (availableMemoryMb f) (invoker f).
End FunctionSpec.

Module ScheduleSpec.
Record t : Type := mk {
  id : string;
  project : string;
  schedule : string;
  transport : string;
  targetService : TargetIds.t;
  timeZone : option string;
  retryConfig : option ScheduleRetryConfig.t
}.
End ScheduleSpec.

Module PubSubSpec.
Record t : Type := mk {
  id : string;
  project : string;
  labels : gmap string string;
  targetService : TargetIds.t
}.
End PubSubSpec.

Module Backend.
Record t : Type := mk {
  requiredAPIs : gmap string string;
  cloudFunctions : list FunctionSpec.t;
  schedules : list ScheduleSpec.t;
  topics : list PubSubSpec.t;
  environmentVariables : gmap string string
}.

(** [want.requiredAPIs[k] = v] *)
Definition set_requiredAPI (k v : string) (b : t) : t :=
  mk (<[k := v]> (requiredAPIs b)) (cloudFunctions b) (schedules b) (topics b)
     (environmentVariables b).

(** [want.cloudFunctions.push(f)], [want.schedules.push(s)] and
    [want.topics.push(p)] *)
Definition push_cloudFunction (f : FunctionSpec.t) (b : t) : t :=
  mk (requiredAPIs b) (cloudFunctions b ++ [f]) (schedules b) (topics b)
     (environmentVariables b).
Definition push_schedule (s : ScheduleSpec.t) (b : t) : t :=
  mk (requiredAPIs b) (cloudFunctions b) (schedules b ++ [s]) (topics b)
     (environmentVariables b).
Definition push_topic (p : PubSubSpec.t) (b : t) : t :=
  mk (requiredAPIs b) (cloudFunctions b) (schedules b) (topics b ++ [p])
     (environmentVariables b).
End Backend.

(** Modelled from the spec: [proto.copyIfPresent] ([gcp/proto.ts] is not
    among the sources) assigns a field of the destination only if the source
    field is defined, and never overwrites with [undefined]. *)
Definition copyIfPresent {A} (dest src : option A) : option A :=
  match src with
  | Some v => Some v
  | None => dest
  end.

(** ** Statements: computations on a mutable state that may throw *)

(** A statement run against a state [S]: it leaves the state as it has
    mutated it so far, also when it throws. *)
Definition ST (S A : Type) : Type := S -> result A * S.

Definition mret {S A} (a : A) : ST S A := fun s => (Ok a, s).
Definition throw {S A} (e : exn) : ST S A := fun s => (Throw e, s).
Definition mbind {S A B} (c : ST S A) (k : A -> ST S B) : ST S B :=
  fun s =>
    match c s with
    | (Ok a, s') => k a s'
    | (Throw e, s') => (Throw e, s')
    end.
Definition mutate {S} (f : S -> S) : ST S unit :=
  fun s => (Ok tt, f s).

Notation "'do!' x ':=' c 'in' k" := (mbind c (fun x => k))
  (at level 10, x name, c at level 200, k at level 200).

(** [for (const x of l) { body }] *)
Fixpoint for_of {S R} (l : list R) (body : R -> ST S unit) : ST S unit :=
  match l with
  | [] => mret tt
  | x :: l' => do! _ := body x in for_of l' body
  end.

(** ** The builder on values: the aggregate [want] is the state *)

Definition M (A : Type) : Type := ST Backend.t A.

Section ParseTriggers.

(** [api.functionsDefaultRegion], [backend.scheduleIdForFunction] and
    [backend.SCHEDULED_FUNCTION_LABEL]: [api.ts] and [backend.ts] are not
    among the sources. *)
Variable functionsDefaultRegion : string.
Variable scheduleIdForFunction : TargetIds.t -> string.
Variable SCHEDULED_FUNCTION_LABEL : gmap string string.

(** [proto.copyIfPresent(cloudFunction, annotation, "concurrency", ...)] *)
Definition copyIfPresent_function (f : FunctionSpec.t) (a : TriggerAnnotation.t)
    : FunctionSpec.t :=
  FunctionSpec.mk
    (FunctionSpec.platform f) (FunctionSpec.id f) (FunctionSpec.region f)
    (FunctionSpec.project f) (FunctionSpec.entryPoint f) (FunctionSpec.runtime f)
    (FunctionSpec.trigger f) (FunctionSpec.vpcConnector f)
    (copyIfPresent (FunctionSpec.concurrency f) (TriggerAnnotation.concurrency a))
    (copyIfPresent (FunctionSpec.serviceAccountEmail f) (TriggerAnnotation.serviceAccountEmail a))
    (copyIfPresent (FunctionSpec.labels f) (TriggerAnnotation.labels a))
    (copyIfPresent (FunctionSpec.vpcConnectorEgressSettings f)
                   (TriggerAnnotation.vpcConnectorEgressSettings a))
    (copyIfPresent (FunctionSpec.ingressSettings f) (TriggerAnnotation.ingressSettings a))
    (copyIfPresent (FunctionSpec.timeout f) (TriggerAnnotation.timeout a))
    (copyIfPresent (FunctionSpec.maxInstances f) (TriggerAnnotation.maxInstances a))
    (copyIfPresent (FunctionSpec.minInstances f) (TriggerAnnotation.minInstances a))
    (copyIfPresent (FunctionSpec.availableMemoryMb f) (TriggerAnnotation.availableMemoryMb a))
    (copyIfPresent (FunctionSpec.invoker f) (TriggerAnnotation.invoker a)).

(** [proto.copyIfPresent(schedule, annotation.schedule, "timeZone", "retryConfig")] *)
Definition copyIfPresent_schedule (s : ScheduleSpec.t) (a : ScheduleAnnotation.t)
    : ScheduleSpec.t :=
  ScheduleSpec.mk
    (ScheduleSpec.id s) (ScheduleSpec.project s) (ScheduleSpec.schedule s)
    (ScheduleSpec.transport s) (ScheduleSpec.targetService s)
    (copyIfPresent (ScheduleSpec.timeZone s) (ScheduleAnnotation.timeZone a))
    (copyIfPresent (ScheduleSpec.retryConfig s) (ScheduleAnnotation.retryConfig a)).

(** The message of the structural-consistency error. *)
Definition unexpected_annotation : exn :=
  FirebaseError
    "Unexpected annotation generated by the Firebase Functions SDK. This should never happen."
    None.

(** The body of the loop over the regions. *)
Definition addResourcesToBackend_region (projectId runtime : string)
    (annotation : TriggerAnnotation.t) (region : string) : M unit :=
  (* Missing both or have both trigger types *)
  do! _ :=
    (if Bool.eqb (present (TriggerAnnotation.httpsTrigger annotation))
                 (present (TriggerAnnotation.eventTrigger annotation))
     then throw unexpected_annotation
     else mret tt) in
  do! trigger :=
    match TriggerAnnotation.httpsTrigger annotation with
    | Some https =>
        let allowInsecure :=
          match HttpsTriggerAnnotation.allowInsecure https with
          | Some v => truthy_boolean v
          | None =>
              negb (present (TriggerAnnotation.platform annotation))
              || from_option (Platform_eqb gcfv1) false (TriggerAnnotation.platform annotation)
          end in
        (* a failure policy is only logged as ignored *)
        mret (HttpsTrigger allowInsecure)
    | None =>
        match TriggerAnnotation.eventTrigger annotation with
        | Some ev =>
            mret (EventTrigger
                    (EventTriggerAnnotation.eventType ev)
                    {[ "resource" := EventTriggerAnnotation.resource ev ]}
                    (present (TriggerAnnotation.failurePolicy annotation)))
        | None => throw (OtherError "TypeError: annotation.eventTrigger is undefined")
        end
    end in
  let cloudFunctionName :=
    TargetIds.mk (TriggerAnnotation.name annotation) region projectId in
  let cloudFunction :=
    FunctionSpec.mk
      (default gcfv1 (TriggerAnnotation.platform annotation))
      (TargetIds.id cloudFunctionName) (TargetIds.region cloudFunctionName)
      (TargetIds.project cloudFunctionName)
      (TriggerAnnotation.entryPoint annotation) runtime trigger
      None None None None None None None None None None None in
  let cloudFunction :=
    match TriggerAnnotation.vpcConnector annotation with
    | Some vpc =>
        if truthy_string vpc then
          let maybeId :=
            if negb (Js.includes "/" vpc)
            then "projects/" +:+ projectId +:+ "/locations/" +:+ region
                 +:+ "/connectors/" +:+ vpc
            else vpc in
          FunctionSpec.set_vpcConnector cloudFunction maybeId
        else cloudFunction
    | None => cloudFunction
    end in
  let cloudFunction := copyIfPresent_function cloudFunction annotation in
  do! cloudFunction :=
    match TriggerAnnotation.schedule annotation with
    | Some sched =>
        do! _ := mutate (Backend.set_requiredAPI "pubsub" "pubsub.googleapis.com") in
        do! _ := mutate (Backend.set_requiredAPI "scheduler" "cloudscheduler.googleapis.com") in
        let id := scheduleIdForFunction cloudFunctionName in
        let schedule :=
          ScheduleSpec.mk id projectId (ScheduleAnnotation.schedule sched) "pubsub"
                          cloudFunctionName None None in
        let schedule := copyIfPresent_schedule schedule sched in
        do! _ := mutate (Backend.push_schedule schedule) in
        let topic :=
          PubSubSpec.mk id projectId SCHEDULED_FUNCTION_LABEL cloudFunctionName in
        do! _ := mutate (Backend.push_topic topic) in
        (* The firebase-functions SDK is missing the topic ID in the event
           trigger for scheduled functions.  The match is
           backend.isEventTrigger(cloudFunction.trigger). *)
        let cloudFunction :=
          match FunctionSpec.trigger cloudFunction with
          | EventTrigger eventType eventFilters retry =>
              let resource := default "undefined" (eventFilters !! "resource") in
              FunctionSpec.set_trigger cloudFunction
                (EventTrigger eventType
                   (<[ "resource" := resource +:+ "/" +:+ id ]> eventFilters) retry)
          | HttpsTrigger _ => cloudFunction
          end in
        let cloudFunction :=
          FunctionSpec.set_labels cloudFunction
            (<[ "deployment-scheduled" := "true" ]>
               (default ∅ (FunctionSpec.labels cloudFunction))) in
        mret cloudFunction
    | None => mret cloudFunction
    end in
  mutate (Backend.push_cloudFunction cloudFunction).

(** [Object.freeze(annotation)] changes nothing of a value (the function
    never assigns to the annotation); it is modelled on objects, in [Heap]
    below.  [annotation.regions || [api.functionsDefaultRegion]]: an array
    is truthy, also an empty one, so the default stands in for an absent
    field only. *)
Definition addResourcesToBackend (projectId runtime : string)
    (annotation : TriggerAnnotation.t) : M unit :=
  (* Every trigger annotation is at least a function *)
  for_of (match TriggerAnnotation.regions annotation with
          | Some regions => regions
          | None => [functionsDefaultRegion]
          end)
         (addResourcesToBackend_region projectId runtime annotation).

End ParseTriggers.

(** ** [parseTriggers.ts]: discovery

    [parseTriggers] forks the trigger parser and settles a promise from the
    events of the forked process; [discoverBackend] awaits it and folds
    [addResourcesToBackend] over the annotations. *)

(** [removeInspectOptions]: the options that do not start with [--inspect]. *)
Definition removeInspectOptions (options : list string) : list string :=
  List.filter (fun opt => negb (Js.startsWith "--inspect" opt)) options.

(** What [fork] is called with. *)
Record ForkOptions : Type := mkForkOptions {
  fork_silent : bool;
  fork_env : gmap string string;
  fork_execArgv : list string
}.

Record Fork : Type := mkFork {
  fork_modulePath : string;
  fork_args : list string;
  fork_options : ForkOptions
}.

(** A message of the forked parser, as the handler reads it: its [triggers]
    and its [error] property, either of which may be missing. *)
Record ParserMessage : Type := mkParserMessage {
  message_triggers : option (list TriggerAnnotation.t);
  message_error : option string
}.

(** The events of the forked parser the promise listens to: a message, and
    the exit with its code ([null], here [None], when a signal ended the
    process). *)
Inductive ParserEvent : Type :=
| OnMessage (message : ParserMessage)
| OnExit (code : option Z).

(** A promise: pending, resolved with a value, or rejected with an error;
    [exit] is the exit option the [FirebaseError] was made with. *)
Inductive Promise (A : Type) : Type :=
| Pending
| Fulfilled (a : A)
| Rejected (e : exn) (exit : Z).
Arguments Pending {A}.
Arguments Fulfilled {A} a.
Arguments Rejected {A} e exit.

(** [resolve] and [reject] of a promise settle it once: on a settled
    promise they do nothing. *)
Definition resolve {A} (a : A) (p : Promise A) : Promise A :=
  match p with
  | Pending => Fulfilled a
  | _ => p
  end.

Definition reject {A} (e : exn) (exit : Z) (p : Promise A) : Promise A :=
  match p with
  | Pending => Rejected e exit
  | _ => p
  end.

Definition unknown_problem : exn :=
  FirebaseError "There was an unknown problem while trying to parse function triggers." None.

(** The handler of ["message"]. *)
Definition parser_on_message (message : ParserMessage)
    (p : Promise (list TriggerAnnotation.t)) : Promise (list TriggerAnnotation.t) :=
  match message_triggers message with
  | Some triggers => resolve triggers p
  | None =>
      match message_error message with
      | Some error =>
          if truthy_string error then reject (FirebaseError error None) 1 p else p
      | None => p
      end
  end.

(** The handler of ["exit"]. *)
Definition parser_on_exit (code : option Z)
    (p : Promise (list TriggerAnnotation.t)) : Promise (list TriggerAnnotation.t) :=
  match code with
  | Some 0%Z => p
  | _ => reject unknown_problem 2 p
  end.

Definition parser_handle (p : Promise (list TriggerAnnotation.t)) (ev : ParserEvent)
    : Promise (list TriggerAnnotation.t) :=
  match ev with
  | OnMessage message => parser_on_message message p
  | OnExit code => parser_on_exit code p
  end.

Section Discovery.

(** [backend.RuntimeConfigValues] with [_.isEmpty] of lodash and
    [JSON.stringify] on it, the path [TRIGGER_PARSER] resolves to, and
    [api.functionsDefaultRegion], [backend.scheduleIdForFunction],
    [backend.SCHEDULED_FUNCTION_LABEL] and [backend.empty()] as above. *)
Variable RuntimeConfigValues : Type.
Variable isEmpty : RuntimeConfigValues -> bool.
Variable JSON_stringify : RuntimeConfigValues -> string.
Variable TRIGGER_PARSER : string.
Variable functionsDefaultRegion : string.
Variable scheduleIdForFunction : TargetIds.t -> string.
Variable SCHEDULED_FUNCTION_LABEL : gmap string string.
Variable backend_empty : Backend.t.

(** [parseTriggers], up to the call of [fork]: the environment and the
    arguments of the forked parser.  [process_execArgv] is
    [process.execArgv]. *)
Definition parseTriggers_fork (process_execArgv : list string)
    (projectId sourceDir : string) (configValues : RuntimeConfigValues)
    (envs : gmap string string) : Fork :=
  let env := envs in
  let env := <[ "GCLOUD_PROJECT" := projectId ]> env in
  let env :=
    if negb (isEmpty configValues)
    then <[ "CLOUD_RUNTIME_CONFIG" := JSON_stringify configValues ]> env
    else env in
  let execArgv := removeInspectOptions process_execArgv in
  let env :=
    match env !! "NODE_OPTIONS" with
    | Some options =>
        if truthy_string options
        then <[ "NODE_OPTIONS" :=
                  Js.join " " (removeInspectOptions (Js.split " " options)) ]> env
        else env
    | None => env
    end in
  mkFork TRIGGER_PARSER [sourceDir] (mkForkOptions true env execArgv).

(** [parseTriggers], from there: the promise after the events the forked
    parser has raised so far. *)
Definition parseTriggers_promise (events : list ParserEvent)
    : Promise (list TriggerAnnotation.t) :=
  fold_left parser_handle events Pending.

(** [discoverBackend], on what the awaited promise has come to: [None] while
    it is pending, when the function has not returned. *)
Definition discoverBackend (projectId runtime : string)
    (parsed : Promise (list TriggerAnnotation.t)) (envs : gmap string string)
    : option (result Backend.t) :=
  match parsed with
  | Pending => None
  | Rejected e _ => Some (Throw e)
  | Fulfilled triggerAnnotations =>
      let want :=
        Backend.mk (Backend.requiredAPIs backend_empty) (Backend.cloudFunctions backend_empty)
                   (Backend.schedules backend_empty) (Backend.topics backend_empty) envs in
      match for_of triggerAnnotations
              (addResourcesToBackend functionsDefaultRegion scheduleIdForFunction
                 SCHEDULED_FUNCTION_LABEL projectId runtime) want with
      | (Ok _, want) => Some (Ok want)
      | (Throw e, _) => Some (Throw e)
      end
  end.

End Discovery.

(** ** The builder on objects: a store of objects is the state

    JavaScript objects are shared by reference.  Here every object lives in
    a cell of a store, an object-valued field holds the location of a cell,
    and the builder reads, allocates and overwrites cells.  Primitive values
    (strings, numbers, booleans) are held in place. *)

Module Heap.

Abbreviation loc := nat.

Module ScheduleAnnotation.
Record t : Type := mk {
  schedule : string;
  timeZone : option string;
  retryConfig : option loc
}.
End ScheduleAnnotation.

Module TriggerAnnotation.
Record t : Type := mk {
  name : string;
  platform : option Platform;
  labels : option loc;
  entryPoint : string;
  vpcConnector : option string;
  vpcConnectorEgressSettings : option string;
  ingressSettings : option string;
  availableMemoryMb : option Z;
  timeout : option string;
  maxInstances : option Z;
  minInstances : option Z;
  serviceAccountEmail : option string;
  httpsTrigger : option loc;
  eventTrigger : option loc;
  failurePolicy : option loc;
  schedule : option loc;
  timeZone : option string;
  regions : option loc;
  concurrency : option Z;
  invoker : option loc
}.
End TriggerAnnotation.

Inductive Trigger : Type :=
| HttpsTrigger (allowInsecure : bool)
| EventTrigger (eventType : string) (eventFilters : loc) (retry : bool).

Module FunctionSpec.
Record t : Type := mk {
  platform : Platform;
  id : string;
  region : string;
  project : string;
  entryPoint : string;
  runtime : string;
  trigger : loc;
  vpcConnector : option string;
  concurrency : option Z;
  serviceAccountEmail : option string;
  labels : option loc;
  vpcConnectorEgressSettings : option string;
  ingressSettings : option string;
  timeout : option string;
  maxInstances : option Z;
  minInstances : option Z;
  availableMemoryMb : option Z;
  invoker : option loc
}.

Definition set_vpcConnector (v : string) (f : t) : t :=
  mk (platform f) (id f) (region f) (project f) (entryPoint f) (runtime f)
     (trigger f) (Some v) (concurrency f) (serviceAccountEmail f) (labels f)
     (vpcConnectorEgressSettings f) (ingressSettings f) (timeout f)
     (maxInstances f) (minInstances f) (availableMemoryMb f) (invoker f).

Definition set_labels (l : loc) (f : t) : t :=
  mk (platform f) (id f) (region f) (project f) (entryPoint f) (runtime f)
     (trigger f) (vpcConnector f) (concurrency f) (serviceAccountEmail f) (Some l)
     (vpcConnectorEgressSettings f) (ingressSettings f) (timeout f)
     (maxInstances f) (minInstances f) (availableMemoryMb f) (invoker f).
End FunctionSpec.

Module ScheduleSpec.
Record t : Type := mk {
  id : string;
  project : string;
  schedule : string;
  transport : string;
  targetService : loc;
  timeZone : option string;
  retryConfig : option loc
}.
End ScheduleSpec.

Module PubSubSpec.
Record t : Type := mk {
  id : string;
  project : string;
  labels : loc;
  targetService : loc
}.
End PubSubSpec.

Module Backend.
Record t : Type := mk {
  requiredAPIs : loc;
  cloudFunctions : loc;
  schedules : loc;
  topics : loc;
  environmentVariables : loc
}.
End Backend.

(** The objects the builder meets. *)
Inductive object : Type :=
| ODict (m : gmap string string)
| OStrings (l : list string)
| ORefs (l : list loc)
| ORetryConfig (r : ScheduleRetryConfig.t)
| OHttpsAnnotation (h : HttpsTriggerAnnotation.t)
| OEventAnnotation (e : EventTriggerAnnotation.t)
| OFailurePolicy
| OScheduleAnnotation (s : ScheduleAnnotation.t)
| OAnnotation (a : TriggerAnnotation.t) (frozen : bool)
| OTargetIds (t : TargetIds.t)
| OTrigger (t : Trigger)
| OFunction (f : FunctionSpec.t)
| OSchedule (s : ScheduleSpec.t)
| OTopic (p : PubSubSpec.t)
| OBackend (b : Backend.t).

Definition as_dict (o : object) : option (gmap string string) :=
  match o with ODict m => Some m | _ => None end.
Definition as_strings (o : object) : option (list string) :=
  match o with OStrings l => Some l | _ => None end.
Definition as_refs (o : object) : option (list loc) :=
  match o with ORefs l => Some l | _ => None end.
Definition as_retryConfig (o : object) : option ScheduleRetryConfig.t :=
  match o with ORetryConfig r => Some r | _ => None end.
Definition as_httpsAnnotation (o : object) : option HttpsTriggerAnnotation.t :=
  match o with OHttpsAnnotation h => Some h | _ => None end.
Definition as_eventAnnotation (o : object) : option EventTriggerAnnotation.t :=
  match o with OEventAnnotation e => Some e | _ => None end.
Definition as_failurePolicy (o : object) : option unit :=
  match o with OFailurePolicy => Some tt | _ => None end.
Definition as_scheduleAnnotation (o : object) : option ScheduleAnnotation.t :=
  match o with OScheduleAnnotation s => Some s | _ => None end.
Definition as_annotation (o : object) : option TriggerAnnotation.t :=
  match o with OAnnotation a _ => Some a | _ => None end.
Definition as_targetIds (o : object) : option TargetIds.t :=
  match o with OTargetIds t => Some t | _ => None end.
Definition as_trigger (o : object) : option Trigger :=
  match o with OTrigger t => Some t | _ => None end.
Definition as_function (o : object) : option FunctionSpec.t :=
  match o with OFunction f => Some f | _ => None end.
Definition as_schedule (o : object) : option ScheduleSpec.t :=
  match o with OSchedule s => Some s | _ => None end.
Definition as_topic (o : object) : option PubSubSpec.t :=
  match o with OTopic p => Some p | _ => None end.
Definition as_backend (o : object) : option Backend.t :=
  match o with OBackend b => Some b | _ => None end.

(** The store: cell [l] is the [l]-th element; allocation appends. *)
Abbreviation store := (list object).

Definition H (A : Type) : Type := ST store A.

(** [new]: a fresh cell holding [o]. *)
Definition alloc (o : object) : H loc :=
  fun σ => (Ok (length σ), σ ++ [o]).

(** Reading the object at [l] as one of a given kind; a location that holds
    no such object is a [TypeError]. *)
Definition get {A} (sel : object -> option A) (l : loc) : H A :=
  fun σ =>
    match (σ !! l) ≫= sel with
    | Some a => (Ok a, σ)
    | None => (Throw (OtherError "TypeError"), σ)
    end.

(** Overwriting the object at [l]. *)
Definition put (l : loc) (o : object) : H unit :=
  fun σ => (Ok tt, <[l := o]> σ).

(** [dict[k] = v] *)
Definition dict_set (l : loc) (k v : string) : H unit :=
  do! m := get as_dict l in
  put l (ODict (<[k := v]> m)).

(** [array.push(x)] on an array of objects *)
Definition push (l : loc) (x : loc) : H unit :=
  do! xs := get as_refs l in
  put l (ORefs (xs ++ [x])).

(** An assignment to fields of the function object at [l]. *)
Definition update_function (l : loc) (f : FunctionSpec.t -> FunctionSpec.t) : H unit :=
  do! fn := get as_function l in
  put l (OFunction (f fn)).

Definition update_schedule (l : loc) (f : ScheduleSpec.t -> ScheduleSpec.t) : H unit :=
  do! s := get as_schedule l in
  put l (OSchedule (f s)).

(** [Object.freeze(annotation)]: shallow, the objects the annotation refers
    to are not frozen. *)
Definition freeze (l : loc) : H unit :=
  do! a := get as_annotation l in
  put l (OAnnotation a true).

Section ParseTriggers.

Variable functionsDefaultRegion : string.
Variable scheduleIdForFunction : TargetIds.t -> string.
(** The one object [backend.SCHEDULED_FUNCTION_LABEL] names. *)
Variable SCHEDULED_FUNCTION_LABEL : loc.

(** Modelled from the spec: [proto.copyIfPresent] assigns the listed fields
    that are defined in the source; an object-valued field is assigned as
    the reference it is. *)
Definition copyIfPresent_function (a : TriggerAnnotation.t) (f : FunctionSpec.t)
    : FunctionSpec.t :=
  FunctionSpec.mk
    (FunctionSpec.platform f) (FunctionSpec.id f) (FunctionSpec.region f)
    (FunctionSpec.project f) (FunctionSpec.entryPoint f) (FunctionSpec.runtime f)
    (FunctionSpec.trigger f) (FunctionSpec.vpcConnector f)
    (copyIfPresent (FunctionSpec.concurrency f) (TriggerAnnotation.concurrency a))
    (copyIfPresent (FunctionSpec.serviceAccountEmail f) (TriggerAnnotation.serviceAccountEmail a))
    (copyIfPresent (FunctionSpec.labels f) (TriggerAnnotation.labels a))
    (copyIfPresent (FunctionSpec.vpcConnectorEgressSettings f)
                   (TriggerAnnotation.vpcConnectorEgressSettings a))
    (copyIfPresent (FunctionSpec.ingressSettings f) (TriggerAnnotation.ingressSettings a))
    (copyIfPresent (FunctionSpec.timeout f) (TriggerAnnotation.timeout a))
    (copyIfPresent (FunctionSpec.maxInstances f) (TriggerAnnotation.maxInstances a))
    (copyIfPresent (FunctionSpec.minInstances f) (TriggerAnnotation.minInstances a))
    (copyIfPresent (FunctionSpec.availableMemoryMb f) (TriggerAnnotation.availableMemoryMb a))
    (copyIfPresent (FunctionSpec.invoker f) (TriggerAnnotation.invoker a)).

Definition copyIfPresent_schedule (a : ScheduleAnnotation.t) (s : ScheduleSpec.t)
    : ScheduleSpec.t :=
  ScheduleSpec.mk
    (ScheduleSpec.id s) (ScheduleSpec.project s) (ScheduleSpec.schedule s)
    (ScheduleSpec.transport s) (ScheduleSpec.targetService s)
    (copyIfPresent (ScheduleSpec.timeZone s) (ScheduleAnnotation.timeZone a))
    (copyIfPresent (ScheduleSpec.retryConfig s) (ScheduleAnnotation.retryConfig a)).

(** The body of the loop over the regions; [annotation] and [want] are the
    locations of the two arguments. *)
Definition addResourcesToBackend_region (projectId runtime : string)
    (annotation want : loc) (region : string) : H unit :=
  do! a := get as_annotation annotation in
  do! _ :=
    (if Bool.eqb (present (TriggerAnnotation.httpsTrigger a))
                 (present (TriggerAnnotation.eventTrigger a))
     then throw unexpected_annotation
     else mret tt) in
  do! trigger :=
    match TriggerAnnotation.httpsTrigger a with
    | Some httpsTrigger =>
        do! https := get as_httpsAnnotation httpsTrigger in
        let allowInsecure :=
          match HttpsTriggerAnnotation.allowInsecure https with
          | Some v => truthy_boolean v
          | None =>
              negb (present (TriggerAnnotation.platform a))
              || from_option (Platform_eqb gcfv1) false (TriggerAnnotation.platform a)
          end in
        alloc (OTrigger (HttpsTrigger allowInsecure))
    | None =>
        match TriggerAnnotation.eventTrigger a with
        | Some eventTrigger =>
            do! ev := get as_eventAnnotation eventTrigger in
            do! eventFilters :=
              alloc (ODict {[ "resource" := EventTriggerAnnotation.resource ev ]}) in
            alloc (OTrigger (EventTrigger (EventTriggerAnnotation.eventType ev) eventFilters
                               (present (TriggerAnnotation.failurePolicy a))))
        | None => throw (OtherError "TypeError")
        end
    end in
  let ids := TargetIds.mk (TriggerAnnotation.name a) region projectId in
  do! cloudFunctionName := alloc (OTargetIds ids) in
  do! cloudFunction :=
    alloc (OFunction
      (FunctionSpec.mk
         (default gcfv1 (TriggerAnnotation.platform a))
         (TargetIds.id ids) (TargetIds.region ids) (TargetIds.project ids)
         (TriggerAnnotation.entryPoint a) runtime trigger
         None None None None None None None None None None None)) in
  do! _ :=
    match TriggerAnnotation.vpcConnector a with
    | Some vpc =>
        if truthy_string vpc then
          let maybeId :=
            if negb (Js.includes "/" vpc)
            then "projects/" +:+ projectId +:+ "/locations/" +:+ region
                 +:+ "/connectors/" +:+ vpc
            else vpc in
          update_function cloudFunction (FunctionSpec.set_vpcConnector maybeId)
        else mret tt
    | None => mret tt
    end in
  do! _ := update_function cloudFunction (copyIfPresent_function a) in
  do! _ :=
    match TriggerAnnotation.schedule a with
    | Some scheduleAnnotation =>
        do! sched := get as_scheduleAnnotation scheduleAnnotation in
        do! w := get as_backend want in
        do! _ := dict_set (Backend.requiredAPIs w) "pubsub" "pubsub.googleapis.com" in
        do! _ := dict_set (Backend.requiredAPIs w) "scheduler" "cloudscheduler.googleapis.com" in
        let id := scheduleIdForFunction ids in
        do! schedule :=
          alloc (OSchedule
            (ScheduleSpec.mk id projectId (ScheduleAnnotation.schedule sched) "pubsub"
                             cloudFunctionName None None)) in
        do! _ := update_schedule schedule (copyIfPresent_schedule sched) in
        do! _ := push (Backend.schedules w) schedule in
        do! topic :=
          alloc (OTopic
            (PubSubSpec.mk id projectId SCHEDULED_FUNCTION_LABEL cloudFunctionName)) in
        do! _ := push (Backend.topics w) topic in
        do! fn := get as_function cloudFunction in
        do! tr := get as_trigger (FunctionSpec.trigger fn) in
        do! _ :=
          match tr with
          | EventTrigger _ eventFilters _ =>
              do! filters := get as_dict eventFilters in
              let resource := default "undefined" (filters !! "resource") in
              dict_set eventFilters "resource" (resource +:+ "/" +:+ id)
          | HttpsTrigger _ => mret tt
          end in
        do! fn := get as_function cloudFunction in
        do! old :=
          match FunctionSpec.labels fn with
          | Some l => get as_dict l
          | None => mret ∅
          end in
        do! labels := alloc (ODict (<[ "deployment-scheduled" := "true" ]> old)) in
        update_function cloudFunction (FunctionSpec.set_labels labels)
    | None => mret tt
    end in
  do! w := get as_backend want in
  push (Backend.cloudFunctions w) cloudFunction.

Definition addResourcesToBackend (projectId runtime : string)
    (annotation want : loc) : H unit :=
  do! _ := freeze annotation in
  do! a := get as_annotation annotation in
  do! regions :=
    match TriggerAnnotation.regions a with
    | Some regions => get as_strings regions
    | None =>
        do! regions := alloc (OStrings [functionsDefaultRegion]) in
        get as_strings regions
    end in
  for_of regions (addResourcesToBackend_region projectId runtime annotation want).

End ParseTriggers.

End Heap.

(** ** [functions-config-export.ts]: the projects *)

Module JsObject.

(** A plain object, created by [{}], that is used as a dictionary of
    strings: its own properties in the order in which they were created. *)
Abbreviation t := (list (string * string)).

Definition digit (c : ascii) : option N :=
  let n := N_of_ascii c in
  if (48 <=? n)%N && (n <=? 57)%N then Some (n - 48)%N else None.

Fixpoint digits (acc : N) (s : string) : option N :=
  match s with
  | EmptyString => Some acc
  | String c s' =>
      match digit c with
      | Some d => digits (10 * acc + d)%N s'
      | None => None
      end
  end.

(** The array index a property key is, if it is one: the canonical decimal
    form of an integer below [2^32 - 1]. *)
Definition array_index (key : string) : option N :=
  match key with
  | EmptyString => None
  | String "0" EmptyString => Some 0%N
  | String "0" _ => None
  | _ =>
      match digits 0 key with
      | Some n => if (n <? 4294967295)%N then Some n else None
      | None => None
      end
  end.

Definition has (key : string) (o : t) : bool :=
  existsb (fun p => String.eqb p.1 key) o.

(** [o[key] = v] for a string [v].  An existing property keeps its place.
    The key [__proto__] is the accessor inherited from [Object.prototype],
    whose setter ignores a value that is no object: nothing is stored. *)
Definition set (key v : string) (o : t) : t :=
  if String.eqb key "__proto__" then o
  else if has key o
       then map (fun p => if String.eqb p.1 key then (key, v) else p) o
       else o ++ [(key, v)].

Fixpoint insert_index (i : N) (p : string * string) (l : list (N * (string * string)))
    : list (N * (string * string)) :=
  match l with
  | [] => [(i, p)]
  | (j, q) :: l' => if (i <=? j)%N then (i, p) :: l else (j, q) :: insert_index i p l'
  end.

Definition indexed (o : t) : list (N * (string * string)) :=
  omap (fun p => match array_index p.1 with Some i => Some (i, p) | None => None end) o.

Definition named (o : t) : t :=
  List.filter (fun p => match array_index p.1 with Some _ => false | None => true end) o.

(** [Object.entries(o)]: the properties whose key is an array index come
    first, by ascending index, then the others in the order of their
    creation. *)
Definition entries (o : t) : list (string * string) :=
  map snd (foldr (fun ip acc => insert_index ip.1 ip.2 acc) [] (indexed o)) ++ named o.

(** [Object.keys(o)] *)
Definition keys (o : t) : list string := map fst (entries o).

End JsObject.

Module TargetProject.
Record t : Type := mk {
  projectId : string;
  alias : option string
}.
End TargetProject.

Section Projects.

(** The options of the command, [getProjectId] on them, and the entries
    ([Object.entries]) of the [projects] of the configuration [loadRC] reads
    for them, if it has any: [projectUtils.ts] and [rc.ts] are not among the
    sources. *)
Variable Options : Type.
Variable getProjectId : Options -> option string.
Variable loadRC_projects : Options -> option (list (string * string)).

Definition getAllProjects (options : Options) : list TargetProject.t :=
  let results : JsObject.t := [] in
  let results :=
    match getProjectId options with
    | Some projectId =>
        if truthy_string projectId then JsObject.set projectId projectId results else results
    | None => results
    end in
  let results :=
    match loadRC_projects options with
    | Some projects =>
        fold_left
          (fun results '(alias, projectId) =>
             if String.eqb alias "default" then
               if existsb (String.eqb projectId) (JsObject.keys results)
               then (* We already have a better alias for this project. *) results
               else JsObject.set projectId projectId results
             else JsObject.set projectId alias results)
          projects results
    | None => results
    end in
  map (fun '(k, v) => TargetProject.mk k (Some v)) (JsObject.entries results).

End Projects.

(** ** [functions-config-export.ts]: the command

    The command talks to the user and to remote services.  What it prints
    and asks is kept in a world it runs against; what the user answers and
    the services return is given from outside. *)

(** The values that are asked for and answered: booleans and strings. *)
Inductive JsValue : Type :=
| VBoolean (b : bool)
| VString (s : string).

Definition truthy (v : JsValue) : bool :=
  match v with
  | VBoolean b => b
  | VString s => truthy_string s
  end.

(** The string a value is in a concatenation. *)
Definition to_string (v : JsValue) : string :=
  match v with
  | VBoolean true => "true"
  | VBoolean false => "false"
  | VString s => s
  end.

(** A question: the properties of the object [promptOnce] is given. *)
Abbreviation Question := (list (string * JsValue)).

(** What [logWarning] and [logBullet] print. *)
Inductive Output : Type :=
| Warning (message : string)
| Bullet (message : string).

(** What has been printed, what has been asked, and the projects whose
    configuration has been fetched, each in order. *)
Record World : Type := mkWorld {
  outputs : list Output;
  asked : list Question;
  fetched : list string
}.

Definition IO (A : Type) : Type := ST World A.

(** A call that returns or throws and leaves the world as it is. *)
Definition lift {A} (r : result A) : IO A := fun w => (r, w).

Definition logWarning (message : string) : IO unit :=
  mutate (fun w => mkWorld (outputs w ++ [Warning message]) (asked w) (fetched w)).
Definition logBullet (message : string) : IO unit :=
  mutate (fun w => mkWorld (outputs w ++ [Bullet message]) (asked w) (fetched w)).

(** [result] of [testIamPermissions]. *)
Record IamResult : Type := mkIamResult {
  passed : bool;
  missing : list string
}.

Definition REQUIRED_PERMISSIONS : list string :=
  [ "runtimeconfig.configs.list";
    "runtimeconfig.configs.get";
    "runtimeconfig.variables.list";
    "runtimeconfig.variables.get" ].

Definition RESERVED_PROJECT_ALIAS : list string := ["local"].

Definition command_aborted : exn := FirebaseError "Command aborted!" None.

Definition no_project : exn :=
  FirebaseError
    "Didn't find any project in the current directory. Are you in a firebase project directory?"
    None.

Section Command.

(** [String.prototype.toUpperCase], the rules of [env.validateKey], the
    configuration object and [flatten], as for [configToEnv]; the options
    with [getProjectId] and [loadRC], as for [getAllProjects]. *)
Variable toUpperCase : string -> string.
Variable keyRule : string -> KeyVerdict.
Variable Config : Type.
Variable flatten : Config -> list (string * string).
Variable Options : Type.
Variable getProjectId : Options -> option string.
Variable loadRC_projects : Options -> option (list (string * string)).

(** [clc.bold] of [cli-color]. *)
Variable bold : string -> string.

(** [testIamPermissions] of [gcp/iam.ts]: what the service answers for a
    project and a list of permissions, or the error it fails with. *)
Variable testIamPermissions : string -> list string -> result IamResult.

(** The user: the answer to a question of [promptOnce], given how many
    questions were asked before. *)
Variable user : nat -> Question -> JsValue.

(** [functionsConfig.materializeAll]: the configuration of a project, or the
    error it fails with, given how many configurations were fetched
    before. *)
Variable materializeAll : nat -> string -> result Config.

(** [promptOnce(question, { nonInteractive: false })] *)
Definition promptOnce (question : Question) : IO JsValue :=
  fun w => (Ok (user (length (asked w)) question),
            mkWorld (outputs w) (asked w ++ [question]) (fetched w)).

Definition fetch (projectId : string) : IO Config :=
  fun w => (materializeAll (length (fetched w)) projectId,
            mkWorld (outputs w) (asked w) (fetched w ++ [projectId])).

(* Check necessary IAM permissions for a projects.
   If permission check fails on a project, user must explicitly exclude it. *)
Definition checkRequiredPermission (project : TargetProject.t) : IO bool :=
  let projectId := TargetProject.projectId project in
  do! result := lift (testIamPermissions projectId REQUIRED_PERMISSIONS) in
  if passed result then mret true
  else
    do! _ := logWarning
      ("You are missing the following permissions to read functions config on project "
       +:+ str1 TAB +:+ bold projectId +:+ ":" +:+ str1 LF +:+ " "
       +:+ Js.join (str1 LF +:+ " ") (missing result)) in
    do! confirm := promptOnce
      [ ("type", VString "confirm");
        ("name", VString "skip");
        ("default", VBoolean true);
        ("message", VString ("Continue without importing configs from project "
                             +:+ projectId +:+ "?")) ] in
    if negb (truthy confirm) then throw command_aborted
    else mret false.

(* Check if project alias is reserved for internal use.
   If a project's alias is reserved, user must explicitly exclude it. *)
Definition checkReservedAlias (project : TargetProject.t) : IO bool :=
  let projectId := TargetProject.projectId project in
  match TargetProject.alias project with
  | None => mret true
  | Some alias =>
      if negb (truthy_string alias) || negb (existsb (String.eqb alias) RESERVED_PROJECT_ALIAS)
      then mret true
      else
        do! _ := logWarning
          ("The following project alias is reserved for internal use:" +:+ str1 LF
           +:+ str1 TAB +:+ projectId +:+ ": " +:+ bold alias) in
        let suggestCmd := "firebase use --unalias " +:+ alias in
        do! _ := logWarning
          ("Please change the alias of the project by running " +:+ bold suggestCmd) in
        do! confirm := promptOnce
          [ ("type", VString "confirm");
            ("name", VString "skip");
            ("defaul", VBoolean true);
            ("message", VString ("Continue without importing configs from project "
                                 +:+ projectId +:+ "?")) ] in
        if negb (truthy confirm) then throw command_aborted
        else mret false
  end.

(** One conversion of the loop of the command. *)
Record Conversion : Type := mkConversion {
  project : TargetProject.t;
  configToEnvResult : ConfigToEnvResult
}.

Definition promptForPrefix (conversions : list Conversion) : IO JsValue :=
  do! _ := logWarning
    ("The following configs keys could not be exported as environment variables:"
     +:+ str1 LF) in
  do! _ := for_of conversions (fun conversion =>
    if (length (errors (configToEnvResult conversion)) =? 0)%nat then mret tt
    else
      logWarning
        (TargetProject.projectId (project conversion) +:+ ":" +:+ str1 LF
         +:+ Js.join (str1 LF)
               (map (fun e => str1 TAB +:+ origKey e +:+ " => " +:+ bold (newKey e)
                                +:+ " (" +:+ default "undefined" (err e) +:+ ")")
                    (errors (configToEnvResult conversion)))
         +:+ str1 LF)) in
  promptOnce
    [ ("type", VString "input");
      ("name", VString "prefix");
      ("default", VString "CONFIG_");
      ("message", VString "Enter a PREFIX to rename invalid environment variable keys:") ].

(** The first loop of the action: the projects that pass both checks. *)
Fixpoint action_select (allProjects projects : list TargetProject.t)
    : IO (list TargetProject.t) :=
  match allProjects with
  | [] => mret projects
  | project :: rest =>
      do! permitted := checkRequiredPermission project in
      do! free := (if permitted then checkReservedAlias project else mret false) in
      action_select rest (if free then projects ++ [project] else projects)
  end.

(** The loop over the projects inside the [while]: a conversion per
    project, with the prefix of the turn. *)
Fixpoint action_convert (prefix : string) (projects : list TargetProject.t)
    (results : list Conversion) : IO (list Conversion) :=
  match projects with
  | [] => mret results
  | project :: rest =>
      do! configs := fetch (TargetProject.projectId project) in
      do! converted := lift (configToEnv toUpperCase keyRule Config flatten configs prefix) in
      action_convert prefix rest (results ++ [mkConversion project converted])
  end.

(** [while (true)]: the turns are counted down from [turns]; [None] is the
    loop still running when they are used up. *)
Fixpoint action_while (turns : nat) (projects : list TargetProject.t) (prefix : string)
    (results : list Conversion) : IO (option (list Conversion)) :=
  match turns with
  | O => mret None
  | S turns' =>
      do! results := action_convert prefix projects results in
      if forallb (fun result => (length (errors (configToEnvResult result)) =? 0)%nat) results
      then mret (Some results)
      else
        do! prefix := promptForPrefix results in
        action_while turns' projects (to_string prefix) []
  end.

(** The dotenv files of the conversions: the name each is written under in
    the temporary directory, and its text. *)
Definition action_dotenvs (results : list Conversion) : list (string * string) :=
  map (fun result =>
         (".env." +:+ default (TargetProject.projectId (project result))
                              (TargetProject.alias (project result)),
          toDotenvFormat (success (configToEnvResult result))))
      results.

(** The action of the command, up to the texts of the dotenv files; what
    follows writes them with [fs]. *)
Definition action (turns : nat) (options : Options)
    : IO (option (list (string * string))) :=
  let allProjects := getAllProjects Options getProjectId loadRC_projects options in
  if (length allProjects =? 0)%nat then throw no_project
  else
    do! projects := action_select allProjects [] in
    do! _ := logBullet
      ("Importing functions configs from projects ["
       +:+ Js.join ", " (map (fun p => bold (TargetProject.projectId p)) projects)
       +:+ "]") in
    let prefix := "" in
    let results := [] in
    do! results := action_while turns projects prefix results in
    mret (option_map action_dotenvs results).

End Command.

(** * Specification-level readings

    The definitions below follow the wording of the specification; the
    theorems relate them to the functions above. *)

(** ** Key conversion *)

(** Every [.] and every [-] becomes [_], character by character. *)
Definition underscore_char (c : ascii) : ascii :=
  if Ascii.eqb c "." then "_"%char
  else if Ascii.eqb c "-" then "_"%char
  else c.

Fixpoint underscored (s : string) : string :=
  match s with
  | EmptyString => EmptyString
  | String c s' => String (underscore_char c) (underscored s')
  end.

(** The key uppercased, with the separators replaced. *)
Definition baseKey (toUpperCase : string -> string) (configKey : string) : string :=
  underscored (toUpperCase configKey).

(** The wrapper [configToEnv] puts around a failure that is no validation
    failure. *)
Definition unexpected (e : exn) : exn :=
  FirebaseError "Unexpected error while converting config" (Some e).

Section ConfigExportSpec.

Variable toUpperCase : string -> string.
Variable keyRule : string -> KeyVerdict.

(** The success entry of a leaf, if its key converts. *)
Definition success_entry (prefix : string) (entry : string * string) : option EnvMap :=
  match convertKey toUpperCase keyRule entry.1 prefix with
  | Ok envKey => Some (mkEnvMap entry.1 envKey entry.2 None)
  | Throw _ => None
  end.

(** The error entry of a leaf, if its key fails validation. *)
Definition error_entry (prefix : string) (entry : string * string) : option EnvMap :=
  match convertKey toUpperCase keyRule entry.1 prefix with
  | Throw (KeyValidationError key message) =>
      Some (mkEnvMap entry.1 key entry.2 (Some message))
  | _ => None
  end.

End ConfigExportSpec.

(** ** Escaping and rendering *)

(** The leftmost [c] of [s], if there is one, becomes [rep]. *)
Fixpoint replace_first_char (c : ascii) (rep : string) (s : string) : string :=
  match s with
  | EmptyString => EmptyString
  | String x s' =>
      if Ascii.eqb x c then rep +:+ s'
      else String x (replace_first_char c rep s')
  end.

(** A backslash before every single and every double quote. *)
Fixpoint backslash_quotes (s : string) : string :=
  match s with
  | EmptyString => EmptyString
  | String x s' =>
      if Ascii.eqb x SQUOTE || Ascii.eqb x DQUOTE
      then String BACKSLASH (String x (backslash_quotes s'))
      else String x (backslash_quotes s')
  end.

(** First newline, first carriage return, first tab, first vertical tab, in
    that order, then the quotes. *)
Definition escaped (s : string) : string :=
  backslash_quotes
    (replace_first_char VT (String BACKSLASH "v")
      (replace_first_char TAB (String BACKSLASH "t")
        (replace_first_char CR (String BACKSLASH "r")
          (replace_first_char LF (String BACKSLASH "n") s)))).

(** [KEY="escaped-value"] *)
Definition rendered (e : EnvMap) : string :=
  newKey e +:+ "=" +:+ str1 DQUOTE +:+ escaped (value e) +:+ str1 DQUOTE.

(** ** What the builder adds for an annotation *)

(** Exactly one of [httpsTrigger] and [eventTrigger] is present. *)
Definition one_trigger_kind (a : TriggerAnnotation.t) : Prop :=
  Bool.eqb (present (TriggerAnnotation.httpsTrigger a))
           (present (TriggerAnnotation.eventTrigger a)) = false.

(** [allowInsecure] of an HTTPS trigger: the explicit value as a boolean, or
    else whether the platform is absent or the first generation. *)
Definition derived_allowInsecure (a : TriggerAnnotation.t) (h : HttpsTriggerAnnotation.t)
    : bool :=
  match HttpsTriggerAnnotation.allowInsecure h with
  | Some (Some b) => b
  | Some None => false
  | None =>
      match TriggerAnnotation.platform a with
      | None | Some gcfv1 => true
      | Some gcfv2 => false
      end
  end.

Section BuilderSpec.

Variable functionsDefaultRegion : string.
Variable scheduleIdForFunction : TargetIds.t -> string.
Variable SCHEDULED_FUNCTION_LABEL : gmap string string.
Variables projectId runtime : string.

(** The regions the loop runs over. *)
Definition regions_or_default (a : TriggerAnnotation.t) : list string :=
  default [functionsDefaultRegion] (TriggerAnnotation.regions a).

Definition connector_path (region connector : string) : string :=
  "projects/" +:+ projectId +:+ "/locations/" +:+ region +:+ "/connectors/" +:+ connector.

(** The function resource of annotation [a] in region [r]. *)
Record function_for (a : TriggerAnnotation.t) (r : string) (f : FunctionSpec.t) : Prop := {
  ff_id : FunctionSpec.id f = TriggerAnnotation.name a;
  ff_region : FunctionSpec.region f = r;
  ff_project : FunctionSpec.project f = projectId;
  ff_platform : FunctionSpec.platform f = default gcfv1 (TriggerAnnotation.platform a);
  ff_https : ∀ h, TriggerAnnotation.httpsTrigger a = Some h →
      FunctionSpec.trigger f = HttpsTrigger (derived_allowInsecure a h);
  ff_event : ∀ ev, TriggerAnnotation.eventTrigger a = Some ev →
      FunctionSpec.trigger f =
        EventTrigger (EventTriggerAnnotation.eventType ev)
          {[ "resource" :=
               match TriggerAnnotation.schedule a with
               | Some _ =>
                   EventTriggerAnnotation.resource ev +:+ "/" +:+
                   scheduleIdForFunction (TargetIds.mk (TriggerAnnotation.name a) r projectId)
               | None => EventTriggerAnnotation.resource ev
               end ]}
          (present (TriggerAnnotation.failurePolicy a));
  ff_vpc : FunctionSpec.vpcConnector f =
      match TriggerAnnotation.vpcConnector a with
      | Some v =>
          if decide (v = "") then None
          else if Js.includes "/" v then Some v
          else Some (connector_path r v)
      | None => None
      end;
  ff_labels : FunctionSpec.labels f =
      match TriggerAnnotation.schedule a with
      | Some _ => Some (<[ "deployment-scheduled" := "true" ]>
                          (default ∅ (TriggerAnnotation.labels a)))
      | None => TriggerAnnotation.labels a
      end
}.

(** The schedule resource of a scheduled annotation in region [r]. *)
Record schedule_for (a : TriggerAnnotation.t) (s : ScheduleAnnotation.t) (r : string)
    (sc : ScheduleSpec.t) : Prop := {
  sf_id : ScheduleSpec.id sc =
          scheduleIdForFunction (TargetIds.mk (TriggerAnnotation.name a) r projectId);
  sf_project : ScheduleSpec.project sc = projectId;
  sf_schedule : ScheduleSpec.schedule sc = ScheduleAnnotation.schedule s;
  sf_transport : ScheduleSpec.transport sc = "pubsub";
  sf_target : ScheduleSpec.targetService sc = TargetIds.mk (TriggerAnnotation.name a) r projectId;
  sf_timeZone : ScheduleSpec.timeZone sc = ScheduleAnnotation.timeZone s;
  sf_retryConfig : ScheduleSpec.retryConfig sc = ScheduleAnnotation.retryConfig s
}.

(** Its topic. *)
Record topic_for (a : TriggerAnnotation.t) (r : string) (tp : PubSubSpec.t) : Prop := {
  tf_id : PubSubSpec.id tp =
          scheduleIdForFunction (TargetIds.mk (TriggerAnnotation.name a) r projectId);
  tf_project : PubSubSpec.project tp = projectId;
  tf_labels : PubSubSpec.labels tp = SCHEDULED_FUNCTION_LABEL;
  tf_target : PubSubSpec.targetService tp = TargetIds.mk (TriggerAnnotation.name a) r projectId
}.

(** What one turn of the loop leaves in the aggregate. *)
Record region_added (a : TriggerAnnotation.t) (r : string) (want want' : Backend.t) : Prop := {
  ra_function : ∃ f, Backend.cloudFunctions want' = Backend.cloudFunctions want ++ [f]
                     ∧ function_for a r f;
  ra_schedule :
    match TriggerAnnotation.schedule a with
    | Some s => ∃ sc, Backend.schedules want' = Backend.schedules want ++ [sc]
                      ∧ schedule_for a s r sc
    | None => Backend.schedules want' = Backend.schedules want
    end;
  ra_topic :
    match TriggerAnnotation.schedule a with
    | Some s => ∃ tp, Backend.topics want' = Backend.topics want ++ [tp] ∧ topic_for a r tp
    | None => Backend.topics want' = Backend.topics want
    end;
  ra_apis :
    Backend.requiredAPIs want' =
    match TriggerAnnotation.schedule a with
    | Some _ => <[ "scheduler" := "cloudscheduler.googleapis.com" ]>
                  (<[ "pubsub" := "pubsub.googleapis.com" ]> (Backend.requiredAPIs want))
    | None => Backend.requiredAPIs want
    end;
  ra_env : Backend.environmentVariables want' = Backend.environmentVariables want
}.

(** The aggregate after the loop has run over [rs]. *)
Inductive regions_added (a : TriggerAnnotation.t)
    : list string → Backend.t → Backend.t → Prop :=
| regions_added_nil want : regions_added a [] want want
| regions_added_cons r rs want want1 want2 :
    region_added a r want want1 →
    regions_added a rs want1 want2 →
    regions_added a (r :: rs) want want2.

(** The fan-out as the specification words it: [N >= 1] listed regions give
    [N] functions of one id and project and pairwise distinct regions; no
    region, or an empty list, gives one function in the default region. *)
Definition fanout_as_stated (a : TriggerAnnotation.t) (want want' : Backend.t) : Prop :=
  (∀ rs, TriggerAnnotation.regions a = Some rs → rs ≠ [] →
     ∃ fs, Backend.cloudFunctions want' = Backend.cloudFunctions want ++ fs
           ∧ length fs = length rs
           ∧ Forall (λ f, FunctionSpec.id f = TriggerAnnotation.name a
                          ∧ FunctionSpec.project f = projectId) fs
           ∧ NoDup (map FunctionSpec.region fs))
  ∧ (TriggerAnnotation.regions a = None ∨ TriggerAnnotation.regions a = Some [] →
     ∃ f, Backend.cloudFunctions want' = Backend.cloudFunctions want ++ [f]
          ∧ FunctionSpec.region f = functionsDefaultRegion).

End BuilderSpec.

(** ** Objects read back as values *)

(** Reading an optional reference through the store. *)
Definition deref {A} (sel : Heap.object → option A) (σ : Heap.store) (r : option Heap.loc)
    : option (option A) :=
  match r with
  | None => Some None
  | Some l => Some <$> ((σ !! l) ≫= sel)
  end.

Definition snapshot_schedule (σ : Heap.store) (l : Heap.loc) : option ScheduleAnnotation.t :=
  s ← (σ !! l) ≫= Heap.as_scheduleAnnotation;
  retryConfig ← deref Heap.as_retryConfig σ (Heap.ScheduleAnnotation.retryConfig s);
  Some (ScheduleAnnotation.mk (Heap.ScheduleAnnotation.schedule s)
          (Heap.ScheduleAnnotation.timeZone s) retryConfig).

(** The value of the annotation object at [l]: every field, the objects it
    refers to read through the store. *)
Definition snapshot (σ : Heap.store) (l : Heap.loc) : option TriggerAnnotation.t :=
  a ← (σ !! l) ≫= Heap.as_annotation;
  labels ← deref Heap.as_dict σ (Heap.TriggerAnnotation.labels a);
  httpsTrigger ← deref Heap.as_httpsAnnotation σ (Heap.TriggerAnnotation.httpsTrigger a);
  eventTrigger ← deref Heap.as_eventAnnotation σ (Heap.TriggerAnnotation.eventTrigger a);
  failurePolicy ← deref Heap.as_failurePolicy σ (Heap.TriggerAnnotation.failurePolicy a);
  schedule ←
    match Heap.TriggerAnnotation.schedule a with
    | None => Some None
    | Some ls => Some <$> snapshot_schedule σ ls
    end;
  regions ← deref Heap.as_strings σ (Heap.TriggerAnnotation.regions a);
  invoker ← deref Heap.as_strings σ (Heap.TriggerAnnotation.invoker a);
  Some (TriggerAnnotation.mk
          (Heap.TriggerAnnotation.name a) (Heap.TriggerAnnotation.platform a) labels
          (Heap.TriggerAnnotation.entryPoint a) (Heap.TriggerAnnotation.vpcConnector a)
          (Heap.TriggerAnnotation.vpcConnectorEgressSettings a)
          (Heap.TriggerAnnotation.ingressSettings a)
          (Heap.TriggerAnnotation.availableMemoryMb a) (Heap.TriggerAnnotation.timeout a)
          (Heap.TriggerAnnotation.maxInstances a) (Heap.TriggerAnnotation.minInstances a)
          (Heap.TriggerAnnotation.serviceAccountEmail a)
          httpsTrigger eventTrigger failurePolicy schedule
          (Heap.TriggerAnnotation.timeZone a) regions
          (Heap.TriggerAnnotation.concurrency a) invoker).

Definition snapshot_trigger (σ : Heap.store) (l : Heap.loc) : option Trigger :=
  tr ← (σ !! l) ≫= Heap.as_trigger;
  match tr with
  | Heap.HttpsTrigger allowInsecure => Some (HttpsTrigger allowInsecure)
  | Heap.EventTrigger eventType eventFilters retry =>
      filters ← (σ !! eventFilters) ≫= Heap.as_dict;
      Some (EventTrigger eventType filters retry)
  end.

Definition snapshot_function (σ : Heap.store) (l : Heap.loc) : option FunctionSpec.t :=
  f ← (σ !! l) ≫= Heap.as_function;
  trigger ← snapshot_trigger σ (Heap.FunctionSpec.trigger f);
  labels ← deref Heap.as_dict σ (Heap.FunctionSpec.labels f);
  invoker ← deref Heap.as_strings σ (Heap.FunctionSpec.invoker f);
  Some (FunctionSpec.mk
          (Heap.FunctionSpec.platform f) (Heap.FunctionSpec.id f) (Heap.FunctionSpec.region f)
          (Heap.FunctionSpec.project f) (Heap.FunctionSpec.entryPoint f)
          (Heap.FunctionSpec.runtime f) trigger (Heap.FunctionSpec.vpcConnector f)
          (Heap.FunctionSpec.concurrency f) (Heap.FunctionSpec.serviceAccountEmail f) labels
          (Heap.FunctionSpec.vpcConnectorEgressSettings f)
          (Heap.FunctionSpec.ingressSettings f) (Heap.FunctionSpec.timeout f)
          (Heap.FunctionSpec.maxInstances f) (Heap.FunctionSpec.minInstances f)
          (Heap.FunctionSpec.availableMemoryMb f) invoker).

Definition snapshot_scheduleSpec (σ : Heap.store) (l : Heap.loc) : option ScheduleSpec.t :=
  s ← (σ !! l) ≫= Heap.as_schedule;
  target ← (σ !! Heap.ScheduleSpec.targetService s) ≫= Heap.as_targetIds;
  retryConfig ← deref Heap.as_retryConfig σ (Heap.ScheduleSpec.retryConfig s);
  Some (ScheduleSpec.mk (Heap.ScheduleSpec.id s) (Heap.ScheduleSpec.project s)
          (Heap.ScheduleSpec.schedule s) (Heap.ScheduleSpec.transport s) target
          (Heap.ScheduleSpec.timeZone s) retryConfig).

Definition snapshot_topic (σ : Heap.store) (l : Heap.loc) : option PubSubSpec.t :=
  p ← (σ !! l) ≫= Heap.as_topic;
  labels ← (σ !! Heap.PubSubSpec.labels p) ≫= Heap.as_dict;
  target ← (σ !! Heap.PubSubSpec.targetService p) ≫= Heap.as_targetIds;
  Some (PubSubSpec.mk (Heap.PubSubSpec.id p) (Heap.PubSubSpec.project p) labels target).

(** Reading an array of resources through the store. *)
Definition deref_all {A} (read : Heap.loc → option A) (σ : Heap.store) (l : Heap.loc)
    : option (list A) :=
  refs ← (σ !! l) ≫= Heap.as_refs;
  mapM read refs.

(** The value of the aggregate object at [l]. *)
Definition snapshot_backend (σ : Heap.store) (l : Heap.loc) : option Backend.t :=
  w ← (σ !! l) ≫= Heap.as_backend;
  requiredAPIs ← (σ !! Heap.Backend.requiredAPIs w) ≫= Heap.as_dict;
  cloudFunctions ← deref_all (snapshot_function σ) σ (Heap.Backend.cloudFunctions w);
  schedules ← deref_all (snapshot_scheduleSpec σ) σ (Heap.Backend.schedules w);
  topics ← deref_all (snapshot_topic σ) σ (Heap.Backend.topics w);
  environmentVariables ← (σ !! Heap.Backend.environmentVariables w) ≫= Heap.as_dict;
  Some (Backend.mk requiredAPIs cloudFunctions schedules topics environmentVariables).

(** ** Sharing between the annotation, the aggregate and the resources *)

(** The aggregate and the annotation share no object: the one object the
    builder writes to that an annotation could hold is the [requiredAPIs]
    dictionary. *)
Definition separate (σ : Heap.store) (annotation want : Heap.loc) : Prop :=
  ∀ a w, (σ !! annotation) ≫= Heap.as_annotation = Some a →
         (σ !! want) ≫= Heap.as_backend = Some w →
         Heap.TriggerAnnotation.labels a ≠ Some (Heap.Backend.requiredAPIs w).

(** What a call leaves of the cell [l] that held [o] before it: everything
    but the dictionary and the arrays of the aggregate is as it was, the
    annotation frozen. *)
Definition cell_after (σ : Heap.store) (annotation want : Heap.loc) (l : Heap.loc)
    (o : Heap.object) (σ' : Heap.store) : Prop :=
  match o with
  | Heap.ODict _ =>
      (∀ w, (σ !! want) ≫= Heap.as_backend = Some w → l ≠ Heap.Backend.requiredAPIs w) →
      σ' !! l = Some o
  | Heap.ORefs _ =>
      (∀ w, (σ !! want) ≫= Heap.as_backend = Some w →
            l ≠ Heap.Backend.cloudFunctions w ∧ l ≠ Heap.Backend.schedules w
            ∧ l ≠ Heap.Backend.topics w) →
      σ' !! l = Some o
  | Heap.OAnnotation a frozen =>
      σ' !! l = Some (Heap.OAnnotation a (if decide (l = annotation) then true else frozen))
  | _ => σ' !! l = Some o
  end.

(** The objects a produced resource refers to. *)
Definition resource_refs (σ : Heap.store) (l : Heap.loc) : list Heap.loc :=
  match σ !! l with
  | Some (Heap.OFunction f) =>
      Heap.FunctionSpec.trigger f
      :: option_list (Heap.FunctionSpec.labels f) ++ option_list (Heap.FunctionSpec.invoker f)
  | Some (Heap.OSchedule s) =>
      Heap.ScheduleSpec.targetService s :: option_list (Heap.ScheduleSpec.retryConfig s)
  | Some (Heap.OTopic p) => [Heap.PubSubSpec.labels p; Heap.PubSubSpec.targetService p]
  | _ => []
  end.

(** The objects the annotation at [l] refers to. *)
Definition annotation_refs (σ : Heap.store) (l : Heap.loc) : list Heap.loc :=
  match (σ !! l) ≫= Heap.as_annotation with
  | Some a =>
      option_list (Heap.TriggerAnnotation.labels a)
      ++ option_list (Heap.TriggerAnnotation.httpsTrigger a)
      ++ option_list (Heap.TriggerAnnotation.eventTrigger a)
      ++ option_list (Heap.TriggerAnnotation.failurePolicy a)
      ++ option_list (Heap.TriggerAnnotation.regions a)
      ++ option_list (Heap.TriggerAnnotation.invoker a)
      ++ match Heap.TriggerAnnotation.schedule a with
         | Some ls =>
             ls :: match (σ !! ls) ≫= Heap.as_scheduleAnnotation with
                   | Some s => option_list (Heap.ScheduleAnnotation.retryConfig s)
                   | None => []
                   end
         | None => []
         end
  | None => []
  end.

(** Independence as the specification words it: the resources of different
    regions are independent values, none holding a reference into the
    annotation, no two of different regions holding one object. *)
Definition independent_resources (σ : Heap.store) (annotation : Heap.loc)
    (by_region : list (list Heap.loc)) : Prop :=
  (∀ rs r x, rs ∈ by_region → r ∈ rs → x ∈ resource_refs σ r →
             x ∉ annotation_refs σ annotation)
  ∧ (∀ i j rs1 rs2 r1 r2 x,
       by_region !! i = Some rs1 → by_region !! j = Some rs2 → i ≠ j →
       r1 ∈ rs1 → r2 ∈ rs2 → x ∈ resource_refs σ r1 → x ∉ resource_refs σ r2).

(** ** The invariant of the store while the loop runs *)

Section FrameSpec.

(** The store the loop starts from and the location of the aggregate. *)
Variable σ0 : Heap.store.
Variable want : Heap.loc.

Definition backend0 : option Heap.Backend.t := (σ0 !! want) ≫= Heap.as_backend.

Definition is_requiredAPIs (l : Heap.loc) : Prop :=
  ∃ w, backend0 = Some w ∧ l = Heap.Backend.requiredAPIs w.
Definition is_array (l : Heap.loc) : Prop :=
  ∃ w, backend0 = Some w
       ∧ (l = Heap.Backend.cloudFunctions w ∨ l = Heap.Backend.schedules w
          ∨ l = Heap.Backend.topics w).

(** What has become in [σ] of the cell [l] that held [o0] at the start. *)
Definition kept (l : Heap.loc) (o0 : Heap.object) (σ : Heap.store) : Prop :=
  match o0 with
  | Heap.ODict _ =>
      (∃ m, σ !! l = Some (Heap.ODict m)) ∧ (¬ is_requiredAPIs l → σ !! l = Some o0)
  | Heap.ORefs _ =>
      (∃ x, σ !! l = Some (Heap.ORefs x)) ∧ (¬ is_array l → σ !! l = Some o0)
  | _ => σ !! l = Some o0
  end.

(** What a cell allocated since the start may hold. *)
Definition fresh_ok (o : Heap.object) : Prop :=
  match o with
  | Heap.OFunction f => length σ0 ≤ Heap.FunctionSpec.trigger f
  | Heap.OTrigger (Heap.EventTrigger _ eventFilters _) => length σ0 ≤ eventFilters
  | Heap.OBackend _ => False
  | _ => True
  end.

Record good (σ : Heap.store) : Prop := {
  good_length : length σ0 ≤ length σ;
  good_old : ∀ l o0, σ0 !! l = Some o0 → kept l o0 σ;
  good_new : ∀ l o, length σ0 ≤ l → σ !! l = Some o → fresh_ok o
}.

(** A statement keeps the invariant, however it ends, and a value it
    returns satisfies [Q]. *)
Definition hoare {A} (c : Heap.H A) (Q : A → Prop) : Prop :=
  ∀ σ, good σ → good (c σ).2 ∧ ∀ a, (c σ).1 = Ok a → Q a.

End FrameSpec.

(** Selectors of objects the builder never writes to. *)
Definition read_only {A} (sel : Heap.object → option A) : Prop :=
  ∀ o, is_Some (sel o) →
       match o with
       | Heap.ODict _ | Heap.ORefs _ | Heap.OAnnotation _ _
       | Heap.OFunction _ | Heap.OSchedule _ => False
       | _ => True
       end.

(** * Notions the further properties are stated with *)

(** ** Discovery *)

(** Whether an event settles a pending promise. *)
Definition settles (ev : ParserEvent) : bool :=
  match parser_handle Pending ev with
  | Pending => false
  | _ => true
  end.

(** The events that are let pass: an exit with code 0, and a message with
    no [triggers] and no, or an empty, [error]. *)
Definition passes (ev : ParserEvent) : Prop :=
  ev = OnExit (Some 0%Z)
  ∨ ∃ m, ev = OnMessage m ∧ message_triggers m = None
         ∧ (message_error m = None ∨ message_error m = Some "").

(** An annotation the builder throws on: not exactly one trigger kind, and
    a region to run the check for. *)
Definition rejected (a : TriggerAnnotation.t) : Prop :=
  ¬ one_trigger_kind a ∧ TriggerAnnotation.regions a ≠ Some [].

(** The identity (id, region, project) of a function. *)
Definition function_name (f : FunctionSpec.t) : TargetIds.t :=
  TargetIds.mk (FunctionSpec.id f) (FunctionSpec.region f) (FunctionSpec.project f).

Definition schedule_key (s : ScheduleSpec.t) : string * string * TargetIds.t :=
  (ScheduleSpec.id s, ScheduleSpec.project s, ScheduleSpec.targetService s).

Definition topic_key (t : PubSubSpec.t) : string * string * TargetIds.t :=
  (PubSubSpec.id t, PubSubSpec.project t, PubSubSpec.targetService t).

(** The attributes a function takes over from its annotation as they are. *)
Record passthrough_for (runtime : string) (a : TriggerAnnotation.t) (f : FunctionSpec.t)
    : Prop := {
  pf_entryPoint : FunctionSpec.entryPoint f = TriggerAnnotation.entryPoint a;
  pf_runtime : FunctionSpec.runtime f = runtime;
  pf_concurrency : FunctionSpec.concurrency f = TriggerAnnotation.concurrency a;
  pf_serviceAccountEmail :
    FunctionSpec.serviceAccountEmail f = TriggerAnnotation.serviceAccountEmail a;
  pf_vpcConnectorEgressSettings :
    FunctionSpec.vpcConnectorEgressSettings f = TriggerAnnotation.vpcConnectorEgressSettings a;
  pf_ingressSettings : FunctionSpec.ingressSettings f = TriggerAnnotation.ingressSettings a;
  pf_timeout : FunctionSpec.timeout f = TriggerAnnotation.timeout a;
  pf_maxInstances : FunctionSpec.maxInstances f = TriggerAnnotation.maxInstances a;
  pf_minInstances : FunctionSpec.minInstances f = TriggerAnnotation.minInstances a;
  pf_availableMemoryMb : FunctionSpec.availableMemoryMb f = TriggerAnnotation.availableMemoryMb a;
  pf_invoker : FunctionSpec.invoker f = TriggerAnnotation.invoker a
}.

(** The schedules of an aggregate are backed: each has its topic, of the
    same id, project and target, at the same place of the topics list, and
    its target function, labelled as scheduled, among the functions; and
    with a schedule there the two APIs are required. *)
Record schedules_backed (want : Backend.t) : Prop := {
  sb_paired : map schedule_key (Backend.schedules want) = map topic_key (Backend.topics want);
  sb_target : ∀ s, s ∈ Backend.schedules want →
      ∃ f m, f ∈ Backend.cloudFunctions want
             ∧ function_name f = ScheduleSpec.targetService s
             ∧ FunctionSpec.labels f = Some m
             ∧ m !! "deployment-scheduled" = Some "true";
  sb_apis : Backend.schedules want ≠ [] →
      Backend.requiredAPIs want !! "pubsub" = Some "pubsub.googleapis.com"
      ∧ Backend.requiredAPIs want !! "scheduler" = Some "cloudscheduler.googleapis.com"
}.

Section DiscoverySpec.

Variable functionsDefaultRegion : string.
Variable scheduleIdForFunction : TargetIds.t -> string.
Variable SCHEDULED_FUNCTION_LABEL : gmap string string.
Variables projectId runtime : string.

(** What a call that returns leaves in the aggregate: per region the loop
    runs over, in order, a function, and for a scheduled annotation a
    schedule and a topic. *)
Record annotation_added (a : TriggerAnnotation.t) (want want' : Backend.t) : Prop := {
  aa_functions : ∃ fs,
    Backend.cloudFunctions want' = Backend.cloudFunctions want ++ fs
    ∧ Forall2 (λ r f, function_for scheduleIdForFunction projectId a r f
                      ∧ passthrough_for runtime a f)
              (regions_or_default functionsDefaultRegion a) fs;
  aa_schedules : ∃ scs,
    Backend.schedules want' = Backend.schedules want ++ scs
    ∧ match TriggerAnnotation.schedule a with
      | Some s => Forall2 (schedule_for scheduleIdForFunction projectId a s)
                          (regions_or_default functionsDefaultRegion a) scs
      | None => scs = []
      end;
  aa_topics : ∃ tps,
    Backend.topics want' = Backend.topics want ++ tps
    ∧ match TriggerAnnotation.schedule a with
      | Some s => Forall2 (topic_for scheduleIdForFunction SCHEDULED_FUNCTION_LABEL projectId a)
                          (regions_or_default functionsDefaultRegion a) tps
      | None => tps = []
      end;
  aa_apis :
    Backend.requiredAPIs want' =
    match TriggerAnnotation.schedule a, regions_or_default functionsDefaultRegion a with
    | Some _, _ :: _ =>
        <[ "scheduler" := "cloudscheduler.googleapis.com" ]>
          (<[ "pubsub" := "pubsub.googleapis.com" ]> (Backend.requiredAPIs want))
    | _, _ => Backend.requiredAPIs want
    end;
  aa_env : Backend.environmentVariables want' = Backend.environmentVariables want
}.

(** The aggregate after the annotations of a list have been added in
    turn. *)
Inductive annotations_added : list TriggerAnnotation.t → Backend.t → Backend.t → Prop :=
| annotations_added_nil want : annotations_added [] want want
| annotations_added_cons a rest want want1 want2 :
    annotation_added a want want1 →
    annotations_added rest want1 want2 →
    annotations_added (a :: rest) want want2.

(** The (id, region, project) triples the functions of the annotations of a
    list are to have. *)
Definition names_of (annotations : list TriggerAnnotation.t) : list TargetIds.t :=
  flat_map (λ a, map (λ r, TargetIds.mk (TriggerAnnotation.name a) r projectId)
                     (regions_or_default functionsDefaultRegion a))
           annotations.

End DiscoverySpec.

(** ** The exported file *)

(** How often a character occurs in a string. *)
Fixpoint occurrences (c : ascii) (s : string) : nat :=
  match s with
  | EmptyString => 0
  | String x s' => (if Ascii.eqb x c then 1 else 0) + occurrences c s'
  end.

(** The line breaks an entry puts into the output beyond the one that ends
    its line: the newlines of its keys, and those of its value but the
    first, which is escaped. *)
Definition extra_breaks (e : EnvMap) : nat :=
  occurrences LF (newKey e) + pred (occurrences LF (value e)) + occurrences LF (origKey e).

(** The leaf an entry was made for. *)
Definition leaf_of (e : EnvMap) : string * string := (origKey e, value e).

(** ** The projects of the export *)

(** The value of the property [key] of an object. *)
Definition property (key : string) (o : JsObject.t) : option string :=
  snd <$> List.find (fun p => String.eqb p.1 key) o.

(** The aliases other than [default] under which a configuration lists a
    project, in the order of its entries, and the alias the project is
    exported under: the last of them, and the project id itself when there
    is none. *)
Definition aliases_of (projectId : string) (projects : list (string * string)) : list string :=
  omap (fun entry => if decide (entry.2 = projectId ∧ entry.1 ≠ "default")
                     then Some entry.1 else None) projects.

Definition alias_for (projectId : string) (projects : list (string * string)) : string :=
  default projectId (last (aliases_of projectId projects)).

(** What an entry of the configuration makes of the value the results hold
    for a project: a [default] entry of the project sets the project id
    unless there is a value, another entry of the project sets its alias. *)
Definition alias_step (projectId : string) (held : option string) (entry : string * string)
    : option string :=
  if decide (entry.2 = projectId) then
    if String.eqb entry.1 "default" then Some (default projectId held) else Some entry.1
  else held.

(** ** The command *)

(** The question [promptForPrefix] asks. *)
Definition prefix_question : Question :=
  [ ("type", VString "input");
    ("name", VString "prefix");
    ("default", VString "CONFIG_");
    ("message", VString "Enter a PREFIX to rename invalid environment variable keys:") ].

Section CommandSpec.

Variable toUpperCase : string -> string.
Variable keyRule : string -> KeyVerdict.
Variable Config : Type.
Variable flatten : Config -> list (string * string).
Variable testIamPermissions : string -> list string -> result IamResult.
Variable user : nat -> Question -> JsValue.

(** A project the export goes on with: the permissions are there, and its
    alias is not the reserved one. *)
Definition permitted (project : TargetProject.t) : bool :=
  match testIamPermissions (TargetProject.projectId project) REQUIRED_PERMISSIONS with
  | Ok result => passed result
  | Throw _ => false
  end.

Definition reserved (project : TargetProject.t) : bool :=
  bool_decide (TargetProject.alias project = Some "local").

Definition eligible (project : TargetProject.t) : bool :=
  permitted project && negb (reserved project).

(** What a check that has to ask comes to: a warning or two, one
    question, and [false] or the abort by the answer. *)
Definition asks (run : result bool * World) (w : World) : Prop :=
  ∃ question warnings,
    run = (if truthy (user (length (asked w)) question) then Ok false else Throw command_aborted,
           mkWorld (outputs w ++ warnings) (asked w ++ [question]) (fetched w)).

(** The prefix of a turn of the loop: the one given for the first turn, and
    then the answer to the question of the turn before; [n] questions were
    asked before the loop. *)
Definition prefix_of_turn (prefix : string) (n : nat) (turn : nat) : string :=
  match turn with
  | O => prefix
  | S turn' => to_string (user (n + turn') prefix_question)
  end.

(** With a prefix, the keys of the configuration of a project convert
    ([converts]), and convert with no error left ([converts_clean]). *)
Definition converts (config : string → Config) (prefix : string)
    (project : TargetProject.t) : Prop :=
  ∃ r, configToEnv toUpperCase keyRule Config flatten
         (config (TargetProject.projectId project)) prefix = Ok r.

Definition converts_clean (config : string → Config) (prefix : string)
    (project : TargetProject.t) : Prop :=
  ∃ r, configToEnv toUpperCase keyRule Config flatten
         (config (TargetProject.projectId project)) prefix = Ok r
       ∧ errors r = [].

(** The conversion of a project whose configuration is [config] of its id,
    when the keys convert. *)
Definition conversion_of (config : string → Config) (prefix : string)
    (project : TargetProject.t) : Conversion :=
  mkConversion project
    match configToEnv toUpperCase keyRule Config flatten
            (config (TargetProject.projectId project)) prefix with
    | Ok r => r
    | Throw _ => mkConfigToEnvResult [] []
    end.

End CommandSpec.

(** ** Concrete inputs *)

Module Examples.

(** ASCII upper-casing, what [toUpperCase] is on ASCII keys. *)
Definition upper_char (c : ascii) : ascii :=
  let n := nat_of_ascii c in
  if (97 <=? n)%nat && (n <=? 122)%nat then ascii_of_nat (n - 32) else c.

Fixpoint toUpperCase (s : string) : string :=
  match s with
  | EmptyString => EmptyString
  | String c s' => String (upper_char c) (toUpperCase s')
  end.

(** Key rules in the manner of [env.validateKey]: keys of a reserved prefix
    and keys that do not start with a letter or an underscore are rejected;
    one key makes the validation itself fail. *)
Definition keyRule (key : string) : KeyVerdict :=
  if String.eqb key "CRASH" then KeyCrashed "out of memory"
  else if String.prefix "FIREBASE_" key then KeyRejected "reserved prefix"
  else match key with
       | EmptyString => KeyRejected "empty"
       | String c _ =>
           let n := nat_of_ascii c in
           if ((65 <=? n)%nat && (n <=? 90)%nat) || (n =? 95)%nat then KeyAccepted
           else KeyRejected "must start with an uppercase letter or underscore"
       end.

Definition flatten (entries : list (string * string)) : list (string * string) := entries.

Definition convert := convertKey toUpperCase keyRule.
Definition toEnv := configToEnv toUpperCase keyRule (list (string * string)) flatten.

Definition defaultRegion : string := "us-central1".
Definition scheduleId (t : TargetIds.t) : string :=
  "firebase-schedule-" +:+ TargetIds.id t +:+ "-" +:+ TargetIds.region t.
Definition scheduledLabel : gmap string string := {[ "deployment" := "firebase-schedule" ]}.

Definition emptyBackend : Backend.t := Backend.mk ∅ [] [] [] ∅.

(** An annotation named [fn] with the given triggers, schedule, regions,
    connector, labels and invoker, and nothing else. *)
Definition annotation (https : option HttpsTriggerAnnotation.t)
    (event : option EventTriggerAnnotation.t) (schedule : option ScheduleAnnotation.t)
    (regions : option (list string)) (vpc : option string)
    (labels : option (gmap string string)) (invoker : option (list string))
    : TriggerAnnotation.t :=
  TriggerAnnotation.mk "fn" None labels "fn" vpc None None None None None None None
    https event None schedule None regions None invoker.

Definition https0 : HttpsTriggerAnnotation.t := HttpsTriggerAnnotation.mk None.
Definition event0 : EventTriggerAnnotation.t :=
  EventTriggerAnnotation.mk "google.pubsub.topic.publish" "projects/p/topics"
                            "pubsub.googleapis.com".
Definition retry0 : ScheduleRetryConfig.t :=
  ScheduleRetryConfig.mk (Some 3%Z) None None None None.
Definition schedule0 : ScheduleAnnotation.t :=
  ScheduleAnnotation.mk "every 5 minutes" None (Some retry0).

Definition build := addResourcesToBackend defaultRegion scheduleId scheduledLabel "p" "nodejs14".

(** Annotations the runs below are made on. *)
Definition two_regions : TriggerAnnotation.t :=
  annotation (Some https0) None None (Some ["us-east1"; "europe-west1"]) None None None.
Definition no_regions : TriggerAnnotation.t :=
  annotation (Some https0) None None None None None None.
Definition empty_regions : TriggerAnnotation.t :=
  annotation (Some https0) None None (Some []) None None None.
Definition repeated_region : TriggerAnnotation.t :=
  annotation (Some https0) None None (Some ["us-east1"; "us-east1"]) None None None.
Definition no_trigger : TriggerAnnotation.t :=
  annotation None None None (Some ["us-east1"; "europe-west1"]) None None None.
Definition both_triggers : TriggerAnnotation.t :=
  annotation (Some https0) (Some event0) None None None None None.
Definition no_trigger_no_region : TriggerAnnotation.t :=
  annotation None None None (Some []) None None None.
Definition empty_connector : TriggerAnnotation.t :=
  annotation (Some https0) None None None (Some "") None None.
Definition short_connector : TriggerAnnotation.t :=
  annotation (Some https0) None None (Some ["us-east1"; "europe-west1"]) (Some "conn") None None.
Definition long_connector : TriggerAnnotation.t :=
  annotation (Some https0) None None None (Some "projects/q/locations/x/connectors/c") None None.
Definition scheduled_https : TriggerAnnotation.t :=
  annotation (Some https0) None (Some schedule0) None None (Some {[ "team" := "a" ]}) None.

(** An aggregate that already holds something. *)
Definition busy : Backend.t :=
  (build no_regions (Backend.mk {[ "iam" := "iam.googleapis.com" ]} [] [] []
                                {[ "KEY" := "value" ]})).2.

(** A scheduled event function for two regions with a retry configuration
    and an invoker list, as a value ... *)
Definition scheduled : TriggerAnnotation.t :=
  annotation None (Some event0) (Some schedule0) (Some ["us-east1"; "europe-west1"])
             None None (Some ["public"]).

(** ... and as objects, next to an empty aggregate (cell 11) and the label
    object of scheduled topics (cell 12). *)
Definition store0 : Heap.store :=
  [ (* 0 *) Heap.OEventAnnotation event0;
    (* 1 *) Heap.ORetryConfig retry0;
    (* 2 *) Heap.OScheduleAnnotation (Heap.ScheduleAnnotation.mk "every 5 minutes" None (Some 1));
    (* 3 *) Heap.OStrings ["us-east1"; "europe-west1"];
    (* 4 *) Heap.OStrings ["public"];
    (* 5 *) Heap.OAnnotation
              (Heap.TriggerAnnotation.mk "fn" None None "fn" None None None None None None None
                 None None (Some 0) None (Some 2) None (Some 3) None (Some 4))
              false;
    (* 6 *) Heap.ODict ∅;
    (* 7 *) Heap.ORefs [];
    (* 8 *) Heap.ORefs [];
    (* 9 *) Heap.ORefs [];
    (* 10 *) Heap.ODict ∅;
    (* 11 *) Heap.OBackend (Heap.Backend.mk 6 7 8 9 10);
    (* 12 *) Heap.ODict scheduledLabel ].

Definition store_build :=
  Heap.addResourcesToBackend defaultRegion scheduleId 12 "p" "nodejs14" 5 11.

(** The same store, but the annotation has as its labels the very
    dictionary (cell 6) that is the [requiredAPIs] of the aggregate. *)
Definition store0_shared : Heap.store :=
  <[5 := Heap.OAnnotation
           (Heap.TriggerAnnotation.mk "fn" None (Some 6) "fn" None None None None None None
              None None None (Some 0) None (Some 2) None (Some 3) None (Some 4))
           false]> store0.

(** A second-generation HTTPS function with an explicit [allowInsecure],
    labels, a connector id, a failure policy and limits, and no regions, as
    a value and as objects next to an aggregate that requires an API. *)
Definition plain : TriggerAnnotation.t :=
  TriggerAnnotation.mk "fn" (Some gcfv2) (Some {[ "team" := "a" ]}) "fn" (Some "conn")
    None None (Some 256%Z) (Some "60s") None None None
    (Some (HttpsTriggerAnnotation.mk (Some (Some false)))) None (Some tt) None None None
    (Some 80%Z) None.

Definition want1 : Backend.t := Backend.mk {[ "iam" := "iam.googleapis.com" ]} [] [] [] ∅.

Definition store1 : Heap.store :=
  [ (* 0 *) Heap.OHttpsAnnotation (HttpsTriggerAnnotation.mk (Some (Some false)));
    (* 1 *) Heap.ODict {[ "team" := "a" ]};
    (* 2 *) Heap.OFailurePolicy;
    (* 3 *) Heap.OAnnotation
              (Heap.TriggerAnnotation.mk "fn" (Some gcfv2) (Some 1) "fn" (Some "conn")
                 None None (Some 256%Z) (Some "60s") None None None
                 (Some 0) None (Some 2) None None None (Some 80%Z) None)
              false;
    (* 4 *) Heap.ODict {[ "iam" := "iam.googleapis.com" ]};
    (* 5 *) Heap.ORefs [];
    (* 6 *) Heap.ORefs [];
    (* 7 *) Heap.ORefs [];
    (* 8 *) Heap.ODict ∅;
    (* 9 *) Heap.OBackend (Heap.Backend.mk 4 5 6 7 8);
    (* 10 *) Heap.ODict scheduledLabel ].

(** The same with an event trigger beside the HTTPS trigger. *)
Definition store2 : Heap.store :=
  <[3 := Heap.OAnnotation
           (Heap.TriggerAnnotation.mk "fn" (Some gcfv2) (Some 1) "fn" (Some "conn")
              None None (Some 256%Z) (Some "60s") None None None
              (Some 0) (Some 11) (Some 2) None None None (Some 80%Z) None)
           false]>
    (store1 ++ [Heap.OEventAnnotation event0]).

Definition store_build1 :=
  Heap.addResourcesToBackend defaultRegion scheduleId 10 "p" "nodejs14" 3 9.

(** A configuration given by its entries, with stand-ins for [_.isEmpty]
    and [JSON.stringify] on it, and the forked parser on it. *)
Definition config_isEmpty (c : list (string * string)) : bool :=
  match c with
  | [] => true
  | _ :: _ => false
  end.
Definition config_stringify (c : list (string * string)) : string :=
  "{" +:+ Js.join "," (map (λ entry, entry.1 +:+ ":" +:+ entry.2) c) +:+ "}".
Definition fork :=
  parseTriggers_fork (list (string * string)) config_isEmpty config_stringify
                     "lib/triggerParser.js".

(** An environment that asks for the inspector and names another project. *)
Definition inspected_env : gmap string string :=
  {[ "NODE_OPTIONS" := "--inspect=9229 --max-old-space-size=4096";
     "GCLOUD_PROJECT" := "other";
     "HOME" := "/root" ]}.

Definition discover :=
  discoverBackend defaultRegion scheduleId scheduledLabel emptyBackend "p" "nodejs14".

(** Events of a parser that sends an empty error, then the triggers, and
    exits with code 1. *)
Definition late_triggers : ParserMessage :=
  mkParserMessage (Some [no_regions]) (Some "too late").
Definition quiet_events : list ParserEvent :=
  [OnMessage (mkParserMessage None (Some "")); OnExit (Some 0%Z)].

(** The command in a directory whose options name [proj-a] and whose
    configuration lists three projects, one of them twice; [proj-b] lacks
    a permission; the user says yes to what is to be confirmed and enters
    [CONFIG_] as the prefix; every project has the same configuration. *)
Definition rc_projects : list (string * string) :=
  [("default", "proj-a"); ("staging", "proj-b"); ("prod", "proj-b"); ("local", "proj-c")].
Definition projects : list TargetProject.t :=
  getAllProjects unit (λ _, Some "proj-a") (λ _, Some rc_projects) tt.
Definition iam (projectId : string) (permissions : list string) : result IamResult :=
  if String.eqb projectId "proj-b"
  then Ok (mkIamResult false ["runtimeconfig.configs.get"])
  else Ok (mkIamResult true []).
Definition user (n : nat) (question : Question) : JsValue :=
  match question with
  | (_, VString type) :: _ =>
      if String.eqb type "confirm" then VBoolean true else VString "CONFIG_"
  | _ => VString "CONFIG_"
  end.
Definition remote_config (projectId : string) : list (string * string) :=
  [("firebase.key", "1"); ("a.b", "2")].
Definition remote (n : nat) (projectId : string) : result (list (string * string)) :=
  Ok (remote_config projectId).
Definition world0 : World := mkWorld [] [] [].
Definition proj_a : TargetProject.t := TargetProject.mk "proj-a" (Some "proj-a").
Definition select := action_select (λ s, s) iam user.
Definition while :=
  action_while toUpperCase keyRule (list (string * string)) flatten (λ s, s) user remote.
Definition run :=
  action toUpperCase keyRule (list (string * string)) flatten unit
         (λ _, Some "proj-a") (λ _, Some rc_projects) (λ s, s) iam user remote.

End Examples.

(** * Properties *)

(** ** Strings *)

Lemma append_nil_l s : "" +:+ s = s.
Proof. reflexivity. Qed.

Lemma append_cons c s t : String c s +:+ t = String c (s +:+ t).
Proof. reflexivity. Qed.

Lemma append_assoc s t u : (s +:+ t) +:+ u = s +:+ t +:+ u.
Proof. induction s as [|c s IH]; [done|]. rewrite !append_cons. by rewrite IH. Qed.

Lemma length_append s t : String.length (s +:+ t) = String.length s + String.length t.
Proof. induction s as [|c s IH]; [done|]. cbn. by rewrite <- IH. Qed.

Lemma length_spaces n : String.length (Js.spaces n) = n.
Proof. induction n; cbn; congruence. Qed.

Lemma prefix_empty s : String.prefix "" s = true.
Proof. destruct s; reflexivity. Qed.

Lemma replaceAll_dot_dash s :
  Js.replaceAll "-" "_" (Js.replaceAll "." "_" s) = underscored s.
Proof.
  induction s as [|c s IH]; [reflexivity|].
  cbn [Js.replaceAll underscored]. unfold underscore_char.
  destruct (Ascii.eqb c ".") eqn:Hdot.
  - rewrite append_cons, append_nil_l. cbn [Js.replaceAll]. cbn. by rewrite IH.
  - cbn [Js.replaceAll]. destruct (Ascii.eqb c "-") eqn:Hdash;
      rewrite ?append_cons, ?append_nil_l; by rewrite IH.
Qed.

(** No [.] and no [-] is left in a converted key. *)
Lemma underscored_free s :
  Js.includes "." (underscored s) = false ∧ Js.includes "-" (underscored s) = false.
Proof.
  induction s as [|c s [IH1 IH2]]; [done|].
  cbn. rewrite IH1, IH2. unfold underscore_char.
  destruct (Ascii.eqb c ".") eqn:Hdot; [done|].
  destruct (Ascii.eqb c "-") eqn:Hdash; [done|].
  by rewrite Hdot, Hdash.
Qed.

Lemma underscored_length s : String.length (underscored s) = String.length s.
Proof. induction s; cbn; congruence. Qed.

(** [replace] with a one-character pattern replaces the leftmost one. *)
Lemma replace_one_char c rep s :
  Js.replace (str1 c) rep s = replace_first_char c rep s.
Proof.
  induction s as [|x s IH]; [reflexivity|].
  cbn [Js.replace replace_first_char]. unfold str1 at 1. cbn [String.prefix].
  destruct (ascii_dec c x) as [->|Hne].
  - rewrite prefix_empty, Ascii.eqb_refl. reflexivity.
  - assert (Ascii.eqb x c = false) as -> by (apply Ascii.eqb_neq; congruence).
    by rewrite IH.
Qed.

Lemma replace_first_char_absent c rep s :
  Js.includes c s = false → replace_first_char c rep s = s.
Proof.
  induction s as [|x s IH]; [done|]. cbn.
  destruct (Ascii.eqb x c); [done|]. cbn. intros H. by rewrite IH.
Qed.

(** Only the leftmost occurrence is replaced: what follows it is kept as it
    is, further occurrences included. *)
Lemma replace_first_char_leftmost c rep pre post :
  Js.includes c pre = false →
  replace_first_char c rep (pre +:+ String c post) = pre +:+ rep +:+ post.
Proof.
  induction pre as [|x pre IH].
  - intros _. rewrite !append_nil_l. cbn. by rewrite Ascii.eqb_refl.
  - cbn [Js.includes]. destruct (Ascii.eqb x c) eqn:Hx; [done|]. cbn [orb]. intros H.
    rewrite !append_cons. cbn [replace_first_char]. rewrite Hx, IH by done. reflexivity.
Qed.

Lemma replaceAll_quotes s :
  Js.replaceAll DQUOTE (String BACKSLASH (str1 DQUOTE))
    (Js.replaceAll SQUOTE (String BACKSLASH (str1 SQUOTE)) s) = backslash_quotes s.
Proof.
  unfold str1.
  induction s as [|x s IH]; [reflexivity|].
  cbn [Js.replaceAll backslash_quotes].
  destruct (Ascii.eqb x SQUOTE) eqn:Hs.
  - apply Ascii.eqb_eq in Hs as ->.
    rewrite !append_cons, append_nil_l. cbn [Js.replaceAll orb].
    change (Ascii.eqb BACKSLASH DQUOTE) with false.
    change (Ascii.eqb SQUOTE DQUOTE) with false.
    cbn iota. by rewrite IH.
  - cbn [Js.replaceAll orb]. destruct (Ascii.eqb x DQUOTE) eqn:Hd.
    + rewrite !append_cons, append_nil_l.
      apply Ascii.eqb_eq in Hd as ->. by rewrite IH.
    + by rewrite IH.
Qed.

Lemma escape_escaped s : escape s = escaped s.
Proof.
  unfold escape, escaped. by rewrite replaceAll_quotes, !replace_one_char.
Qed.

Lemma Math_max_spec l :
  l ≠ [] →
  ∃ w, Js.Math_max l = Some w ∧ w ∈ l ∧ ∀ x, x ∈ l → x ≤ w.
Proof.
  induction l as [|x l IH]; [done|]. intros _. cbn.
  destruct l as [|y l].
  - exists x. cbn. split; [done|]. split; [by left|].
    intros z Hz. apply list_elem_of_singleton in Hz. lia.
  - destruct IH as (w & Hw & Hin & Hle); [done|]. rewrite Hw.
    exists (Nat.max x w). split; [done|]. split.
    + destruct (Nat.max_dec x w) as [-> | ->]; [by left | by right].
    + intros z Hz. apply elem_of_cons in Hz as [->|Hz]; [lia|].
      specialize (Hle z Hz). lia.
Qed.

Lemma map_combine_lines {A} (f : A → string) (g : string → A → string) (l : list A) :
  map (λ '(line, e), g line e) (combine (map f l) l) = map (λ e, g (f e) e) l.
Proof. induction l as [|x l IH]; [done|]. cbn. by rewrite IH. Qed.

(** ** [toDotenvFormat] *)

(** C7: for a non-empty list of entries, [toDotenvFormat] is the lines
    [KEY="escaped-value"], one per entry, each padded with spaces to the
    length of the longest of them and followed by [ # from origKey], joined
    by newlines; the escaping replaces the first newline, the first carriage
    return, the first tab and the first vertical tab, in that order, by its
    backslash sequence and then puts a backslash before every quote. *)
Theorem toDotenvFormat_aligned envs :
  envs ≠ [] →
  ∃ width,
    toDotenvFormat envs =
      Js.join (str1 LF)
        (map (λ e, rendered e +:+ Js.spaces (width - String.length (rendered e))
                   +:+ " # from " +:+ origKey e) envs)
    ∧ (∀ e, e ∈ envs → String.length (rendered e) ≤ width)
    ∧ (∃ e, e ∈ envs ∧ String.length (rendered e) = width)
    ∧ (∀ e, e ∈ envs →
         String.length (rendered e +:+ Js.spaces (width - String.length (rendered e))) = width)
    ∧ (∀ s, escape s = escaped s).
Proof.
  intros Hne. unfold toDotenvFormat.
  set (lines := map _ envs).
  assert (Hlines : lines = map rendered envs).
  { subst lines. apply map_ext. intros e. unfold rendered. by rewrite escape_escaped. }
  destruct (Math_max_spec (map String.length lines)) as (w & Hw & Hin & Hle).
  { subst lines. by destruct envs. }
  exists w. rewrite Hw.
  assert (Hbound : ∀ e, e ∈ envs → String.length (rendered e) ≤ w).
  { intros e He. apply Hle. rewrite Hlines, map_map.
    apply list_elem_of_In, (in_map (λ e, String.length (rendered e))), list_elem_of_In, He. }
  split; [|split; [done|split; [|split]]].
  - unfold lines.
    rewrite (map_combine_lines _ (λ line e, Js.padEnd line (Some w) +:+ " # from " +:+ origKey e)).
    f_equal. apply map_ext. intros e. cbn. rewrite escape_escaped.
    fold (rendered e). apply append_assoc.
  - rewrite Hlines, map_map in Hin.
    apply list_elem_of_In, in_map_iff in Hin as (e & He & Hin).
    exists e. split; [by apply list_elem_of_In|done].
  - intros e He. rewrite length_append, length_spaces. specialize (Hbound e He). lia.
  - apply escape_escaped.
Qed.

(** ** [convertKey] and [configToEnv] *)

Section ConfigExportFacts.

Variable toUpperCase : string -> string.
Variable keyRule : string -> KeyVerdict.
Variable Config : Type.
Variable flatten : Config -> list (string * string).

Local Abbreviation validate := (validateKey keyRule).
Local Abbreviation convert := (convertKey toUpperCase keyRule).
Local Abbreviation toEnv := (configToEnv toUpperCase keyRule Config flatten).
Local Abbreviation base := (baseKey toUpperCase).

(** C6: [convertKey] returns the key uppercased with every [.] and [-]
    replaced by [_] when that passes validation; when it fails validation
    with a validation error, it returns that key with the prefix prepended
    if the prefixed key passes; and when the prefixed key fails too, that
    failure is thrown to the caller. *)
Theorem convertKey_prefix_fallback configKey prefix :
  (validate (base configKey) = Ok tt →
     convert configKey prefix = Ok (base configKey))
  ∧ (∀ key message,
       validate (base configKey) = Throw (KeyValidationError key message) →
       validate (prefix +:+ base configKey) = Ok tt →
       convert configKey prefix = Ok (prefix +:+ base configKey))
  ∧ (∀ key message e,
       validate (base configKey) = Throw (KeyValidationError key message) →
       validate (prefix +:+ base configKey) = Throw e →
       convert configKey prefix = Throw e).
Proof.
  unfold convertKey, baseKey. rewrite replaceAll_dot_dash.
  repeat split.
  - intros ->. reflexivity.
  - intros key message -> H2. cbn. rewrite H2. reflexivity.
  - intros key message e -> H2. cbn. rewrite H2. reflexivity.
Qed.

(** What [convertKey] comes to, by the verdicts on the two candidates.  A
    failure of the first validation that is no validation failure is caught
    and dropped: the unprefixed key is returned. *)
Lemma convertKey_cases configKey prefix :
  convert configKey prefix =
    match keyRule (base configKey) with
    | KeyAccepted | KeyCrashed _ => Ok (base configKey)
    | KeyRejected _ =>
        match keyRule (prefix +:+ base configKey) with
        | KeyAccepted => Ok (prefix +:+ base configKey)
        | KeyRejected reason =>
            Throw (KeyValidationError (prefix +:+ base configKey) reason)
        | KeyCrashed what => Throw (OtherError what)
        end
    end.
Proof.
  unfold convertKey, baseKey, validateKey. rewrite replaceAll_dot_dash.
  destruct (keyRule (underscored (toUpperCase configKey))); cbn; try reflexivity.
  destruct (keyRule (prefix +:+ underscored (toUpperCase configKey))); reflexivity.
Qed.

Lemma loop_collects prefix entries : ∀ acc,
  (∀ entry e, entry ∈ entries → convert entry.1 prefix = Throw e →
              instanceof_KeyValidationError e = true) →
  configToEnv_loop toUpperCase keyRule prefix acc entries =
    Ok {| success := success acc ++ omap (success_entry toUpperCase keyRule prefix) entries;
          errors := errors acc ++ omap (error_entry toUpperCase keyRule prefix) entries |}.
Proof.
  induction entries as [|[k v] entries IH]; intros acc Hall.
  - cbn. rewrite !app_nil_r. by destruct acc.
  - cbn [configToEnv_loop omap]. unfold configToEnv_step, success_entry, error_entry.
    cbn [fst snd].
    destruct (convert k prefix) as [envKey|e] eqn:Hk; cbn.
    + rewrite IH by (intros; eapply Hall; [by right|done]). cbn.
      rewrite Hk. by rewrite <- app_assoc.
    + pose proof (Hall (k, v) e ltac:(by left) Hk) as Hkind.
      destruct e; try discriminate. cbn.
      rewrite IH by (intros; eapply Hall; [by right|done]). cbn.
      rewrite Hk. by rewrite <- app_assoc.
Qed.

Lemma loop_aborts prefix entries : ∀ acc e,
  configToEnv_loop toUpperCase keyRule prefix acc entries = Throw e →
  ∃ entry e', entry ∈ entries ∧ convert entry.1 prefix = Throw e'
              ∧ instanceof_KeyValidationError e' = false ∧ e = unexpected e'.
Proof.
  induction entries as [|[k v] entries IH]; intros acc e; [discriminate|].
  cbn [configToEnv_loop]. unfold configToEnv_step.
  destruct (convert k prefix) as [envKey|e'] eqn:Hk; cbn.
  - intros H. destruct (IH _ _ H) as (entry & e0 & ? & ? & ? & ?).
    exists entry, e0. split; [by right|done].
  - destruct e'; cbn.
    + intros H. destruct (IH _ _ H) as (entry & e0 & ? & ? & ? & ?).
      exists entry, e0. split; [by right|done].
    + intros [= <-]. exists (k, v). eexists. split; [by left|]. split; [exact Hk|done].
    + intros [= <-]. exists (k, v). eexists. split; [by left|]. split; [exact Hk|done].
Qed.

Lemma loop_fatal prefix entries : ∀ acc entry e,
  entry ∈ entries → convert entry.1 prefix = Throw e →
  instanceof_KeyValidationError e = false →
  ∃ e', configToEnv_loop toUpperCase keyRule prefix acc entries = Throw (unexpected e')
        ∧ instanceof_KeyValidationError e' = false.
Proof.
  induction entries as [|[k v] entries IH]; intros acc entry e Hin Hk Hkind.
  - by apply elem_of_nil in Hin.
  - cbn [configToEnv_loop]. unfold configToEnv_step.
    destruct (convert k prefix) as [envKey|e'] eqn:Hk'; cbn.
    + apply elem_of_cons in Hin as [->|Hin]; [cbn in Hk; congruence|].
      eapply IH; eauto.
    + destruct e'; cbn; try (eexists; split; [reflexivity|done]).
      apply elem_of_cons in Hin as [->|Hin].
      * cbn in Hk. rewrite Hk' in Hk. injection Hk as <-. discriminate.
      * eapply IH; eauto.
Qed.

(** X28: a validation failure that leaves [convertKey] on a leaf is recorded
    in the errors list, with the attempted key (the prefixed one) and the
    message, and is not thrown; an exception of any other kind that leaves
    [convertKey], on any leaf, aborts the whole call with the "unexpected"
    error, and nothing else makes [configToEnv] throw.  What [convertKey]
    catches and drops itself never reaches [configToEnv]. *)
Theorem configToEnv_collects_validation_failures configs prefix :
  ((∀ entry e, entry ∈ flatten configs → convert entry.1 prefix = Throw e →
               instanceof_KeyValidationError e = true) →
   ∃ r, toEnv configs prefix = Ok r
        ∧ success r = omap (success_entry toUpperCase keyRule prefix) (flatten configs)
        ∧ errors r = omap (error_entry toUpperCase keyRule prefix) (flatten configs)
        ∧ ∀ entry key message,
            entry ∈ flatten configs →
            convert entry.1 prefix = Throw (KeyValidationError key message) →
            mkEnvMap entry.1 key entry.2 (Some message) ∈ errors r
            ∧ key = prefix +:+ base entry.1
            ∧ keyRule key = KeyRejected message)
  ∧ (∀ entry e, entry ∈ flatten configs → convert entry.1 prefix = Throw e →
                instanceof_KeyValidationError e = false →
                ∃ e', toEnv configs prefix = Throw (unexpected e')
                      ∧ instanceof_KeyValidationError e' = false)
  ∧ (∀ e, toEnv configs prefix = Throw e →
          ∃ entry e', entry ∈ flatten configs ∧ convert entry.1 prefix = Throw e'
                      ∧ instanceof_KeyValidationError e' = false ∧ e = unexpected e').
Proof.
  unfold configToEnv. split; [|split].
  - intros Hall. eexists. split; [by apply loop_collects|]. cbn.
    split; [done|]. split; [done|].
    intros entry key message Hin Hk. split.
    + apply list_elem_of_omap. exists entry. split; [done|].
      unfold error_entry. by rewrite Hk.
    + rewrite convertKey_cases in Hk.
      destruct (keyRule (base entry.1)); try discriminate.
      destruct (keyRule (prefix +:+ base entry.1)) eqn:Hr; try discriminate.
      injection Hk as <- <-. by rewrite Hr.
  - intros entry e Hin Hk Hkind. eapply loop_fatal; eauto.
  - intros e H. by apply loop_aborts in H.
Qed.

End ConfigExportFacts.

(** ** [addResourcesToBackend] on values *)

Lemma copyIfPresent_None {A} (src : option A) : copyIfPresent None src = src.
Proof. destruct src; reflexivity. Qed.

Lemma truthy_string_decide v : truthy_string v = if decide (v = "") then false else true.
Proof.
  unfold truthy_string. destruct (decide (v = "")) as [->|Hne]; [reflexivity|].
  apply negb_true_iff, String.eqb_neq, Hne.
Qed.

Lemma derived_allowInsecure_eq a h :
  match HttpsTriggerAnnotation.allowInsecure h with
  | Some v => truthy_boolean v
  | None =>
      negb (present (TriggerAnnotation.platform a))
      || from_option (Platform_eqb gcfv1) false (TriggerAnnotation.platform a)
  end = derived_allowInsecure a h.
Proof.
  unfold derived_allowInsecure.
  destruct (HttpsTriggerAnnotation.allowInsecure h) as [[b|]|]; try reflexivity.
  destruct (TriggerAnnotation.platform a) as [[]|]; reflexivity.
Qed.

Lemma one_trigger_kind_dec a : {one_trigger_kind a} + {¬ one_trigger_kind a}.
Proof. unfold one_trigger_kind. apply bool_dec. Qed.

Section BuilderFacts.

Variable functionsDefaultRegion : string.
Variable scheduleIdForFunction : TargetIds.t -> string.
Variable SCHEDULED_FUNCTION_LABEL : gmap string string.
Variables projectId runtime : string.

Local Abbreviation body :=
  (addResourcesToBackend_region scheduleIdForFunction SCHEDULED_FUNCTION_LABEL
     projectId runtime).
Local Abbreviation build :=
  (addResourcesToBackend functionsDefaultRegion scheduleIdForFunction
     SCHEDULED_FUNCTION_LABEL projectId runtime).
Local Abbreviation function_for' :=
  (function_for scheduleIdForFunction projectId).
Local Abbreviation schedule_for' :=
  (schedule_for scheduleIdForFunction projectId).
Local Abbreviation topic_for' :=
  (topic_for scheduleIdForFunction SCHEDULED_FUNCTION_LABEL projectId).
Local Abbreviation region_added' :=
  (region_added scheduleIdForFunction SCHEDULED_FUNCTION_LABEL projectId).
Local Abbreviation regions_added' :=
  (regions_added scheduleIdForFunction SCHEDULED_FUNCTION_LABEL projectId).
Local Abbreviation regions_of := (regions_or_default functionsDefaultRegion).

Lemma region_rejected a r want :
  ¬ one_trigger_kind a →
  body a r want = (Throw unexpected_annotation, want).
Proof.
  unfold one_trigger_kind. intros Hn.
  unfold addResourcesToBackend_region, mbind.
  destruct (TriggerAnnotation.httpsTrigger a), (TriggerAnnotation.eventTrigger a);
    simpl in *; try reflexivity; exfalso; apply Hn; reflexivity.
Qed.

Lemma region_accepted a r want :
  one_trigger_kind a →
  ∃ want', body a r want = (Ok tt, want') ∧ region_added' a r want want'.
Proof.
  unfold one_trigger_kind. intros Hc.
  unfold addResourcesToBackend_region, mbind.
  destruct (TriggerAnnotation.httpsTrigger a) as [h|] eqn:Hh,
           (TriggerAnnotation.eventTrigger a) as [ev|] eqn:He;
    simpl in Hc; try congruence.
  all: destruct (TriggerAnnotation.schedule a) as [s|] eqn:Hs.
  all: destruct (TriggerAnnotation.vpcConnector a) as [v|] eqn:Hv;
    [rewrite (truthy_string_decide v); destruct (decide (v = "")) as [Hv0|Hv0];
     [|destruct (Js.includes "/" v) eqn:Hi] |].
  all: cbn -[insert singletonM String.append].
  all: eexists; split; [reflexivity|].
  all: split; cbn -[insert singletonM String.append]; rewrite ?Hs; eauto.
  all: try (eexists; split; [reflexivity|]).
  all: try (split; cbn -[insert singletonM String.append];
            rewrite ?Hh, ?He, ?Hs, ?Hv, ?copyIfPresent_None;
            try reflexivity; try discriminate).
  all: try (intros ? [= <-];
            rewrite ?derived_allowInsecure_eq, ?lookup_singleton_eq, ?insert_singleton_eq;
            reflexivity).
  all: destruct (decide (v = "")); try congruence; rewrite ?Hi; reflexivity.
Qed.

Lemma loop_accepted a rs want :
  one_trigger_kind a →
  ∃ want', for_of rs (body a) want = (Ok tt, want') ∧ regions_added' a rs want want'.
Proof.
  intros Hc. revert want.
  induction rs as [|r rs IH]; intros want.
  - exists want. split; [reflexivity | constructor].
  - destruct (region_accepted a r want Hc) as (want1 & Hrun & Hadd).
    destruct (IH want1) as (want2 & Hrest & Hadds).
    exists want2. split; [|econstructor; eassumption].
    cbn. unfold mbind. rewrite Hrun. exact Hrest.
Qed.

Lemma loop_rejected a rs want :
  ¬ one_trigger_kind a →
  for_of rs (body a) want =
    match rs with
    | [] => (Ok tt, want)
    | _ :: _ => (Throw unexpected_annotation, want)
    end.
Proof.
  intros Hn. destruct rs as [|r rs]; [reflexivity|].
  cbn. unfold mbind. rewrite (region_rejected a r want Hn). reflexivity.
Qed.

Lemma regions_added_functions a rs want want' :
  regions_added' a rs want want' →
  ∃ fs, Backend.cloudFunctions want' = Backend.cloudFunctions want ++ fs
        ∧ Forall2 (function_for' a) rs fs.
Proof.
  induction 1 as [want | r rs want want1 want2 H1 _ (fs & Hfs & Hall)].
  - exists []. split; [by rewrite app_nil_r | constructor].
  - destruct H1 as [(f & Hf & Hfor) _ _ _ _].
    exists (f :: fs). split; [|by constructor].
    rewrite Hfs, Hf, <- app_assoc. reflexivity.
Qed.

Lemma regions_added_schedules a s rs want want' :
  TriggerAnnotation.schedule a = Some s →
  regions_added' a rs want want' →
  ∃ scs, Backend.schedules want' = Backend.schedules want ++ scs
         ∧ Forall2 (schedule_for' a s) rs scs.
Proof.
  intros Hs.
  induction 1 as [want | r rs want want1 want2 H1 _ (scs & Hscs & Hall)].
  - exists []. split; [by rewrite app_nil_r | constructor].
  - destruct H1 as [_ H _ _ _]. rewrite Hs in H.
    destruct H as (sc & Hsc & Hfor).
    exists (sc :: scs). split; [|by constructor].
    rewrite Hscs, Hsc, <- app_assoc. reflexivity.
Qed.

Lemma regions_added_topics a s rs want want' :
  TriggerAnnotation.schedule a = Some s →
  regions_added' a rs want want' →
  ∃ tps, Backend.topics want' = Backend.topics want ++ tps
         ∧ Forall2 (topic_for' a) rs tps.
Proof.
  intros Hs.
  induction 1 as [want | r rs want want1 want2 H1 _ (tps & Htps & Hall)].
  - exists []. split; [by rewrite app_nil_r | constructor].
  - destruct H1 as [_ _ H _ _]. rewrite Hs in H.
    destruct H as (tp & Htp & Hfor).
    exists (tp :: tps). split; [|by constructor].
    rewrite Htps, Htp, <- app_assoc. reflexivity.
Qed.

Lemma regions_added_apis a s rs want want' :
  TriggerAnnotation.schedule a = Some s →
  regions_added' a rs want want' →
  rs ≠ [] →
  Backend.requiredAPIs want' !! "pubsub" = Some "pubsub.googleapis.com"
  ∧ Backend.requiredAPIs want' !! "scheduler" = Some "cloudscheduler.googleapis.com"
  ∧ ∀ k, k ≠ "pubsub" → k ≠ "scheduler" →
         Backend.requiredAPIs want' !! k = Backend.requiredAPIs want !! k.
Proof.
  intros Hs.
  induction 1 as [want | r rs want want1 want2 H1 Hrest IH]; [done|].
  intros _.
  destruct H1 as [_ _ _ H _]. rewrite Hs in H.
  destruct rs as [|r' rs].
  - inversion Hrest; subst. rewrite H.
    repeat split; [by simplify_map_eq..|].
    intros k ? ?. by simplify_map_eq.
  - destruct IH as (Hp & Hsch & Hother); [done|].
    repeat split; [done..|].
    intros k ? ?. rewrite Hother, H by done. by simplify_map_eq.
Qed.


Lemma build_unfold a want :
  build a want = for_of (regions_of a) (body a) want.
Proof.
  unfold addResourcesToBackend, regions_or_default.
  destruct (TriggerAnnotation.regions a); reflexivity.
Qed.

Lemma build_accepted a want :
  one_trigger_kind a →
  ∃ want', build a want = (Ok tt, want') ∧ regions_added' a (regions_of a) want want'.
Proof. intros Hc. rewrite build_unfold. by apply loop_accepted. Qed.

(** C1, as amended: for an annotation with exactly one trigger kind,
    [addResourcesToBackend] returns normally and appends one function per
    region the loop runs over, in order, all with the id [annotation.name]
    and the project.  With a regions list these are the listed regions: as
    many functions as the list has entries (none for an empty list), their
    regions pairwise distinct when the listed regions are.  With no regions
    field it is one function, in the default region. *)
Theorem addResources_one_function_per_region a want :
  one_trigger_kind a →
  ∃ want' fs,
    build a want = (Ok tt, want')
    ∧ Backend.cloudFunctions want' = Backend.cloudFunctions want ++ fs
    ∧ Forall (λ f, FunctionSpec.id f = TriggerAnnotation.name a
                   ∧ FunctionSpec.project f = projectId) fs
    ∧ (∀ rs, TriggerAnnotation.regions a = Some rs →
         length fs = length rs
         ∧ map FunctionSpec.region fs = rs
         ∧ (NoDup rs → NoDup (map FunctionSpec.region fs)))
    ∧ (TriggerAnnotation.regions a = None →
         ∃ f, fs = [f] ∧ FunctionSpec.region f = functionsDefaultRegion).
Proof.
  intros Hc.
  destruct (build_accepted a want Hc) as (want' & Hrun & Hadd).
  destruct (regions_added_functions _ _ _ _ Hadd) as (fs & Hfs & Hall).
  exists want', fs. split; [done|]. split; [done|].
  assert (Hreg : map FunctionSpec.region fs = regions_of a).
  { clear -Hall. induction Hall as [|r f rs fs Hf _ IH]; [done|].
    destruct Hf as [_ Hregion _ _ _ _ _ _]. cbn. by rewrite IH, Hregion. }
  split.
  { clear -Hall. induction Hall as [|r f rs fs Hf _ IH]; constructor; [|done].
    by destruct Hf as [? _ ? _ _ _ _ _]. }
  unfold regions_or_default in Hreg. split.
  - intros rs Hrs. rewrite Hrs in Hreg. cbn in Hreg.
    split; [by rewrite <- Hreg, length_map|]. split; [done|]. by rewrite Hreg.
  - intros Hnone. rewrite Hnone in Hreg. cbn in Hreg.
    destruct fs as [|f [|f' fs]]; try discriminate.
    exists f. split; [done|]. by injection Hreg.
Qed.

(** X27: on an annotation with both or neither of [httpsTrigger] and
    [eventTrigger], a call of [addResourcesToBackend] that enters the loop
    over the regions (the regions field absent, or a list with an element)
    throws the structural-consistency error in the first turn, the
    aggregate left as it was. *)
Theorem addResources_rejects_trigger_mismatch a want :
  ¬ one_trigger_kind a →
  TriggerAnnotation.regions a ≠ Some [] →
  build a want = (Throw unexpected_annotation, want).
Proof.
  intros Hn Hne. rewrite build_unfold, (loop_rejected _ _ _ Hn).
  unfold regions_or_default.
  destruct (TriggerAnnotation.regions a) as [[|r rs]|]; cbn; congruence.
Qed.

(** C10: whenever [addResourcesToBackend] throws, the error is the
    structural-consistency error and the aggregate is as it was before the
    call: no function, schedule or topic appended, [requiredAPIs] as before. *)
Theorem addResources_throw_leaves_aggregate a want e want' :
  build a want = (Throw e, want') →
  e = unexpected_annotation ∧ want' = want.
Proof.
  intros Hrun.
  destruct (one_trigger_kind_dec a) as [Hc|Hn].
  - destruct (build_accepted a want Hc) as (w & Hok & _). congruence.
  - rewrite build_unfold, (loop_rejected _ _ _ Hn) in Hrun.
    destruct (regions_of a); by inversion Hrun.
Qed.

(** Whatever the annotation, the functions a call appends are functions of
    the annotation, each for the region it names. *)
Lemma build_functions a want :
  ∃ fs, Backend.cloudFunctions (build a want).2 = Backend.cloudFunctions want ++ fs
        ∧ Forall (λ f, function_for' a (FunctionSpec.region f) f) fs
        ∧ (one_trigger_kind a →
             (build a want).1 = Ok tt ∧ map FunctionSpec.region fs = regions_of a).
Proof.
  destruct (one_trigger_kind_dec a) as [Hc|Hn].
  - destruct (build_accepted a want Hc) as (want' & Hrun & Hadd).
    destruct (regions_added_functions _ _ _ _ Hadd) as (fs & Hfs & Hall).
    exists fs. rewrite Hrun. cbn. split; [done|]. split.
    + clear -Hall. induction Hall as [|r f rs fs Hf _ IH]; constructor; [|done].
      by destruct Hf as [? <- ? ? ? ? ? ?].
    + intros _. split; [done|].
      clear -Hall. induction Hall as [|r f rs fs Hf _ IH]; [done|].
      destruct Hf as [_ Hregion _ _ _ _ _ _]. cbn. by rewrite IH, Hregion.
  - exists []. rewrite build_unfold, (loop_rejected _ _ _ Hn).
    split; [|split; [constructor|done]].
    rewrite app_nil_r. by destruct (regions_of a).
Qed.

(** C5: for an annotation with an HTTPS trigger, every function a call
    appends has an HTTPS trigger whose [allowInsecure] is the explicit value
    as a boolean when the field is present ([false] for a field that is
    present and undefined) and, when it is absent, is true
    exactly when the platform is absent or [gcfv1], and false for [gcfv2];
    with no event trigger beside it the call returns normally and appends
    one such function per region. *)
Theorem addResources_https_allowInsecure a h want :
  TriggerAnnotation.httpsTrigger a = Some h →
  ∃ fs,
    Backend.cloudFunctions (build a want).2 = Backend.cloudFunctions want ++ fs
    ∧ Forall (λ f, ∃ b,
        FunctionSpec.trigger f = HttpsTrigger b
        ∧ (∀ x, HttpsTriggerAnnotation.allowInsecure h = Some (Some x) → b = x)
        ∧ (HttpsTriggerAnnotation.allowInsecure h = Some None → b = false)
        ∧ (HttpsTriggerAnnotation.allowInsecure h = None →
             (b = true ↔ TriggerAnnotation.platform a = None
                         ∨ TriggerAnnotation.platform a = Some gcfv1)
             ∧ (TriggerAnnotation.platform a = Some gcfv2 → b = false))) fs
    ∧ (TriggerAnnotation.eventTrigger a = None →
         (build a want).1 = Ok tt ∧ length fs = length (regions_of a)).
Proof.
  intros Hh.
  destruct (build_functions a want) as (fs & Hfs & Hall & Hok).
  exists fs. split; [done|]. split.
  - eapply Forall_impl; [exact Hall|]. intros f Hf.
    destruct Hf as [_ _ _ _ Hhttps _ _ _].
    exists (derived_allowInsecure a h). split; [apply Hhttps, Hh|].
    unfold derived_allowInsecure. split; [|split].
    + intros x Hx. by rewrite Hx.
    + intros Hundef. by rewrite Hundef.
    + intros Hnone. rewrite Hnone.
      destruct (TriggerAnnotation.platform a) as [[]|]; intuition congruence.
  - intros He. destruct Hok as [Hrun Hreg].
    { unfold one_trigger_kind. by rewrite Hh, He. }
    split; [done|]. by rewrite <- Hreg, length_map.
Qed.

(** C8, as amended: for an annotation with a non-empty [vpcConnector], every
    function a call appends, one per region processed, has as its
    [vpcConnector] the string
    [projects/{projectId}/locations/{region}/connectors/] followed by the
    value when the value contains no [/], and the value itself when it
    contains one. *)
Theorem addResources_vpcConnector a v want :
  TriggerAnnotation.vpcConnector a = Some v →
  v ≠ "" →
  ∃ fs,
    Backend.cloudFunctions (build a want).2 = Backend.cloudFunctions want ++ fs
    ∧ Forall (λ f,
        (Js.includes "/" v = false →
           FunctionSpec.vpcConnector f =
             Some ("projects/" +:+ projectId +:+ "/locations/" +:+ FunctionSpec.region f
                   +:+ "/connectors/" +:+ v))
        ∧ (Js.includes "/" v = true → FunctionSpec.vpcConnector f = Some v)) fs
    ∧ (one_trigger_kind a →
         (build a want).1 = Ok tt ∧ map FunctionSpec.region fs = regions_of a).
Proof.
  intros Hv Hne.
  destruct (build_functions a want) as (fs & Hfs & Hall & Hok).
  exists fs. split; [done|]. split; [|done].
  eapply Forall_impl; [exact Hall|]. intros f Hf.
  destruct Hf as [_ _ _ _ _ _ H _]. rewrite Hv in H.
  destruct (decide (v = "")); [done|].
  split; intros Hi; rewrite Hi in H; exact H.
Qed.

(** C3: for an annotation with a schedule and for each region processed,
    the schedule and the topic appended carry the id
    [scheduleIdForFunction] gives for the function's (id, region, project);
    [pubsub] and [scheduler] are in [requiredAPIs] afterwards; the function
    has the label [deployment-scheduled = "true"] on top of the labels of
    the annotation; an event trigger has its [eventFilters.resource]
    rewritten to the annotation's resource followed by [/] and that id; an
    HTTPS trigger is left as it is, and nothing is thrown. *)
Theorem addResources_scheduled a s want :
  TriggerAnnotation.schedule a = Some s →
  one_trigger_kind a →
  let rs := regions_of a in
  let sid r := scheduleIdForFunction (TargetIds.mk (TriggerAnnotation.name a) r projectId) in
  ∃ want' fs scs tps,
    build a want = (Ok tt, want')
    ∧ Backend.cloudFunctions want' = Backend.cloudFunctions want ++ fs
    ∧ Backend.schedules want' = Backend.schedules want ++ scs
    ∧ Backend.topics want' = Backend.topics want ++ tps
    ∧ Forall2 (λ r sc, ScheduleSpec.id sc = sid r) rs scs
    ∧ Forall2 (λ r tp, PubSubSpec.id tp = sid r) rs tps
    ∧ (rs ≠ [] →
         Backend.requiredAPIs want' !! "pubsub" = Some "pubsub.googleapis.com"
         ∧ Backend.requiredAPIs want' !! "scheduler" = Some "cloudscheduler.googleapis.com")
    ∧ Forall2 (λ r f,
        (∃ m, FunctionSpec.labels f = Some m
              ∧ m !! "deployment-scheduled" = Some "true"
              ∧ ∀ k, k ≠ "deployment-scheduled" →
                     m !! k = default ∅ (TriggerAnnotation.labels a) !! k)
        ∧ (∀ ev, TriggerAnnotation.eventTrigger a = Some ev →
             ∃ filters,
               FunctionSpec.trigger f =
                 EventTrigger (EventTriggerAnnotation.eventType ev) filters
                              (present (TriggerAnnotation.failurePolicy a))
               ∧ filters !! "resource" =
                   Some (EventTriggerAnnotation.resource ev +:+ "/" +:+ sid r))
        ∧ (∀ h, TriggerAnnotation.httpsTrigger a = Some h →
             FunctionSpec.trigger f = HttpsTrigger (derived_allowInsecure a h)))
        rs fs.
Proof.
  intros Hs Hc rs sid.
  destruct (build_accepted a want Hc) as (want' & Hrun & Hadd).
  destruct (regions_added_functions _ _ _ _ Hadd) as (fs & Hfs & Hfall).
  destruct (regions_added_schedules _ _ _ _ _ Hs Hadd) as (scs & Hscs & Hsall).
  destruct (regions_added_topics _ _ _ _ _ Hs Hadd) as (tps & Htps & Htall).
  exists want', fs, scs, tps. do 4 (split; [done|]).
  split; [eapply Forall2_impl; [exact Hsall|]; intros r sc H; by destruct H|].
  split; [eapply Forall2_impl; [exact Htall|]; intros r tp H; by destruct H|].
  split.
  { intros Hne. destruct (regions_added_apis _ _ _ _ _ Hs Hadd Hne) as (? & ? & _). done. }
  eapply Forall2_impl; [exact Hfall|]. intros r f Hf.
  destruct Hf as [_ _ _ _ Hhttps Hevent _ Hlabels]. split; [|split].
  - rewrite Hs in Hlabels.
    eexists. split; [exact Hlabels|]. split; [apply lookup_insert_eq|].
    intros k Hk. by apply lookup_insert_ne.
  - intros ev He. specialize (Hevent ev He). rewrite Hs in Hevent.
    eexists. split; [exact Hevent|]. apply lookup_singleton_eq.
  - intros h Hh. apply Hhttps, Hh.
Qed.

End BuilderFacts.

(** ** [addResourcesToBackend] on objects: what a call may write to *)

Module HeapFacts.
Import Heap.

Lemma get_Ok {A} (sel : object → option A) l σ a :
  (get sel l σ).1 = Ok a → (get sel l σ).2 = σ ∧ ∃ o, σ !! l = Some o ∧ sel o = Some a.
Proof.
  unfold get. destruct (σ !! l) as [o|] eqn:Hl; cbn; [|done].
  destruct (sel o) eqn:Hs; cbn; [|done]. intros [= <-]. eauto.
Qed.

Lemma get_state {A} (sel : object → option A) l σ : (get sel l σ).2 = σ.
Proof. unfold get. by destruct ((σ !! l) ≫= sel). Qed.

Section Frame.

Variable σ0 : store.
Variable want : loc.

Local Abbreviation good' := (good σ0 want).
Local Abbreviation hoare' := (hoare σ0 want).
Local Abbreviation kept' := (kept σ0 want).
Local Abbreviation fresh_ok' := (fresh_ok σ0).
Local Abbreviation n0 := (length σ0).

Lemma good_start : good' σ0.
Proof.
  split; [done| |].
  - intros l o0 Hl. unfold kept. destruct o0; eauto.
  - intros l o Hl Ho. apply lookup_lt_Some in Ho. lia.
Qed.

Lemma hoare_ret {A} (a : A) (Q : A → Prop) : Q a → hoare' (mret a) Q.
Proof. intros HQ σ Hg. split; [done|]. by intros ? [= <-]. Qed.

Lemma hoare_throw {A} e (Q : A → Prop) : hoare' (throw e) Q.
Proof. intros σ Hg. split; [done|]. intros ? [=]. Qed.

Lemma hoare_bind {A B} (c : H A) (k : A → H B) (P : A → Prop) (Q : B → Prop) :
  hoare' c P → (∀ a, P a → hoare' (k a) Q) → hoare' (mbind c k) Q.
Proof.
  intros Hc Hk σ Hg. unfold mbind.
  destruct (Hc σ Hg) as [Hg1 HP].
  destruct (c σ) as [[a|e] σ1]; cbn in *; [|split; [done|intros ? [=]]].
  apply Hk; [by apply HP | done].
Qed.

Lemma hoare_bind_any {A B} (c : H A) (k : A → H B) (Q : B → Prop) :
  hoare' c (λ _, True) → (∀ a, hoare' (k a) Q) → hoare' (mbind c k) Q.
Proof. intros Hc Hk. eapply hoare_bind; [exact Hc|]. intros a _. apply Hk. Qed.

Lemma hoare_weaken {A} (c : H A) (P Q : A → Prop) :
  hoare' c P → (∀ a, P a → Q a) → hoare' c Q.
Proof. intros Hc HPQ σ Hg. destruct (Hc σ Hg). split; eauto. Qed.

Lemma hoare_for_of {R} (l : list R) (body : R → H unit) :
  (∀ x, hoare' (body x) (λ _, True)) → hoare' (for_of l body) (λ _, True).
Proof.
  intros Hb. induction l as [|x l IH]; cbn.
  - by apply hoare_ret.
  - eapply hoare_bind; [apply Hb|]. intros _ _. exact IH.
Qed.

Lemma old_in_range l (o0 : object) : σ0 !! l = Some o0 → l < n0.
Proof. apply lookup_lt_Some. Qed.

Lemma kept_lookup l o0 (σ σ' : store) : σ' !! l = σ !! l → kept' l o0 σ → kept' l o0 σ'.
Proof. unfold kept. intros ->. done. Qed.

(** Allocation touches no cell there was, and gives a new location. *)
Lemma hoare_alloc o : fresh_ok' o → hoare' (alloc o) (λ l, n0 ≤ l).
Proof.
  intros Ho σ [Hlen Hold Hnew]. unfold alloc. cbn. split.
  - split.
    + rewrite length_app. lia.
    + intros l o0 Hl. eapply kept_lookup; [|by apply Hold].
      apply lookup_app_l. apply old_in_range in Hl. lia.
    + intros l o' Hl Hlook.
      destruct (decide (l < length σ)) as [Hlt|Hge].
      * rewrite lookup_app_l in Hlook by done. eauto.
      * rewrite lookup_app_r in Hlook by lia.
        destruct (l - length σ) as [|n] eqn:Hd; cbn in Hlook; [|done].
        by injection Hlook as <-.
  - by intros ? [= <-].
Qed.

Lemma hoare_get {A} (sel : object → option A) l :
  hoare' (get sel l) (λ _, True).
Proof. intros σ Hg. rewrite get_state. done. Qed.

Lemma hoare_get_with {A} (sel : object → option A) l (Q : A → Prop) :
  (∀ σ o a, good' σ → σ !! l = Some o → sel o = Some a → Q a) →
  hoare' (get sel l) Q.
Proof.
  intros HQ σ Hg. split; [by apply hoare_get|].
  intros a Ha. apply get_Ok in Ha as (_ & o & Ho & Hs). eauto.
Qed.

(** The aggregate object is the one there was at the start. *)
Lemma hoare_get_backend : hoare' (get as_backend want) (λ w, backend0 σ0 want = Some w).
Proof.
  apply hoare_get_with. intros σ o w [Hlen Hold Hnew] Ho Hs.
  destruct o; try discriminate. injection Hs as ->.
  unfold backend0. destruct (σ0 !! want) as [o0|] eqn:H0.
  - specialize (Hold _ _ H0). unfold kept in Hold.
    destruct o0; try (rewrite Ho in Hold; by simplify_eq);
      destruct Hold as [[? Hx] _]; congruence.
  - apply lookup_ge_None in H0. by apply (Hnew _ _ H0) in Ho.
Qed.

(** A function allocated since the start has a trigger allocated since. *)
Lemma hoare_get_function l :
  n0 ≤ l → hoare' (get as_function l) (λ f, n0 ≤ FunctionSpec.trigger f).
Proof.
  intros Hl. apply hoare_get_with. intros σ o f [_ _ Hnew] Ho Hs.
  destruct o; try discriminate. injection Hs as ->. by apply (Hnew _ _ Hl) in Ho.
Qed.

Lemma hoare_get_trigger l :
  n0 ≤ l →
  hoare' (get as_trigger l)
         (λ tr, match tr with
                | EventTrigger _ eventFilters _ => n0 ≤ eventFilters
                | HttpsTrigger _ => True
                end).
Proof.
  intros Hl. apply hoare_get_with. intros σ o tr [_ _ Hnew] Ho Hs.
  destruct o; try discriminate. injection Hs as ->.
  apply (Hnew _ _ Hl) in Ho. by destruct tr.
Qed.

(** Overwriting a cell with an object of the kind it holds: a cell
    allocated since the start, the [requiredAPIs] dictionary or one of the
    arrays of the aggregate. *)
Lemma good_put (σ : store) l o o' :
  good' σ → σ !! l = Some o →
  (n0 ≤ l ∧ fresh_ok' o'
   ∨ (∃ m m', o = ODict m ∧ o' = ODict m' ∧ is_requiredAPIs σ0 want l)
   ∨ (∃ x x', o = ORefs x ∧ o' = ORefs x' ∧ is_array σ0 want l)) →
  good' (<[l := o']> σ).
Proof.
  intros [Hlen Hold Hnew] Hl Hcase.
  assert (Hin : l < length σ) by by eapply lookup_lt_Some.
  split.
  - by rewrite length_insert.
  - intros l0 o0 H0. specialize (Hold _ _ H0).
    destruct (decide (l0 = l)) as [->|Hne];
      [|eapply kept_lookup; [by apply list_lookup_insert_ne|done]].
    apply old_in_range in H0.
    destruct Hcase as [[? _]|[(m & m' & -> & -> & Hreq)|(x & x' & -> & -> & Harr)]]; [lia| |].
    + unfold kept in *. rewrite list_lookup_insert_eq by done.
      destruct o0; try congruence; destruct Hold as [[? ?] _]; try congruence.
      split; [eauto|done].
    + unfold kept in *. rewrite list_lookup_insert_eq by done.
      destruct o0; try congruence; destruct Hold as [[? ?] _]; try congruence.
      split; [eauto|done].
  - intros l1 o1 Hl1 Ho1.
    destruct (decide (l1 = l)) as [->|Hne].
    + rewrite list_lookup_insert_eq in Ho1 by done. injection Ho1 as <-.
      destruct Hcase as [[_ ?]|[(m & m' & -> & -> & _)|(x & x' & -> & -> & _)]]; done.
    + rewrite list_lookup_insert_ne in Ho1 by done. eauto.
Qed.

Lemma hoare_dict_set l k v :
  n0 ≤ l ∨ is_requiredAPIs σ0 want l → hoare' (dict_set l k v) (λ _, True).
Proof.
  intros Hl σ Hg. unfold dict_set, mbind.
  destruct (get as_dict l σ) as [[m|e] σ1] eqn:Hget; cbn; [|].
  - pose proof (get_Ok as_dict l σ m) as H. rewrite Hget in H. cbn in H.
    destruct H as (-> & o & Ho & Hs); [done|]. destruct o; try discriminate.
    injection Hs as ->. split; [|done].
    eapply good_put; [done|exact Ho|]. destruct Hl; [left|right; left]; [done|eauto].
  - pose proof (hoare_get as_dict l σ Hg) as [H _]. rewrite Hget in H. done.
Qed.

Lemma hoare_push l x :
  n0 ≤ l ∨ is_array σ0 want l → hoare' (push l x) (λ _, True).
Proof.
  intros Hl σ Hg. unfold push, mbind.
  destruct (get as_refs l σ) as [[xs|e] σ1] eqn:Hget; cbn; [|].
  - pose proof (get_Ok as_refs l σ xs) as H. rewrite Hget in H. cbn in H.
    destruct H as (-> & o & Ho & Hs); [done|]. destruct o; try discriminate.
    injection Hs as ->. split; [|done].
    eapply good_put; [done|exact Ho|]. destruct Hl; [left|right; right]; [done|eauto].
  - pose proof (hoare_get as_refs l σ Hg) as [H _]. rewrite Hget in H. done.
Qed.

Lemma hoare_update_function l g :
  n0 ≤ l → (∀ f, FunctionSpec.trigger (g f) = FunctionSpec.trigger f) →
  hoare' (update_function l g) (λ _, True).
Proof.
  intros Hl Hgf σ Hg. unfold update_function, mbind.
  destruct (get as_function l σ) as [[f|e] σ1] eqn:Hget; cbn; [|].
  - pose proof (get_Ok as_function l σ f) as H. rewrite Hget in H. cbn in H.
    destruct H as (-> & o & Ho & Hs); [done|]. destruct o; try discriminate.
    injection Hs as ->. split; [|done].
    eapply good_put; [done|exact Ho|]. left. split; [done|].
    cbn. rewrite Hgf. destruct Hg as [_ _ Hnew]. by apply (Hnew _ _ Hl) in Ho.
  - pose proof (hoare_get as_function l σ Hg) as [H _]. rewrite Hget in H. done.
Qed.

Lemma hoare_update_schedule l g :
  n0 ≤ l → hoare' (update_schedule l g) (λ _, True).
Proof.
  intros Hl σ Hg. unfold update_schedule, mbind.
  destruct (get as_schedule l σ) as [[s|e] σ1] eqn:Hget; cbn; [|].
  - pose proof (get_Ok as_schedule l σ s) as H. rewrite Hget in H. cbn in H.
    destruct H as (-> & o & Ho & Hs); [done|]. destruct o; try discriminate.
    injection Hs as ->. split; [|done].
    eapply good_put; [done|exact Ho|]. left. done.
  - pose proof (hoare_get as_schedule l σ Hg) as [H _]. rewrite Hget in H. done.
Qed.

Variable functionsDefaultRegion : string.
Variable scheduleIdForFunction : TargetIds.t → string.
Variable SCHEDULED_FUNCTION_LABEL : loc.
Variables projectId runtime : string.
Variable annotation : loc.

(** One turn of the loop keeps the invariant. *)
Lemma hoare_region region :
  hoare' (addResourcesToBackend_region scheduleIdForFunction SCHEDULED_FUNCTION_LABEL
            projectId runtime annotation want region) (λ _, True).
Proof.
  unfold addResourcesToBackend_region.
  apply hoare_bind_any; [apply hoare_get|]. intros a.
  apply hoare_bind_any.
  { destruct (Bool.eqb _ _); [apply hoare_throw | by apply hoare_ret]. }
  intros _.
  eapply hoare_bind with (P := λ trigger, n0 ≤ trigger).
  { destruct (TriggerAnnotation.httpsTrigger a) as [httpsTrigger|].
    - apply hoare_bind_any; [apply hoare_get|]. intros https.
      by apply hoare_alloc.
    - destruct (TriggerAnnotation.eventTrigger a) as [eventTrigger|]; [|apply hoare_throw].
      apply hoare_bind_any; [apply hoare_get|]. intros ev.
      eapply hoare_bind; [by apply hoare_alloc|]. intros eventFilters Hef.
      by apply hoare_alloc. }
  intros trigger Htrigger.
  eapply hoare_bind; [by apply hoare_alloc|]. intros cloudFunctionName Hname.
  eapply hoare_bind; [by apply hoare_alloc|]. intros cloudFunction Hfn.
  apply hoare_bind_any.
  { destruct (TriggerAnnotation.vpcConnector a) as [vpc|]; [|by apply hoare_ret].
    destruct (truthy_string vpc); [|by apply hoare_ret].
    by apply hoare_update_function. }
  intros _.
  apply hoare_bind_any; [by apply hoare_update_function|]. intros _.
  apply hoare_bind_any.
  { destruct (TriggerAnnotation.schedule a) as [scheduleAnnotation|]; [|by apply hoare_ret].
    apply hoare_bind_any; [apply hoare_get|]. intros sched.
    eapply hoare_bind; [apply hoare_get_backend|]. intros w Hw.
    assert (Hreq : is_requiredAPIs σ0 want (Backend.requiredAPIs w)) by (exists w; done).
    assert (Hsch : is_array σ0 want (Backend.schedules w)) by (exists w; auto).
    assert (Htop : is_array σ0 want (Backend.topics w)) by (exists w; auto).
    apply hoare_bind_any; [apply hoare_dict_set; by right|]. intros _.
    apply hoare_bind_any; [apply hoare_dict_set; by right|]. intros _.
    eapply hoare_bind; [by apply hoare_alloc|]. intros schedule Hschedule.
    apply hoare_bind_any; [by apply hoare_update_schedule|]. intros _.
    apply hoare_bind_any; [apply hoare_push; by right|]. intros _.
    eapply hoare_bind; [by apply hoare_alloc|]. intros topic Htopic.
    apply hoare_bind_any; [apply hoare_push; by right|]. intros _.
    eapply hoare_bind; [by apply hoare_get_function|]. intros fn Hfntr.
    eapply hoare_bind; [by apply hoare_get_trigger|]. intros tr Htr.
    apply hoare_bind_any.
    { destruct tr as [|eventType eventFilters retry]; [by apply hoare_ret|].
      apply hoare_bind_any; [apply hoare_get|]. intros filters.
      apply hoare_dict_set. by left. }
    intros _.
    apply hoare_bind_any; [apply hoare_get|]. intros fn'.
    apply hoare_bind_any.
    { destruct (FunctionSpec.labels fn'); [apply hoare_get | by apply hoare_ret]. }
    intros old.
    eapply hoare_bind; [by apply hoare_alloc|]. intros labels Hlabels.
    by apply hoare_update_function. }
  intros _.
  eapply hoare_bind; [apply hoare_get_backend|]. intros w Hw.
  apply hoare_push. right. exists w. auto.
Qed.

(** So does what follows the freezing of the annotation. *)
Lemma hoare_after_freeze :
  hoare'
    (do! a := get as_annotation annotation in
     do! regions :=
       match TriggerAnnotation.regions a with
       | Some regions => get as_strings regions
       | None =>
           do! regions := alloc (OStrings [functionsDefaultRegion]) in
           get as_strings regions
       end in
     for_of regions
       (addResourcesToBackend_region scheduleIdForFunction SCHEDULED_FUNCTION_LABEL
          projectId runtime annotation want))
    (λ _, True).
Proof.
  apply hoare_bind_any; [apply hoare_get|]. intros a.
  apply hoare_bind_any.
  { destruct (TriggerAnnotation.regions a); [apply hoare_get|].
    apply hoare_bind_any; [|intros; apply hoare_get].
    eapply hoare_weaken; [apply hoare_alloc; exact I|done]. }
  intros regions. apply hoare_for_of. intros region. apply hoare_region.
Qed.

End Frame.

Section Unchanged.

Variables (σ σ' : store) (annotation want : loc).
Hypothesis Hframe : ∀ l o, σ !! l = Some o → cell_after σ annotation want l o σ'.

Lemma frame_read_only {A} (sel : object → option A) l x :
  read_only sel → (σ !! l) ≫= sel = Some x → (σ' !! l) ≫= sel = Some x.
Proof.
  intros Hsel. destruct (σ !! l) as [o|] eqn:Hl; [|done]. cbn. intros Hx.
  specialize (Hframe _ _ Hl). specialize (Hsel o ltac:(by rewrite Hx)).
  unfold cell_after in Hframe. destruct o; try done; by rewrite Hframe.
Qed.

Lemma frame_annotation l a :
  (σ !! l) ≫= as_annotation = Some a → (σ' !! l) ≫= as_annotation = Some a.
Proof.
  destruct (σ !! l) as [o|] eqn:Hl; [|done]. cbn. intros Hx.
  specialize (Hframe _ _ Hl). destruct o; try done. injection Hx as ->.
  cbn in Hframe. by rewrite Hframe.
Qed.

Lemma frame_dict l m :
  (∀ w, (σ !! want) ≫= as_backend = Some w → l ≠ Backend.requiredAPIs w) →
  (σ !! l) ≫= as_dict = Some m → (σ' !! l) ≫= as_dict = Some m.
Proof.
  intros Hne. destruct (σ !! l) as [o|] eqn:Hl; [|done]. cbn. intros Hx.
  specialize (Hframe _ _ Hl). destruct o; try done. injection Hx as ->.
  cbn in Hframe. by rewrite Hframe.
Qed.

Lemma deref_read_only {A} (sel : object → option A) r x :
  read_only sel → deref sel σ r = Some x → deref sel σ' r = Some x.
Proof.
  intros Hsel. destruct r as [l|]; [|done]. cbn.
  destruct ((σ !! l) ≫= sel) as [y|] eqn:Hy; [|done].
  by rewrite (frame_read_only sel l y).
Qed.

End Unchanged.

Lemma read_only_retryConfig : read_only as_retryConfig.
Proof. intros [] [? ?]; try discriminate; exact I. Qed.
Lemma read_only_httpsAnnotation : read_only as_httpsAnnotation.
Proof. intros [] [? ?]; try discriminate; exact I. Qed.
Lemma read_only_eventAnnotation : read_only as_eventAnnotation.
Proof. intros [] [? ?]; try discriminate; exact I. Qed.
Lemma read_only_failurePolicy : read_only as_failurePolicy.
Proof. intros [] [? ?]; try discriminate; exact I. Qed.
Lemma read_only_scheduleAnnotation : read_only as_scheduleAnnotation.
Proof. intros [] [? ?]; try discriminate; exact I. Qed.
Lemma read_only_strings : read_only as_strings.
Proof. intros [] [? ?]; try discriminate; exact I. Qed.

Lemma snapshot_schedule_frame σ σ' annotation want l s :
  (∀ l o, σ !! l = Some o → cell_after σ annotation want l o σ') →
  snapshot_schedule σ l = Some s → snapshot_schedule σ' l = Some s.
Proof.
  intros Hframe. unfold snapshot_schedule. intros H.
  apply bind_Some in H as (sa & Hsa & H).
  apply bind_Some in H as (rc & Hrc & H).
  rewrite (frame_read_only _ _ _ _ Hframe _ _ _ read_only_scheduleAnnotation Hsa). cbn.
  rewrite (deref_read_only _ _ _ _ Hframe _ _ _ read_only_retryConfig Hrc). cbn.
  exact H.
Qed.

(** The value of the annotation is read back the same from a store that
    kept its cells. *)
Lemma snapshot_frame σ σ' annotation want v :
  (∀ l o, σ !! l = Some o → cell_after σ annotation want l o σ') →
  separate σ annotation want →
  snapshot σ annotation = Some v → snapshot σ' annotation = Some v.
Proof.
  intros Hframe Hsep. unfold snapshot.
  intros H.
  apply bind_Some in H as (a & Ha & H).
  apply bind_Some in H as (labels & Hlabels & H).
  apply bind_Some in H as (https & Hhttps & H).
  apply bind_Some in H as (event & Hevent & H).
  apply bind_Some in H as (fp & Hfp & H).
  apply bind_Some in H as (sched & Hsched & H).
  apply bind_Some in H as (regions & Hregions & H).
  apply bind_Some in H as (invoker & Hinvoker & H).
  rewrite (frame_annotation _ _ _ _ Hframe _ _ Ha). cbn.
  assert (deref as_dict σ' (TriggerAnnotation.labels a) = Some labels) as ->.
  { destruct (TriggerAnnotation.labels a) as [l|] eqn:Hl; [|done]. cbn in *.
    destruct ((σ !! l) ≫= as_dict) as [m|] eqn:Hm; [|done].
    rewrite (frame_dict _ _ _ _ Hframe l m); [done| |done].
    intros w Hw ->. by apply (Hsep a w). }
  cbn.
  rewrite (deref_read_only _ _ _ _ Hframe _ _ _ read_only_httpsAnnotation Hhttps). cbn.
  rewrite (deref_read_only _ _ _ _ Hframe _ _ _ read_only_eventAnnotation Hevent). cbn.
  rewrite (deref_read_only _ _ _ _ Hframe _ _ _ read_only_failurePolicy Hfp). cbn.
  assert (match TriggerAnnotation.schedule a with
          | Some ls => Some <$> snapshot_schedule σ' ls
          | None => Some None
          end = Some sched) as ->.
  { destruct (TriggerAnnotation.schedule a) as [ls|]; [|done].
    apply fmap_Some in Hsched as (sv & Hsv & ->).
    by rewrite (snapshot_schedule_frame _ _ _ _ _ _ Hframe Hsv). }
  cbn.
  rewrite (deref_read_only _ _ _ _ Hframe _ _ _ read_only_strings Hregions). cbn.
  rewrite (deref_read_only _ _ _ _ Hframe _ _ _ read_only_strings Hinvoker). cbn.
  exact H.
Qed.

Section Build.

Variable functionsDefaultRegion : string.
Variable scheduleIdForFunction : TargetIds.t → string.
Variable SCHEDULED_FUNCTION_LABEL : loc.
Variables projectId runtime : string.

Local Abbreviation build :=
  (addResourcesToBackend functionsDefaultRegion scheduleIdForFunction
     SCHEDULED_FUNCTION_LABEL projectId runtime).

(** However a call ends, every cell there was before it is as it was,
    except the [requiredAPIs] dictionary and the three arrays of the
    aggregate, and the annotation, which is frozen. *)
Lemma build_frame annotation want σ r σ' :
  build annotation want σ = (r, σ') →
  length σ ≤ length σ' ∧ ∀ l o, σ !! l = Some o → cell_after σ annotation want l o σ'.
Proof.
  unfold addResourcesToBackend, freeze.
  unfold mbind at 1. unfold mbind at 1.
  destruct (get as_annotation annotation σ) as [[a|e] σ1] eqn:Hget; cbn [fst snd].
  2:{ intros [= <- <-]. unfold get in Hget.
      destruct ((σ !! annotation) ≫= as_annotation) eqn:Hann; [done|].
      injection Hget as <- <-. split; [done|].
      intros l o Hl. unfold cell_after. destruct o; try done.
      destruct (decide (l = annotation)) as [->|]; [|done].
      rewrite Hl in Hann. done. }
  pose proof (get_Ok as_annotation annotation σ a) as H. rewrite Hget in H. cbn in H.
  destruct H as (-> & o & Ho & Ha); [done|]. destruct o; try discriminate.
  injection Ha as ->. unfold put at 1. cbn [fst snd].
  set (σ1 := <[annotation := OAnnotation a true]> σ).
  intros Hrun.
  pose proof (hoare_after_freeze σ1 want functionsDefaultRegion scheduleIdForFunction
                SCHEDULED_FUNCTION_LABEL projectId runtime annotation
                σ1 (good_start σ1 want)) as [Hg _].
  rewrite Hrun in Hg. cbn in Hg. destruct Hg as [Hlen Hold _].
  assert (Hlen1 : length σ1 = length σ) by apply length_insert.
  split; [lia|].
  assert (Hback : (σ1 !! want) ≫= as_backend = (σ !! want) ≫= as_backend).
  { subst σ1. destruct (decide (want = annotation)) as [->|Hne].
    - rewrite list_lookup_insert_eq by by eapply lookup_lt_Some. by rewrite Ho.
    - by rewrite list_lookup_insert_ne. }
  intros l o Hl.
  destruct (decide (l = annotation)) as [->|Hne].
  - rewrite Ho in Hl. injection Hl as <-. cbn.
    rewrite decide_True by done.
    apply (Hold annotation (OAnnotation a true)).
    subst σ1. apply list_lookup_insert_eq. by eapply lookup_lt_Some.
  - assert (H1 : σ1 !! l = Some o) by (subst σ1; by rewrite list_lookup_insert_ne).
    specialize (Hold _ _ H1). unfold kept in Hold. unfold cell_after.
    destruct o; try done.
    + intros Hw. apply Hold. intros (w & Hw0 & ->). unfold backend0 in Hw0.
      rewrite Hback in Hw0. by apply (Hw w).
    + intros Hw. apply Hold. intros (w & Hw0 & Hcase). unfold backend0 in Hw0.
      rewrite Hback in Hw0. destruct (Hw w Hw0) as (? & ? & ?).
      destruct Hcase as [?|[?|?]]; done.
    + by rewrite decide_False.
Qed.

(** C9, as amended: for an annotation and an aggregate that share no
    object, [addResourcesToBackend] leaves the value of the annotation as it
    was, every field of it and of the [eventTrigger], [schedule] and other
    objects it refers to, however the call ends; of the cells there were, it
    writes only to the dictionary and the arrays of the aggregate, and
    freezes the annotation.  (That the resources of different regions are
    independent values is what fails.) *)
Theorem addResources_leaves_annotation annotation want σ v r σ' :
  snapshot σ annotation = Some v →
  separate σ annotation want →
  build annotation want σ = (r, σ') →
  snapshot σ' annotation = Some v
  ∧ length σ ≤ length σ'
  ∧ ∀ l o, σ !! l = Some o → cell_after σ annotation want l o σ'.
Proof.
  intros Hsnap Hsep Hrun.
  destruct (build_frame _ _ _ _ _ Hrun) as [Hlen Hframe].
  split; [|done]. by eapply snapshot_frame.
Qed.

End Build.

End HeapFacts.

(** ** Splitting and joining *)

Lemma split_nonempty c s : Js.split c s ≠ [].
Proof.
  destruct s as [|x s]; [done|]. cbn.
  destruct (Ascii.eqb x c); [done|]. by destruct (Js.split c s).
Qed.

Lemma join_cons sep w ws :
  ws ≠ [] → Js.join sep (w :: ws) = w +:+ sep +:+ Js.join sep ws.
Proof. by destruct ws. Qed.

(** Joining the pieces with the separator gives the string back. *)
Lemma join_split c s : Js.join (str1 c) (Js.split c s) = s.
Proof.
  induction s as [|x s IH]; [reflexivity|].
  cbn [Js.split]. destruct (Ascii.eqb x c) eqn:Hx.
  - apply Ascii.eqb_eq in Hx as ->.
    rewrite join_cons by apply split_nonempty.
    rewrite IH. reflexivity.
  - pose proof (split_nonempty c s) as Hne.
    destruct (Js.split c s) as [|w ws]; [done|].
    destruct ws as [|w' ws].
    + cbn in *. by rewrite IH.
    + rewrite join_cons in * by done. rewrite append_cons. by rewrite IH.
Qed.

Lemma split_free c s : Forall (λ w, Js.includes c w = false) (Js.split c s).
Proof.
  induction s as [|x s IH]; [by constructor|].
  cbn [Js.split]. destruct (Ascii.eqb x c) eqn:Hx.
  - by constructor.
  - destruct (Js.split c s) as [|w ws].
    + constructor; [|done]. cbn. by rewrite Hx.
    + inversion IH; subst. constructor; [|done]. cbn. by rewrite Hx.
Qed.

Lemma split_piece c w rest :
  Js.includes c w = false →
  Js.split c (w +:+ String c rest) = w :: Js.split c rest.
Proof.
  induction w as [|x w IH].
  - intros _. rewrite append_nil_l. cbn. by rewrite Ascii.eqb_refl.
  - cbn [Js.includes]. destruct (Ascii.eqb x c) eqn:Hx; [done|]. cbn [orb]. intros Hw.
    rewrite append_cons. cbn [Js.split]. rewrite Hx, IH by done. reflexivity.
Qed.

Lemma split_whole c w : Js.includes c w = false → Js.split c w = [w].
Proof.
  induction w as [|x w IH]; [done|].
  cbn [Js.includes]. destruct (Ascii.eqb x c) eqn:Hx; [done|]. cbn [orb]. intros Hw.
  cbn [Js.split]. rewrite Hx, IH by done. reflexivity.
Qed.

(** Splitting what was joined gives the pieces back, if there is a piece
    and no piece holds the separator. *)
Lemma split_join c ws :
  ws ≠ [] → Forall (λ w, Js.includes c w = false) ws →
  Js.split c (Js.join (str1 c) ws) = ws.
Proof.
  induction ws as [|w ws IH]; [done|]. intros _ Hall.
  inversion Hall as [|? ? Hw Hws]; subst.
  destruct ws as [|w' ws].
  - cbn. by apply split_whole.
  - rewrite join_cons by done. unfold str1 at 1. rewrite append_cons, append_nil_l.
    rewrite split_piece by done. by rewrite IH.
Qed.

(** ** [removeInspectOptions] *)

Lemma filter_Forall_bool {A} (f : A → bool) (P : A → Prop) l :
  Forall P l → Forall P (List.filter f l).
Proof.
  induction 1 as [|x l Hx _ IH]; [constructor|]. cbn.
  destruct (f x); [by constructor|done].
Qed.

Lemma filter_all_true {A} (f : A → bool) l :
  Forall (λ x, f x = true) l → List.filter f l = l.
Proof. induction 1 as [|x l Hx _ IH]; [done|]. cbn. by rewrite Hx, IH. Qed.

Lemma filter_kept {A} (f : A → bool) l : Forall (λ x, f x = true) (List.filter f l).
Proof.
  induction l as [|x l IH]; [constructor|]. cbn.
  destruct (f x) eqn:Hx; [by constructor|done].
Qed.

Lemma filter_sublist {A} (f : A → bool) (l : list A) : sublist (List.filter f l) l.
Proof.
  induction l as [|x l IH]; [constructor|]. cbn.
  destruct (f x); by constructor.
Qed.

(** X1: [removeInspectOptions] keeps exactly the options that do not start
    with [--inspect], in their order; applying it again changes nothing,
    and a list with no such option is returned as it is. *)
Theorem removeInspectOptions_spec options :
  (∀ opt, opt ∈ removeInspectOptions options ↔
          opt ∈ options ∧ Js.startsWith "--inspect" opt = false)
  ∧ sublist (removeInspectOptions options) options
  ∧ removeInspectOptions (removeInspectOptions options) = removeInspectOptions options
  ∧ (Forall (λ opt, Js.startsWith "--inspect" opt = false) options →
       removeInspectOptions options = options).
Proof.
  unfold removeInspectOptions. split; [|split; [|split]].
  - intros opt. rewrite !list_elem_of_In, filter_In, negb_true_iff. done.
  - apply filter_sublist.
  - apply filter_all_true, filter_kept.
  - intros Hall. apply filter_all_true.
    eapply Forall_impl; [exact Hall|]. intros opt H. cbn in H. by rewrite H.
Qed.

(** ** [parseTriggers]: the forked parser *)

Section ForkFacts.

Variable RuntimeConfigValues : Type.
Variable isEmpty : RuntimeConfigValues -> bool.
Variable JSON_stringify : RuntimeConfigValues -> string.
Variable TRIGGER_PARSER : string.

Local Abbreviation fork :=
  (parseTriggers_fork RuntimeConfigValues isEmpty JSON_stringify TRIGGER_PARSER).

Lemma fork_env_NODE_OPTIONS execArgv projectId sourceDir configValues envs :
  let env := fork_env (fork_options (fork execArgv projectId sourceDir configValues envs)) in
  env !! "NODE_OPTIONS" =
    match envs !! "NODE_OPTIONS" with
    | Some options =>
        if decide (options = "") then Some options
        else Some (Js.join " " (removeInspectOptions (Js.split " " options)))
    | None => None
    end.
Proof.
  cbn. unfold parseTriggers_fork. cbn.
  set (env1 := if negb (isEmpty configValues) then _ else _).
  assert (Hsame : env1 !! "NODE_OPTIONS" = envs !! "NODE_OPTIONS").
  { subst env1. destruct (negb (isEmpty configValues)).
    - rewrite !lookup_insert_ne by done. done.
    - rewrite lookup_insert_ne by done. done. }
  rewrite Hsame. destruct (envs !! "NODE_OPTIONS") as [options|] eqn:Hopt; [|by rewrite Hsame].
  rewrite truthy_string_decide. destruct (decide (options = "")); [by rewrite Hsame|].
  by rewrite lookup_insert_eq.
Qed.

(** X3: a non-empty [NODE_OPTIONS] of the environment is split at the
    spaces, the words that start with [--inspect] are dropped and the rest
    is joined by spaces again.  No word of the result starts with
    [--inspect]; its words are the words kept, unless none is kept, when it
    is the empty string; and a value with no such word is passed on
    unchanged. *)
Theorem parseTriggers_NODE_OPTIONS execArgv projectId sourceDir configValues envs options :
  envs !! "NODE_OPTIONS" = Some options →
  options ≠ "" →
  let env := fork_env (fork_options (fork execArgv projectId sourceDir configValues envs)) in
  let kept := removeInspectOptions (Js.split " " options) in
  ∃ options',
    env !! "NODE_OPTIONS" = Some options'
    ∧ options' = Js.join " " kept
    ∧ (Js.split " " options' = kept ∨ (kept = [] ∧ options' = ""))
    ∧ Forall (λ w, Js.startsWith "--inspect" w = false) (Js.split " " options')
    ∧ (Forall (λ w, Js.startsWith "--inspect" w = false) (Js.split " " options) →
         options' = options).
Proof.
  intros Hopt Hne env kept. subst env.
  rewrite fork_env_NODE_OPTIONS, Hopt. destruct (decide (options = "")); [done|].
  eexists. split; [reflexivity|]. split; [reflexivity|].
  fold kept.
  assert (Hfree : Forall (λ w, Js.includes " " w = false) kept).
  { apply filter_Forall_bool, split_free. }
  assert (Hkept : Forall (λ w, Js.startsWith "--inspect" w = false) kept).
  { eapply Forall_impl; [apply filter_kept|]. intros w. cbn. apply negb_true_iff. }
  assert (Hwords : Js.split " " (Js.join " " kept) = kept ∨ (kept = [] ∧ Js.join " " kept = "")).
  { destruct kept as [|w ws] eqn:Hk; [by right|]. left.
    apply (split_join " "); done. }
  split; [done|]. split.
  - destruct Hwords as [-> | [-> _]]; [done|]. cbn. by constructor.
  - intros Hall. subst kept. unfold removeInspectOptions.
    rewrite filter_all_true.
    + apply (join_split " ").
    + eapply Forall_impl; [exact Hall|]. intros w H. cbn in H. by rewrite H.
Qed.

(** X2: in the environment of the forked parser [GCLOUD_PROJECT] is the
    project id, whatever the given environment held; [CLOUD_RUNTIME_CONFIG]
    is the serialised configuration when that is not empty and is what the
    given environment held otherwise; an absent or empty [NODE_OPTIONS] is
    left as it is; every other variable is passed on unchanged.  The parser
    is forked on [sourceDir] alone, silent, with the [--inspect] options of
    [process.execArgv] removed. *)
Theorem parseTriggers_fork_env execArgv projectId sourceDir configValues envs :
  let call := fork execArgv projectId sourceDir configValues envs in
  let env := fork_env (fork_options call) in
  env !! "GCLOUD_PROJECT" = Some projectId
  ∧ env !! "CLOUD_RUNTIME_CONFIG" =
      (if isEmpty configValues then envs !! "CLOUD_RUNTIME_CONFIG"
       else Some (JSON_stringify configValues))
  ∧ (envs !! "NODE_OPTIONS" = None ∨ envs !! "NODE_OPTIONS" = Some "" →
       env !! "NODE_OPTIONS" = envs !! "NODE_OPTIONS")
  ∧ (∀ k, k ≠ "GCLOUD_PROJECT" → k ≠ "CLOUD_RUNTIME_CONFIG" → k ≠ "NODE_OPTIONS" →
          env !! k = envs !! k)
  ∧ fork_execArgv (fork_options call) = removeInspectOptions execArgv
  ∧ fork_args call = [sourceDir]
  ∧ fork_modulePath call = TRIGGER_PARSER
  ∧ fork_silent (fork_options call) = true.
Proof.
  intros call env.
  assert (Hother : ∀ k, k ≠ "NODE_OPTIONS" →
    env !! k = (if negb (isEmpty configValues)
                then <[ "CLOUD_RUNTIME_CONFIG" := JSON_stringify configValues ]>
                       (<[ "GCLOUD_PROJECT" := projectId ]> envs)
                else <[ "GCLOUD_PROJECT" := projectId ]> envs) !! k).
  { intros k Hk. subst env call. unfold parseTriggers_fork. cbn.
    match goal with |- context [match ?m !! "NODE_OPTIONS" with _ => _ end] =>
      destruct (m !! "NODE_OPTIONS") as [o|]; [destruct (truthy_string o)|] end;
      rewrite ?lookup_insert_ne by done; done. }
  split; [|split; [|split; [|split]]].
  - rewrite Hother by done. destruct (negb (isEmpty configValues));
      rewrite ?lookup_insert_ne by done; apply lookup_insert_eq.
  - rewrite Hother by done. destruct (isEmpty configValues); cbn.
    + by rewrite lookup_insert_ne.
    + apply lookup_insert_eq.
  - subst env call. rewrite fork_env_NODE_OPTIONS. intros [-> | ->]; [done|].
    by destruct (decide _).
  - intros k H1 H2 H3. rewrite Hother by done.
    destruct (negb (isEmpty configValues)); rewrite ?lookup_insert_ne by done; done.
  - done.
Qed.

End ForkFacts.

(** ** [parseTriggers]: the promise *)

Lemma settled_stays p ev : p ≠ Pending → parser_handle p ev = p.
Proof.
  intros Hp. destruct ev as [m|code]; cbn.
  - unfold parser_on_message.
    destruct (message_triggers m); [by destruct p|].
    destruct (message_error m) as [e|]; [|done].
    destruct (truthy_string e); [by destruct p|done].
  - unfold parser_on_exit. destruct code as [[| |]|]; by destruct p.
Qed.

Lemma settled_fold events : ∀ p, p ≠ Pending → fold_left parser_handle events p = p.
Proof.
  induction events as [|ev events IH]; [done|]. intros p Hp. cbn.
  rewrite settled_stays by done. by apply IH.
Qed.

Lemma settles_passes ev : settles ev = false ↔ passes ev.
Proof.
  unfold settles, passes. destruct ev as [m|code]; cbn.
  - unfold parser_on_message. destruct m as [ts e]. cbn.
    destruct ts as [ts|]; cbn.
    + split; [done|]. intros [?|(m & [= <-] & ? & _)]; done.
    + destruct e as [e|]; cbn.
      * rewrite truthy_string_decide. destruct (decide (e = "")) as [->|Hne]; cbn.
        -- split; [|done]. intros _. right. eexists. split; [done|]. cbn. auto.
        -- split; [done|]. intros [?|(m & [= <-] & _ & [?|[= ?]])]; done.
      * split; [|done]. intros _. right. eexists. split; [done|]. cbn. auto.
  - unfold parser_on_exit. destruct code as [[| |]|]; cbn.
    + split; [auto|done].
    + split; [done|]. intros [[= ?]|(m & ? & _)]; done.
    + split; [done|]. intros [[= ?]|(m & ? & _)]; done.
    + split; [done|]. intros [[= ?]|(m & ? & _)]; done.
Qed.

(** X4: the promise of [parseTriggers] is settled by the first event that
    is not let pass, and no later event changes it: a message with
    [triggers] resolves it with them, also when it carries an [error]
    beside; a message with a non-empty [error] and no [triggers] rejects it
    with that message and exit code 1; an exit with a code other than 0, or
    with none, rejects it with the "unknown problem" error and exit
    code 2. *)
Theorem parseTriggers_first_settlement pre ev post :
  Forall passes pre →
  ¬ passes ev →
  parseTriggers_promise (pre ++ ev :: post) = parser_handle Pending ev
  ∧ match ev with
    | OnMessage m =>
        match message_triggers m, message_error m with
        | Some triggers, _ => parser_handle Pending ev = Fulfilled triggers
        | None, Some error => parser_handle Pending ev = Rejected (FirebaseError error None) 1
        | None, None => False
        end
    | OnExit code => parser_handle Pending ev = Rejected unknown_problem 2
    end.
Proof.
  intros Hpre Hev. split.
  - unfold parseTriggers_promise. rewrite fold_left_app.
    assert (Hp : fold_left parser_handle pre Pending = Pending).
    { induction Hpre as [|e pre He _ IH]; [done|]. cbn.
      apply settles_passes in He. unfold settles in He.
      destruct (parser_handle Pending e); try done. }
    rewrite Hp. cbn. apply settled_fold.
    intros H. apply Hev, settles_passes. unfold settles. by rewrite H.
  - rewrite <- settles_passes in Hev. unfold settles in Hev.
    destruct ev as [[ts e]|code]; cbn in *.
    + unfold parser_on_message in *. cbn in *. destruct ts as [ts|]; [done|].
      destruct e as [e|]; [|done]. destruct (truthy_string e); done.
    + unfold parser_on_exit in *. destruct code as [[| |]|]; done.
Qed.

(** The promise stays pending exactly as long as every event is let pass. *)
Lemma promise_pending events :
  parseTriggers_promise events = Pending ↔ Forall passes events.
Proof.
  unfold parseTriggers_promise. split.
  - induction events as [|ev events IH]; [constructor|]. cbn. intros H.
    destruct (parser_handle Pending ev) eqn:Hev.
    + constructor; [|by apply IH]. apply settles_passes. unfold settles. by rewrite Hev.
    + rewrite settled_fold in H; done.
    + rewrite settled_fold in H; done.
  - induction 1 as [|ev events Hev _ IH]; [done|]. cbn.
    apply settles_passes in Hev. unfold settles in Hev.
    destruct (parser_handle Pending ev); done.
Qed.

(** ** [addResourcesToBackend], whatever the annotation *)

Lemma rejected_dec a : {rejected a} + {¬ rejected a}.
Proof.
  unfold rejected.
  destruct (one_trigger_kind_dec a) as [Hc|Hn]; [right; tauto|].
  destruct (TriggerAnnotation.regions a) as [[|r rs]|]; [right|left..]; intuition congruence.
Qed.

Lemma insert_twice (m : gmap string string) k1 v1 k2 v2 :
  <[k1:=v1]> (<[k2:=v2]> (<[k1:=v1]> (<[k2:=v2]> m))) = <[k1:=v1]> (<[k2:=v2]> m).
Proof.
  apply map_eq. intros k. rewrite !lookup_insert.
  destruct (decide (k1 = k)), (decide (k2 = k)); reflexivity.
Qed.

Section BuilderMore.

Variable functionsDefaultRegion : string.
Variable scheduleIdForFunction : TargetIds.t -> string.
Variable SCHEDULED_FUNCTION_LABEL : gmap string string.
Variables projectId runtime : string.

Local Abbreviation body :=
  (addResourcesToBackend_region scheduleIdForFunction SCHEDULED_FUNCTION_LABEL
     projectId runtime).
Local Abbreviation build :=
  (addResourcesToBackend functionsDefaultRegion scheduleIdForFunction
     SCHEDULED_FUNCTION_LABEL projectId runtime).
Local Abbreviation function_for' := (function_for scheduleIdForFunction projectId).
Local Abbreviation schedule_for' := (schedule_for scheduleIdForFunction projectId).
Local Abbreviation topic_for' :=
  (topic_for scheduleIdForFunction SCHEDULED_FUNCTION_LABEL projectId).
Local Abbreviation region_added' :=
  (region_added scheduleIdForFunction SCHEDULED_FUNCTION_LABEL projectId).
Local Abbreviation regions_added' :=
  (regions_added scheduleIdForFunction SCHEDULED_FUNCTION_LABEL projectId).
Local Abbreviation regions_of := (regions_or_default functionsDefaultRegion).
Local Abbreviation annotation_added' :=
  (annotation_added functionsDefaultRegion scheduleIdForFunction SCHEDULED_FUNCTION_LABEL
     projectId runtime).
Local Abbreviation annotations_added' :=
  (annotations_added functionsDefaultRegion scheduleIdForFunction SCHEDULED_FUNCTION_LABEL
     projectId runtime).

(** The function a turn of the loop appends carries the passthrough
    attributes of the annotation. *)
Lemma region_passthrough a r want :
  one_trigger_kind a →
  ∃ f, Backend.cloudFunctions (body a r want).2 = Backend.cloudFunctions want ++ [f]
       ∧ passthrough_for runtime a f.
Proof.
  unfold one_trigger_kind. intros Hc.
  unfold addResourcesToBackend_region, mbind.
  destruct (TriggerAnnotation.httpsTrigger a) as [h|] eqn:Hh,
           (TriggerAnnotation.eventTrigger a) as [ev|] eqn:He;
    simpl in Hc; try congruence.
  all: destruct (TriggerAnnotation.schedule a) as [s|] eqn:Hs.
  all: destruct (TriggerAnnotation.vpcConnector a) as [v|] eqn:Hv;
    [destruct (truthy_string v)|].
  all: cbn -[insert singletonM String.append].
  all: eexists; split; [reflexivity|].
  all: split; cbn -[insert singletonM String.append];
    rewrite ?copyIfPresent_None; reflexivity.
Qed.

Lemma regions_added_passthrough a rs : ∀ want want',
  one_trigger_kind a →
  for_of rs (body a) want = (Ok tt, want') →
  ∃ fs, Backend.cloudFunctions want' = Backend.cloudFunctions want ++ fs
        ∧ Forall2 (λ r f, function_for' a r f ∧ passthrough_for runtime a f) rs fs.
Proof.
  induction rs as [|r rs IH]; intros want want' Hc Hrun.
  - cbn in Hrun. injection Hrun as <-. exists []. split; [by rewrite app_nil_r|constructor].
  - cbn in Hrun. unfold mbind in Hrun.
    destruct (region_accepted scheduleIdForFunction
                SCHEDULED_FUNCTION_LABEL projectId runtime a r want Hc)
      as (want1 & Hrun1 & [(f & Hf & Hfor) _ _ _ _]).
    destruct (region_passthrough a r want Hc) as (f' & Hf' & Hpass).
    rewrite Hrun1 in Hrun, Hf'. cbn in Hf'.
    rewrite Hf in Hf'. apply app_inj_tail in Hf' as [_ <-].
    destruct (IH _ _ Hc Hrun) as (fs & Hfs & Hall).
    exists (f :: fs). split; [|by constructor].
    rewrite Hfs, Hf, <- app_assoc. reflexivity.
Qed.

Lemma regions_added_unscheduled a rs want want' :
  TriggerAnnotation.schedule a = None →
  regions_added' a rs want want' →
  Backend.schedules want' = Backend.schedules want
  ∧ Backend.topics want' = Backend.topics want
  ∧ Backend.requiredAPIs want' = Backend.requiredAPIs want.
Proof.
  intros Hs. induction 1 as [want | r rs want want1 want2 H1 _ (IH1 & IH2 & IH3)]; [done|].
  destruct H1 as [_ Hsc Htp Hapi _]. rewrite Hs in Hsc, Htp, Hapi.
  rewrite IH1, IH2, IH3. done.
Qed.

Lemma regions_added_env a rs want want' :
  regions_added' a rs want want' →
  Backend.environmentVariables want' = Backend.environmentVariables want.
Proof.
  induction 1 as [want | r rs want want1 want2 H1 _ IH]; [done|].
  destruct H1 as [_ _ _ _ Henv]. by rewrite IH.
Qed.

Lemma regions_added_scheduled_apis a s rs want want' :
  TriggerAnnotation.schedule a = Some s →
  regions_added' a rs want want' →
  Backend.requiredAPIs want' =
    match rs with
    | _ :: _ => <[ "scheduler" := "cloudscheduler.googleapis.com" ]>
                  (<[ "pubsub" := "pubsub.googleapis.com" ]> (Backend.requiredAPIs want))
    | [] => Backend.requiredAPIs want
    end.
Proof.
  intros Hs. induction 1 as [want | r rs want want1 want2 H1 _ IH]; [done|].
  destruct H1 as [_ _ _ Hapi _]. rewrite Hs in Hapi.
  rewrite IH. destruct rs; [done|]. rewrite Hapi.
  apply insert_twice.
Qed.

(** A call on an annotation that is not rejected returns, and adds what is
    the annotation's. *)
Lemma build_added a want :
  ¬ rejected a →
  ∃ want', build a want = (Ok tt, want') ∧ annotation_added' a want want'.
Proof.
  intros Hnr.
  destruct (one_trigger_kind_dec a) as [Hc|Hn].
  - destruct (build_accepted functionsDefaultRegion scheduleIdForFunction
                SCHEDULED_FUNCTION_LABEL projectId runtime a want Hc)
      as (want' & Hrun & Hadd).
    exists want'. split; [done|].
    pose proof Hrun as Hrun'. rewrite build_unfold in Hrun'.
    split.
    + by apply regions_added_passthrough.
    + destruct (TriggerAnnotation.schedule a) as [s|] eqn:Hs.
      * eapply regions_added_schedules; eauto.
      * exists []. rewrite app_nil_r.
        by destruct (regions_added_unscheduled _ _ _ _ Hs Hadd) as (-> & _ & _).
    + destruct (TriggerAnnotation.schedule a) as [s|] eqn:Hs.
      * eapply regions_added_topics; eauto.
      * exists []. rewrite app_nil_r.
        by destruct (regions_added_unscheduled _ _ _ _ Hs Hadd) as (_ & -> & _).
    + destruct (TriggerAnnotation.schedule a) as [s|] eqn:Hs.
      * rewrite (regions_added_scheduled_apis _ _ _ _ _ Hs Hadd). by destruct (regions_of a).
      * by destruct (regions_added_unscheduled _ _ _ _ Hs Hadd) as (_ & _ & ->).
    + eapply regions_added_env; eauto.
  - assert (Hempty : TriggerAnnotation.regions a = Some []).
    { destruct (TriggerAnnotation.regions a) as [[|r rs]|] eqn:Hr; [done|exfalso..];
        apply Hnr; split; congruence. }
    exists want. split.
    + unfold addResourcesToBackend. rewrite Hempty. reflexivity.
    + assert (Hrs : regions_of a = []) by (unfold regions_or_default; by rewrite Hempty).
      split; rewrite ?Hrs; try done.
      * exists []. split; [by rewrite app_nil_r|constructor].
      * exists []. split; [by rewrite app_nil_r|].
        destruct (TriggerAnnotation.schedule a); [constructor|done].
      * exists []. split; [by rewrite app_nil_r|].
        destruct (TriggerAnnotation.schedule a); [constructor|done].
      * by destruct (TriggerAnnotation.schedule a).
Qed.

Lemma build_rejected a want :
  rejected a → build a want = (Throw unexpected_annotation, want).
Proof.
  intros [Hn Hne]. rewrite build_unfold, (loop_rejected _ _ _ _ _ _ _ Hn).
  unfold regions_or_default.
  destruct (TriggerAnnotation.regions a) as [[|r rs]|]; cbn; congruence.
Qed.

(** The annotations in turn: all are added when none is rejected ... *)
Lemma builds_added annotations : ∀ want,
  Forall (λ a, ¬ rejected a) annotations →
  ∃ want', for_of annotations build want = (Ok tt, want')
           ∧ annotations_added' annotations want want'.
Proof.
  induction annotations as [|a rest IH]; intros want Hall.
  - exists want. split; [reflexivity|constructor].
  - inversion Hall as [|? ? Ha Hrest]; subst.
    destruct (build_added a want Ha) as (want1 & Hrun1 & Hadd1).
    destruct (IH want1 Hrest) as (want2 & Hrun2 & Hadd2).
    exists want2. split; [|econstructor; eassumption].
    cbn. unfold mbind. by rewrite Hrun1.
Qed.

(** ... and the first rejected one makes the loop throw. *)
Lemma builds_rejected annotations : ∀ want,
  Exists rejected annotations →
  ∃ want', for_of annotations build want = (Throw unexpected_annotation, want').
Proof.
  induction annotations as [|a rest IH]; intros want Hex; [by inversion Hex|].
  cbn. unfold mbind.
  destruct (rejected_dec a) as [Hr|Hnr].
  - rewrite (build_rejected a want Hr). eauto.
  - destruct (build_added a want Hnr) as (want1 & -> & _).
    apply IH. inversion Hex; subst; [done|assumption].
Qed.

Lemma annotations_added_env annotations want want' :
  annotations_added' annotations want want' →
  Backend.environmentVariables want' = Backend.environmentVariables want.
Proof.
  induction 1 as [want | a rest want want1 want2 H1 _ IH]; [done|].
  destruct H1 as [_ _ _ _ Henv]. by rewrite IH.
Qed.

Lemma annotations_added_functions annotations want want' :
  annotations_added' annotations want want' →
  ∃ fss, Backend.cloudFunctions want' = Backend.cloudFunctions want ++ concat fss
         ∧ Forall2 (λ a fs, Forall2 (λ r f, function_for' a r f ∧ passthrough_for runtime a f)
                                    (regions_of a) fs)
                   annotations fss.
Proof.
  induction 1 as [want | a rest want want1 want2 H1 _ (fss & Hfss & Hall)].
  - exists []. split; [by rewrite app_nil_r|constructor].
  - destruct H1 as [(fs & Hfs & Hfor) _ _ _ _].
    exists (fs :: fss). split; [|by constructor].
    cbn. rewrite Hfss, Hfs, <- app_assoc. reflexivity.
Qed.

Lemma annotations_added_apis annotations want want' :
  annotations_added' annotations want want' →
  ∀ k, k ≠ "pubsub" → k ≠ "scheduler" →
       Backend.requiredAPIs want' !! k = Backend.requiredAPIs want !! k.
Proof.
  induction 1 as [want | a rest want want1 want2 H1 _ IH]; [done|].
  intros k Hp Hs. rewrite IH by done.
  destruct H1 as [_ _ _ Hapi _]. rewrite Hapi.
  destruct (TriggerAnnotation.schedule a), (regions_of a);
    rewrite ?lookup_insert_ne by done; done.
Qed.

Lemma function_for_name a r f :
  function_for' a r f → function_name f = TargetIds.mk (TriggerAnnotation.name a) r projectId.
Proof. intros [Hid Hr Hp _ _ _ _ _]. unfold function_name. by rewrite Hid, Hr, Hp. Qed.

Lemma annotations_added_names annotations want want' :
  annotations_added' annotations want want' →
  map function_name (Backend.cloudFunctions want') =
    map function_name (Backend.cloudFunctions want)
    ++ names_of functionsDefaultRegion projectId annotations.
Proof.
  induction 1 as [want | a rest want want1 want2 H1 _ IH].
  - cbn. by rewrite app_nil_r.
  - rewrite IH. destruct H1 as [(fs & Hfs & Hfor) _ _ _ _].
    rewrite Hfs, map_app, <- app_assoc. f_equal. cbn. f_equal.
    clear -Hfor. induction Hfor as [|r f rs fs [Hf _] _ IH]; [done|].
    cbn. by rewrite IH, (function_for_name _ _ _ Hf).
Qed.

(** Adding an annotation keeps the schedules backed. *)
Lemma annotation_added_backed a want want' :
  annotation_added' a want want' → schedules_backed want → schedules_backed want'.
Proof.
  intros [(fs & Hfs & Hfor) (scs & Hscs & Hsfor) (tps & Htps & Htfor) Hapi _]
         [Hpaired Htarget Hapis].
  destruct (TriggerAnnotation.schedule a) as [s|] eqn:Hs.
  - split.
    + rewrite Hscs, Htps, !map_app, Hpaired. f_equal.
      clear -Hsfor Htfor. revert tps Htfor.
      induction Hsfor as [|r sc rs scs Hsc _ IH]; intros tps Htfor.
      * by inversion Htfor.
      * inversion Htfor as [|? tp ? tps' Htp Hrest]; subst. cbn.
        rewrite (IH _ Hrest). f_equal.
        destruct Hsc as [Hid Hpr _ _ Htg _ _], Htp as [Hid' Hpr' _ Htg'].
        unfold schedule_key, topic_key. by rewrite Hid, Hpr, Htg, Hid', Hpr', Htg'.
    + intros sc Hin. rewrite Hscs in Hin. apply elem_of_app in Hin as [Hin|Hin].
      * destruct (Htarget sc Hin) as (f & m & Hf & ?).
        exists f, m. split; [|done]. rewrite Hfs. apply elem_of_app. by left.
      * apply list_elem_of_lookup in Hin as [i Hi].
        destruct (Forall2_lookup_r _ _ _ _ _ Hsfor Hi) as (r & Hr & Hsc).
        destruct (Forall2_lookup_l _ _ _ _ _ Hfor Hr) as (f & Hf & [Hff _]).
        pose proof (function_for_name _ _ _ Hff) as Hname.
        destruct Hff as [_ _ _ _ _ _ _ Hlabels]. rewrite Hs in Hlabels.
        eexists f, _. split; [|split; [|split; [exact Hlabels|apply lookup_insert_eq]]].
        -- rewrite Hfs. apply elem_of_app. right. by eapply list_elem_of_lookup_2.
        -- rewrite Hname. by destruct Hsc as [_ _ _ _ -> _ _].
    + intros Hne. rewrite Hapi.
      destruct (regions_of a) as [|r rs] eqn:Hrs.
      * inversion Hsfor; subst. rewrite app_nil_r in Hscs. rewrite Hscs in Hne. auto.
      * split; [by rewrite lookup_insert_ne, lookup_insert_eq|apply lookup_insert_eq].
  - subst scs tps. rewrite app_nil_r in Hscs, Htps.
    assert (Hapi' : Backend.requiredAPIs want' = Backend.requiredAPIs want).
    { rewrite Hapi. by destruct (regions_of a). }
    split.
    + by rewrite Hscs, Htps.
    + intros sc Hin. rewrite Hscs in Hin.
      destruct (Htarget sc Hin) as (f & m & Hf & ?).
      exists f, m. split; [|done]. rewrite Hfs. apply elem_of_app. by left.
    + rewrite Hscs, Hapi'. exact Hapis.
Qed.

Lemma annotations_added_backed annotations want want' :
  annotations_added' annotations want want' → schedules_backed want → schedules_backed want'.
Proof.
  induction 1 as [want | a rest want want1 want2 H1 _ IH]; [done|].
  intros Hb. apply IH. by eapply annotation_added_backed.
Qed.

(** Whatever the annotation, what a call leaves in the aggregate. *)
Lemma build_outcome a want :
  (rejected a ∧ build a want = (Throw unexpected_annotation, want))
  ∨ (¬ rejected a ∧ ∃ want', build a want = (Ok tt, want')
       ∧ annotation_added functionsDefaultRegion scheduleIdForFunction
           SCHEDULED_FUNCTION_LABEL projectId runtime a want want').
Proof.
  destruct (rejected_dec a) as [Hr|Hnr].
  - left. split; [done|]. by apply build_rejected.
  - right. split; [done|]. by apply build_added.
Qed.

(** X10: a call of [addResourcesToBackend], whether it returns or throws,
    keeps the schedules of the aggregate backed: if before the call every
    schedule has its topic, of the same id, project and target, at the same
    place of the topics list, and its target among the functions, labelled
    [deployment-scheduled = "true"], and the [pubsub] and [scheduler] APIs
    are required whenever there is a schedule, then so it is after it. *)
Theorem addResources_keeps_schedules_backed a want :
  schedules_backed want → schedules_backed (build a want).2.
Proof.
  intros Hb. destruct (build_outcome a want) as [[_ ->]|[_ (want' & -> & Hadd)]]; cbn.
  - done.
  - by eapply annotation_added_backed.
Qed.

(** X26: a call of [addResourcesToBackend], whether it returns or throws,
    only appends to the functions, the schedules and the topics of the
    aggregate, as many topics as schedules, and those either none or as many
    as functions; it leaves the environment variables as they are, and
    [requiredAPIs] too but for [pubsub] and [scheduler], which it sets to
    their API names or leaves as they are. *)
Theorem addResources_appends_only a want :
  let want' := (build a want).2 in
  (∃ fs scs tps,
     Backend.cloudFunctions want' = Backend.cloudFunctions want ++ fs
     ∧ Backend.schedules want' = Backend.schedules want ++ scs
     ∧ Backend.topics want' = Backend.topics want ++ tps
     ∧ length scs = length tps
     ∧ (length scs = 0 ∨ length scs = length fs))
  ∧ Backend.environmentVariables want' = Backend.environmentVariables want
  ∧ (∀ k, k ≠ "pubsub" → k ≠ "scheduler" →
          Backend.requiredAPIs want' !! k = Backend.requiredAPIs want !! k)
  ∧ (∀ k v, Backend.requiredAPIs want' !! k = Some v →
            Backend.requiredAPIs want !! k = Some v
            ∨ (k = "pubsub" ∧ v = "pubsub.googleapis.com")
            ∨ (k = "scheduler" ∧ v = "cloudscheduler.googleapis.com")).
Proof.
  intros want'. subst want'.
  destruct (build_outcome a want) as [[_ ->]|[_ (want' & -> & Hadd)]]; cbn.
  - split; [|by auto]. exists [], [], []. rewrite !app_nil_r. repeat split; auto.
  - destruct Hadd as [(fs & Hfs & Hfor) (scs & Hscs & Hsc) (tps & Htps & Htp) Hapi Henv].
    split; [|split; [done|]].
    + exists fs, scs, tps. do 3 (split; [done|]).
      destruct (TriggerAnnotation.schedule a).
      * apply Forall2_length in Hfor, Hsc, Htp. split; [lia|right; lia].
      * subst scs tps. split; [done|by left].
    + rewrite Hapi.
      destruct (TriggerAnnotation.schedule a), (regions_of a); try by auto.
      split.
      * intros k Hp Hs. by rewrite !lookup_insert_ne.
      * intros k v. rewrite !lookup_insert.
        destruct (decide ("scheduler" = k)) as [<-|_]; [intros [= <-]; by auto|].
        destruct (decide ("pubsub" = k)) as [<-|_]; [intros [= <-]; by auto|].
        by auto.
Qed.

(** X11: every function a call appends takes over from the annotation, as
    they are, the entry point and the ten passthrough attributes
    ([concurrency], [serviceAccountEmail], [vpcConnectorEgressSettings],
    [ingressSettings], [timeout], [maxInstances], [minInstances],
    [availableMemoryMb], [invoker]; an absent one stays absent), has the
    runtime passed in, and has the platform of the annotation, [gcfv1] when
    the annotation names none. *)
Theorem addResources_passthrough a want :
  ∃ fs,
    Backend.cloudFunctions (build a want).2 = Backend.cloudFunctions want ++ fs
    ∧ Forall (λ f,
        FunctionSpec.platform f = default gcfv1 (TriggerAnnotation.platform a)
        ∧ FunctionSpec.entryPoint f = TriggerAnnotation.entryPoint a
        ∧ FunctionSpec.runtime f = runtime
        ∧ FunctionSpec.concurrency f = TriggerAnnotation.concurrency a
        ∧ FunctionSpec.serviceAccountEmail f = TriggerAnnotation.serviceAccountEmail a
        ∧ FunctionSpec.vpcConnectorEgressSettings f
            = TriggerAnnotation.vpcConnectorEgressSettings a
        ∧ FunctionSpec.ingressSettings f = TriggerAnnotation.ingressSettings a
        ∧ FunctionSpec.timeout f = TriggerAnnotation.timeout a
        ∧ FunctionSpec.maxInstances f = TriggerAnnotation.maxInstances a
        ∧ FunctionSpec.minInstances f = TriggerAnnotation.minInstances a
        ∧ FunctionSpec.availableMemoryMb f = TriggerAnnotation.availableMemoryMb a
        ∧ FunctionSpec.invoker f = TriggerAnnotation.invoker a) fs
    ∧ (one_trigger_kind a → length fs = length (regions_of a)).
Proof.
  destruct (build_outcome a want) as [[[Hn _] ->]|[_ (want' & -> & Hadd)]]; cbn.
  - exists []. rewrite app_nil_r. split; [done|]. split; [constructor|done].
  - destruct Hadd as [(fs & Hfs & Hfor) _ _ _ _].
    exists fs. split; [done|]. split.
    + clear -Hfor. induction Hfor as [|r f rs fs [Hf Hp] _ IH]; constructor; [|done].
      destruct Hf as [_ _ _ ? _ _ _ _]. by destruct Hp.
    + intros _. symmetry. by eapply Forall2_length.
Qed.

(** X12: for an annotation without a schedule a call adds no schedule and
    no topic and leaves [requiredAPIs] and the environment variables as they
    are; the functions it appends have the labels of the annotation, no
    label added, and an event trigger whose [eventFilters] is the one entry
    [resource], as the annotation gives it, and whose [retry] tells whether
    the annotation has a failure policy. *)
Theorem addResources_unscheduled a want :
  TriggerAnnotation.schedule a = None →
  Backend.schedules (build a want).2 = Backend.schedules want
  ∧ Backend.topics (build a want).2 = Backend.topics want
  ∧ Backend.requiredAPIs (build a want).2 = Backend.requiredAPIs want
  ∧ Backend.environmentVariables (build a want).2 = Backend.environmentVariables want
  ∧ ∃ fs,
      Backend.cloudFunctions (build a want).2 = Backend.cloudFunctions want ++ fs
      ∧ Forall (λ f,
          FunctionSpec.labels f = TriggerAnnotation.labels a
          ∧ ∀ ev, TriggerAnnotation.eventTrigger a = Some ev →
              FunctionSpec.trigger f =
                EventTrigger (EventTriggerAnnotation.eventType ev)
                             {[ "resource" := EventTriggerAnnotation.resource ev ]}
                             (present (TriggerAnnotation.failurePolicy a))) fs.
Proof.
  intros Hs.
  destruct (build_outcome a want) as [[_ ->]|[_ (want' & -> & Hadd)]]; cbn.
  - do 4 (split; [done|]). exists []. rewrite app_nil_r. split; [done|constructor].
  - destruct Hadd as [(fs & Hfs & Hfor) (scs & Hscs & Hsc) (tps & Htps & Htp) Hapi Henv].
    rewrite Hs in Hsc, Htp, Hapi. subst scs tps. rewrite app_nil_r in Hscs, Htps.
    split; [done|]. split; [done|]. split; [by destruct (regions_of a)|]. split; [done|].
    exists fs. split; [done|].
    clear -Hfor Hs. induction Hfor as [|r f rs fs [Hf _] _ IH]; constructor; [|done].
    destruct Hf as [_ _ _ _ _ Hev _ Hl]. rewrite Hs in Hl. split; [done|].
    intros ev He. specialize (Hev ev He). by rewrite Hs in Hev.
Qed.

End BuilderMore.

(** ** [discoverBackend] *)

Section DiscoverFacts.

Variable functionsDefaultRegion : string.
Variable scheduleIdForFunction : TargetIds.t -> string.
Variable SCHEDULED_FUNCTION_LABEL : gmap string string.
Variable backend_empty : Backend.t.
Variables projectId runtime : string.

Local Abbreviation build :=
  (addResourcesToBackend functionsDefaultRegion scheduleIdForFunction
     SCHEDULED_FUNCTION_LABEL projectId runtime).
Local Abbreviation regions_of := (regions_or_default functionsDefaultRegion).
Local Abbreviation discover :=
  (discoverBackend functionsDefaultRegion scheduleIdForFunction SCHEDULED_FUNCTION_LABEL
     backend_empty projectId runtime).
Local Abbreviation seeded := (λ envs : gmap string string,
  Backend.mk (Backend.requiredAPIs backend_empty) (Backend.cloudFunctions backend_empty)
             (Backend.schedules backend_empty) (Backend.topics backend_empty) envs).
Local Abbreviation annotations_added' :=
  (annotations_added functionsDefaultRegion scheduleIdForFunction SCHEDULED_FUNCTION_LABEL
     projectId runtime).

Lemma discover_accepted annotations envs :
  Forall (λ a, ¬ rejected a) annotations →
  ∃ want, discover (Fulfilled annotations) envs = Some (Ok want)
          ∧ annotations_added' annotations (seeded envs) want.
Proof.
  intros Hall.
  destruct (builds_added functionsDefaultRegion scheduleIdForFunction SCHEDULED_FUNCTION_LABEL
              projectId runtime annotations (seeded envs) Hall) as (want & Hrun & Hadd).
  exists want. split; [|done]. unfold discoverBackend. by rewrite Hrun.
Qed.

Lemma discover_rejected annotations envs :
  Exists rejected annotations →
  discover (Fulfilled annotations) envs = Some (Throw unexpected_annotation).
Proof.
  intros Hex.
  destruct (builds_rejected functionsDefaultRegion scheduleIdForFunction
              SCHEDULED_FUNCTION_LABEL projectId runtime annotations (seeded envs) Hex)
    as (want & Hrun).
  unfold discoverBackend. by rewrite Hrun.
Qed.

Lemma discover_cases annotations :
  Forall (λ a, ¬ rejected a) annotations ∨ Exists rejected annotations.
Proof.
  induction annotations as [|a rest [IH|IH]].
  - left. constructor.
  - destruct (rejected_dec a); [right; by left|left; by constructor].
  - right. by right.
Qed.

Lemma discover_added annotations envs want :
  discover (Fulfilled annotations) envs = Some (Ok want) →
  annotations_added' annotations (seeded envs) want.
Proof.
  intros Hrun. destruct (discover_cases annotations) as [Hall|Hex].
  - destruct (discover_accepted annotations envs Hall) as (want' & Hrun' & Hadd). congruence.
  - rewrite (discover_rejected annotations envs Hex) in Hrun. discriminate.
Qed.

(** X6: when no annotation is rejected, [discoverBackend] returns an
    aggregate that holds, after the functions of [backend.empty()], one
    function per annotation and region the loop runs over, annotation by
    annotation and region by region in their order, each with the name of
    its annotation as id, its region, the project, the runtime and the entry
    point of its annotation; the environment variables are the ones passed
    in, and [requiredAPIs] is as in [backend.empty()] at every key but
    [pubsub] and [scheduler]. *)
Theorem discoverBackend_adds annotations envs :
  Forall (λ a, ¬ rejected a) annotations →
  ∃ want fss,
    discover (Fulfilled annotations) envs = Some (Ok want)
    ∧ Backend.cloudFunctions want = Backend.cloudFunctions backend_empty ++ concat fss
    ∧ Forall2 (λ a fs,
        Forall2 (λ r f, FunctionSpec.id f = TriggerAnnotation.name a
                        ∧ FunctionSpec.region f = r
                        ∧ FunctionSpec.project f = projectId
                        ∧ FunctionSpec.runtime f = runtime
                        ∧ FunctionSpec.entryPoint f = TriggerAnnotation.entryPoint a)
                (regions_of a) fs)
        annotations fss
    ∧ Backend.environmentVariables want = envs
    ∧ (∀ k, k ≠ "pubsub" → k ≠ "scheduler" →
            Backend.requiredAPIs want !! k = Backend.requiredAPIs backend_empty !! k).
Proof.
  intros Hall.
  destruct (discover_accepted annotations envs Hall) as (want & Hrun & Hadd).
  destruct (annotations_added_functions _ _ _ _ _ _ _ _ Hadd) as (fss & Hfss & Hfor).
  exists want, fss. split; [done|]. split; [done|]. split; [|split].
  - eapply Forall2_impl; [exact Hfor|]. intros a fs Hfs.
    eapply Forall2_impl; [exact Hfs|]. intros r f [Hf Hp].
    destruct Hf as [? ? ? _ _ _ _ _]. destruct Hp as [? ? _ _ _ _ _ _ _ _ _]. done.
  - by rewrite (annotations_added_env _ _ _ _ _ _ _ _ Hadd).
  - intros k Hp Hs. by rewrite (annotations_added_apis _ _ _ _ _ _ _ _ Hadd k Hp Hs).
Qed.

(** X7: on the annotations the parser has sent, [discoverBackend] returns
    or throws; it throws exactly when some annotation has not exactly one
    trigger kind and has a regions field that is absent or a non-empty
    list, and what it throws then is the structural-consistency error.  (An
    annotation with an empty regions list is passed over, whatever its
    triggers.) *)
Theorem discoverBackend_throws annotations envs :
  (∃ r, discover (Fulfilled annotations) envs = Some r)
  ∧ (∀ e, discover (Fulfilled annotations) envs = Some (Throw e) ↔
          e = unexpected_annotation ∧ Exists rejected annotations).
Proof.
  destruct (discover_cases annotations) as [Hall|Hex].
  - destruct (discover_accepted annotations envs Hall) as (want & Hrun & _).
    split; [eauto|]. intros e. rewrite Hrun. split; [done|].
    intros [_ Hex]. exfalso. clear -Hall Hex.
    induction Hall as [|a rest Ha _ IH]; inversion Hex; subst; auto.
  - rewrite (discover_rejected annotations envs Hex). split; [eauto|].
    intros e. split; [by intros [= <-]|by intros [-> _]].
Qed.

(** X5: [discoverBackend] does not return as long as every event of the
    forked parser is an exit with code 0 or a message with no [triggers]
    and no, or an empty, [error]; and it settles as soon as another event
    arrives.  A parser that exits with code 0 without having sent a message
    leaves the call pending. *)
Theorem discoverBackend_pending events envs :
  discover (parseTriggers_promise events) envs = None ↔ Forall passes events.
Proof.
  rewrite <- promise_pending.
  destruct (parseTriggers_promise events) as [|annotations|e exit]; cbn.
  - done.
  - split; [|done]. intros H.
    destruct (discover_cases annotations) as [Hall|Hex].
    + destruct (discover_accepted annotations envs Hall) as (want & Hrun & _).
      unfold discoverBackend in Hrun. cbn in Hrun. congruence.
    + pose proof (discover_rejected annotations envs Hex) as Hrun.
      unfold discoverBackend in Hrun. cbn in Hrun. congruence.
  - done.
Qed.

Lemma names_of_NoDup annotations :
  NoDup (map TriggerAnnotation.name annotations) →
  Forall (λ a, NoDup (regions_of a)) annotations →
  NoDup (names_of functionsDefaultRegion projectId annotations).
Proof.
  induction annotations as [|a rest IH]; [constructor|].
  cbn [map names_of flat_map]. intros Hnames Hregions.
  apply NoDup_cons in Hnames as [Hfresh Hnames].
  inversion Hregions as [|? ? Ha Hrest]; subst.
  apply NoDup_app. split; [|split].
  - apply NoDup_fmap_2_strong; [|done]. intros r r' _ _ [=]. done.
  - intros t Hin Hin'.
    apply list_elem_of_fmap in Hin as (r & -> & _).
    unfold names_of in Hin'. apply list_elem_of_In, in_flat_map in Hin' as (a' & Ha' & Hin').
    apply in_map_iff in Hin' as (r' & [= Hname _] & _).
    apply Hfresh. rewrite <- Hname. apply list_elem_of_fmap. exists a'.
    split; [done|by apply list_elem_of_In].
  - by apply IH.
Qed.

(** X8: when the schedules of [backend.empty()] are backed (as they are
    when it has none), so are those of the aggregate [discoverBackend]
    returns: every schedule has its topic, of the same id, project and
    target, at the same place of the topics list, and its target among the
    functions, labelled as scheduled, and with a schedule there [pubsub] and
    [scheduler] are required. *)
Theorem discoverBackend_schedules_backed annotations envs want :
  schedules_backed backend_empty →
  discover (Fulfilled annotations) envs = Some (Ok want) →
  schedules_backed want.
Proof.
  intros Hb Hrun. apply discover_added in Hrun.
  eapply annotations_added_backed; [exact Hrun|].
  destruct Hb as [? ? ?]. by split.
Qed.

(** X9: when [backend.empty()] has no function, the (id, region, project)
    triples of the functions [discoverBackend] returns are those of the
    annotations and their regions, in order.  They are pairwise distinct
    when the annotations have pairwise distinct names and no annotation
    lists a region twice; an annotation that lists a region twice gives two
    functions of one triple: nothing is de-duplicated. *)
Theorem discoverBackend_unique_names annotations envs want :
  Backend.cloudFunctions backend_empty = [] →
  discover (Fulfilled annotations) envs = Some (Ok want) →
  map function_name (Backend.cloudFunctions want)
    = names_of functionsDefaultRegion projectId annotations
  ∧ (NoDup (map TriggerAnnotation.name annotations) →
     Forall (λ a, NoDup (regions_of a)) annotations →
     NoDup (map function_name (Backend.cloudFunctions want)))
  ∧ (∀ a r, a ∈ annotations →
       (∃ i j, i < j ∧ regions_of a !! i = Some r ∧ regions_of a !! j = Some r) →
       ¬ NoDup (map function_name (Backend.cloudFunctions want))).
Proof.
  intros Hempty Hrun. apply discover_added in Hrun.
  pose proof (annotations_added_names _ _ _ _ _ _ _ _ Hrun) as Hnames.
  cbn in Hnames. rewrite Hempty in Hnames. cbn in Hnames.
  split; [done|]. rewrite Hnames. split; [apply names_of_NoDup|].
  intros a r Ha (i & j & Hij & Hi & Hj) Hnodup.
  assert (Hdup : ¬ NoDup (regions_of a)).
  { intros Hnd. pose proof (NoDup_lookup _ _ _ _ Hnd Hi Hj). lia. }
  apply Hdup. clear -Ha Hnodup.
  induction annotations as [|a' rest IH]; [by apply elem_of_nil in Ha|].
  cbn [names_of flat_map] in Hnodup. apply NoDup_app in Hnodup as (Hhere & _ & Hrest).
  apply elem_of_cons in Ha as [->|Ha]; [|by apply IH].
  eapply NoDup_fmap_1. exact Hhere.
Qed.

End DiscoverFacts.

(** ** [escape] and the lines of [toDotenvFormat] *)

Lemma occurrences_append c s t :
  occurrences c (s +:+ t) = occurrences c s + occurrences c t.
Proof. induction s as [|x s IH]; [done|]. rewrite append_cons. cbn. rewrite IH. lia. Qed.

Lemma occurrences_includes c s : occurrences c s = 0 ↔ Js.includes c s = false.
Proof.
  induction s as [|x s IH]; [done|]. cbn.
  destruct (Ascii.eqb x c); cbn; [split; [lia|done]|exact IH].
Qed.

Lemma occurrences_spaces c n : c ≠ " "%char → occurrences c (Js.spaces n) = 0.
Proof.
  intros Hc. induction n as [|n IH]; [done|]. cbn [Js.spaces occurrences].
  assert (Ascii.eqb " " c = false) as -> by (apply Ascii.eqb_neq; congruence). done.
Qed.

Lemma includes_append c s t : Js.includes c (s +:+ t) = Js.includes c s || Js.includes c t.
Proof.
  induction s as [|x s IH]; [done|]. rewrite append_cons. cbn. rewrite IH.
  by destruct (Ascii.eqb x c).
Qed.

(** The length of a string in which the leftmost [c] was replaced. *)
Lemma length_replace_first_char c rep s :
  String.length (replace_first_char c rep s) + (if Js.includes c s then 1 else 0) =
  String.length s + (if Js.includes c s then String.length rep else 0).
Proof.
  induction s as [|x s IH]; [done|]. cbn.
  destruct (Ascii.eqb x c); cbn.
  - rewrite length_append. lia.
  - destruct (Js.includes c s); lia.
Qed.

Lemma length_backslash_quotes s :
  String.length (backslash_quotes s) =
  String.length s + occurrences SQUOTE s + occurrences DQUOTE s.
Proof.
  induction s as [|x s IH]; [done|]. cbn.
  destruct (Ascii.eqb x SQUOTE) eqn:Hs; cbn.
  - apply Ascii.eqb_eq in Hs as ->. cbn. lia.
  - destruct (Ascii.eqb x DQUOTE); cbn; lia.
Qed.

Lemma backslash_quotes_plain s :
  Js.includes SQUOTE s = false → Js.includes DQUOTE s = false → backslash_quotes s = s.
Proof.
  induction s as [|x s IH]; [done|]. cbn.
  destruct (Ascii.eqb x SQUOTE); [done|]. destruct (Ascii.eqb x DQUOTE); [done|]. cbn.
  intros ? ?. by rewrite IH.
Qed.

(** X13: [escape] returns a value as it is exactly when the value holds no
    newline, carriage return, tab, vertical tab, single quote or double
    quote. *)
Theorem escape_identity s :
  escape s = s ↔
  Js.includes LF s = false ∧ Js.includes CR s = false ∧ Js.includes TAB s = false
  ∧ Js.includes VT s = false ∧ Js.includes SQUOTE s = false ∧ Js.includes DQUOTE s = false.
Proof.
  rewrite escape_escaped. unfold escaped. split.
  - intros Heq. apply (f_equal String.length) in Heq.
    rewrite length_backslash_quotes in Heq.
    set (s1 := replace_first_char LF _ s) in *.
    set (s2 := replace_first_char CR _ s1) in *.
    set (s3 := replace_first_char TAB _ s2) in *.
    set (s4 := replace_first_char VT _ s3) in *.
    pose proof (length_replace_first_char LF (String BACKSLASH "n") s) as H1.
    pose proof (length_replace_first_char CR (String BACKSLASH "r") s1) as H2.
    pose proof (length_replace_first_char TAB (String BACKSLASH "t") s2) as H3.
    pose proof (length_replace_first_char VT (String BACKSLASH "v") s3) as H4.
    fold s1 in H1. fold s2 in H2. fold s3 in H3. fold s4 in H4.
    cbn [String.length] in H1, H2, H3, H4.
    assert (Hlf : Js.includes LF s = false).
    { destruct (Js.includes LF s), (Js.includes CR s1), (Js.includes TAB s2),
        (Js.includes VT s3); try done; lia. }
    assert (Hs1 : s1 = s) by (by apply replace_first_char_absent).
    assert (Hcr : Js.includes CR s1 = false).
    { destruct (Js.includes LF s), (Js.includes CR s1), (Js.includes TAB s2),
        (Js.includes VT s3); try done; lia. }
    assert (Hs2 : s2 = s) by (unfold s2; rewrite replace_first_char_absent by exact Hcr; exact Hs1).
    assert (Htab : Js.includes TAB s2 = false).
    { destruct (Js.includes LF s), (Js.includes CR s1), (Js.includes TAB s2),
        (Js.includes VT s3); try done; lia. }
    assert (Hs3 : s3 = s) by (unfold s3; rewrite replace_first_char_absent by exact Htab; exact Hs2).
    assert (Hvt : Js.includes VT s3 = false).
    { destruct (Js.includes LF s), (Js.includes CR s1), (Js.includes TAB s2),
        (Js.includes VT s3); try done; lia. }
    assert (Hs4 : s4 = s) by (unfold s4; rewrite replace_first_char_absent by exact Hvt; exact Hs3).
    rewrite Hlf, Hcr, Htab, Hvt in *. rewrite Hs1 in Hcr. rewrite Hs2 in Htab.
    rewrite Hs3 in Hvt. rewrite Hs4 in Heq.
    repeat split; try done; apply occurrences_includes; lia.
  - intros (Hlf & Hcr & Htab & Hvt & Hsq & Hdq).
    rewrite (replace_first_char_absent LF) by done.
    rewrite (replace_first_char_absent CR) by done.
    rewrite (replace_first_char_absent TAB) by done.
    rewrite (replace_first_char_absent VT) by done.
    by apply backslash_quotes_plain.
Qed.

(** X14: [escape] leaves a backslash as it is, so it is not injective: a
    value with one newline and the value that has the two characters
    backslash and [n] in its place are escaped to the same text. *)
Theorem escape_confuses_newline pre post :
  Js.includes LF pre = false →
  Js.includes LF post = false →
  escape (pre +:+ String LF post) = escape (pre +:+ String BACKSLASH (String "n" post))
  ∧ pre +:+ String LF post ≠ pre +:+ String BACKSLASH (String "n" post).
Proof.
  intros Hpre Hpost. split.
  - rewrite !escape_escaped. unfold escaped.
    rewrite replace_first_char_leftmost by done.
    rewrite (replace_first_char_absent LF _ (pre +:+ String BACKSLASH (String "n" post))).
    + reflexivity.
    + rewrite includes_append, Hpre. cbn. exact Hpost.
  - intros Heq. apply (f_equal String.length) in Heq.
    rewrite !length_append in Heq. cbn in Heq. lia.
Qed.

(** The newlines of an escaped value: all but the first. *)
Lemma occurrences_replace_first c rep s :
  occurrences c rep = 0 →
  occurrences c (replace_first_char c rep s) = pred (occurrences c s).
Proof.
  intros Hrep. induction s as [|x s IH]; [done|]. cbn.
  destruct (Ascii.eqb x c) eqn:Hx; cbn.
  - rewrite occurrences_append. lia.
  - by rewrite Hx.
Qed.

Lemma occurrences_replace_other c c' rep s :
  c ≠ c' → occurrences c rep = 0 →
  occurrences c (replace_first_char c' rep s) = occurrences c s.
Proof.
  intros Hne Hrep. induction s as [|x s IH]; [done|]. cbn.
  destruct (Ascii.eqb x c') eqn:Hx; cbn.
  - apply Ascii.eqb_eq in Hx as ->.
    assert (Ascii.eqb c' c = false) as -> by (apply Ascii.eqb_neq; congruence).
    rewrite occurrences_append. lia.
  - by rewrite IH.
Qed.

Lemma occurrences_backslash_quotes c s :
  c ≠ BACKSLASH → occurrences c (backslash_quotes s) = occurrences c s.
Proof.
  intros Hne. induction s as [|x s IH]; [done|]. cbn [backslash_quotes].
  destruct (Ascii.eqb x SQUOTE || Ascii.eqb x DQUOTE); cbn [occurrences]; rewrite IH; [|done].
  assert (Ascii.eqb BACKSLASH c = false) as -> by (apply Ascii.eqb_neq; congruence). done.
Qed.

Lemma occurrences_escape s : occurrences LF (escape s) = pred (occurrences LF s).
Proof.
  rewrite escape_escaped. unfold escaped.
  rewrite occurrences_backslash_quotes by done.
  rewrite !occurrences_replace_other by done.
  by apply occurrences_replace_first.
Qed.

Lemma length_split c s : length (Js.split c s) = S (occurrences c s).
Proof.
  induction s as [|x s IH]; [done|]. cbn.
  destruct (Ascii.eqb x c); cbn; [by rewrite IH|].
  pose proof (split_nonempty c s). destruct (Js.split c s); [done|]. cbn in *. lia.
Qed.

Lemma occurrences_join c lines :
  lines ≠ [] →
  occurrences c (Js.join (str1 c) lines) =
  pred (length lines) + sum_list (map (occurrences c) lines).
Proof.
  induction lines as [|l lines IH]; [done|]. intros _.
  destruct lines as [|l' lines]; [cbn; lia|].
  rewrite join_cons by done. rewrite !occurrences_append, IH by done.
  cbn. rewrite Ascii.eqb_refl. lia.
Qed.

(** X15: split at the newlines, the text of [toDotenvFormat] has as many
    lines as there are entries (one, the empty line, for no entry), and one
    more for every newline in a [newKey] or an [origKey] and for every
    newline of a value but its first.  For no entry the text is empty; and
    when no key holds a newline and no value more than one, there is one
    line per entry. *)
Theorem toDotenvFormat_line_count envs :
  length (Js.split LF (toDotenvFormat envs)) =
    Nat.max 1 (length envs) + sum_list (map extra_breaks envs)
  ∧ (envs = [] → toDotenvFormat envs = "")
  ∧ (envs ≠ [] →
     Forall (λ e, Js.includes LF (newKey e) = false ∧ Js.includes LF (origKey e) = false
                  ∧ occurrences LF (value e) ≤ 1) envs →
     length (Js.split LF (toDotenvFormat envs)) = length envs).
Proof.
  assert (Hcount : length (Js.split LF (toDotenvFormat envs)) =
    Nat.max 1 (length envs) + sum_list (map extra_breaks envs)).
  { rewrite length_split. destruct envs as [|e0 envs0] eqn:Henvs; [done|]. rewrite <- Henvs.
    assert (Hne : envs ≠ []) by (by subst).
    unfold toDotenvFormat.
    rewrite (map_combine_lines _ (λ line e, Js.padEnd line _ +:+ " # from " +:+ origKey e)).
    set (w := Js.Math_max _).
    rewrite occurrences_join by (by subst).
    rewrite length_map, map_map.
    assert (Hline : ∀ e,
      occurrences LF (Js.padEnd (newKey e +:+ "=" +:+ str1 DQUOTE +:+ escape (value e)
                                 +:+ str1 DQUOTE) w +:+ " # from " +:+ origKey e)
      = extra_breaks e).
    { intros e. unfold extra_breaks, Js.padEnd.
      destruct w as [t|]; rewrite !occurrences_append, ?occurrences_spaces by done;
        rewrite occurrences_escape; cbn; lia. }
    rewrite (map_ext _ _ Hline).
    destruct envs; [done|]. cbn [length]. lia. }
  split; [exact Hcount|]. split; [by intros ->|].
  intros Hne Hall. rewrite Hcount.
  assert (sum_list (map extra_breaks envs) = 0) as ->.
  { clear -Hall. induction Hall as [|e envs (Hk & Ho & Hv) _ IH]; [done|].
    cbn. rewrite IH. unfold extra_breaks.
    apply occurrences_includes in Hk, Ho. lia. }
  destruct envs; [done|]. cbn. lia.
Qed.

(** ** [convertKey] and [configToEnv], further *)

Lemma omap_cons {A B} (f : A → option B) x l :
  omap f (x :: l) = match f x with Some y => y :: omap f l | None => omap f l end.
Proof. reflexivity. Qed.

Section ConfigExportMore.

Variable toUpperCase : string -> string.
Variable keyRule : string -> KeyVerdict.
Variable Config : Type.
Variable flatten : Config -> list (string * string).

Local Abbreviation validate := (validateKey keyRule).
Local Abbreviation convert := (convertKey toUpperCase keyRule).
Local Abbreviation toEnv := (configToEnv toUpperCase keyRule Config flatten).
Local Abbreviation base := (baseKey toUpperCase).

(** X16: a key [convertKey] returns is the converted key or the prefix
    followed by it, and it has passed [validateKey], with one exception: the
    converted key is returned unvalidated when its validation failed with an
    error that is no validation error.  The converted key holds no [.] and
    no [-]. *)
Theorem convertKey_sound configKey prefix key :
  convert configKey prefix = Ok key →
  (key = base configKey ∨ key = prefix +:+ base configKey)
  ∧ (validate key = Ok tt
     ∨ (key = base configKey ∧ ∃ what, validate key = Throw (OtherError what)))
  ∧ Js.includes "." (base configKey) = false
  ∧ Js.includes "-" (base configKey) = false.
Proof.
  rewrite convertKey_cases. unfold validateKey. intros H.
  split; [|split; [|apply underscored_free]].
  - destruct (keyRule (base configKey)); [injection H as <-; by left| |injection H as <-; by left].
    destruct (keyRule (prefix +:+ base configKey)); [|done..].
    injection H as <-. by right.
  - destruct (keyRule (base configKey)) eqn:H1.
    + injection H as <-. left. by rewrite H1.
    + destruct (keyRule (prefix +:+ base configKey)) eqn:H2; [|done..].
      injection H as <-. left. by rewrite H2.
    + injection H as <-. right. split; [done|]. rewrite H1. eauto.
Qed.

Lemma toEnv_Ok configs prefix r :
  toEnv configs prefix = Ok r →
  success r = omap (success_entry toUpperCase keyRule prefix) (flatten configs)
  ∧ errors r = omap (error_entry toUpperCase keyRule prefix) (flatten configs)
  ∧ ∀ entry e, entry ∈ flatten configs → convert entry.1 prefix = Throw e →
               instanceof_KeyValidationError e = true.
Proof.
  intros Hr.
  assert (Hall : ∀ entry e, entry ∈ flatten configs → convert entry.1 prefix = Throw e →
                            instanceof_KeyValidationError e = true).
  { intros entry e Hin Hk.
    destruct (instanceof_KeyValidationError e) eqn:Hkind; [done|].
    destruct (loop_fatal toUpperCase keyRule prefix (flatten configs)
                {| success := []; errors := [] |} entry e Hin Hk Hkind) as (e' & He' & _).
    unfold configToEnv in Hr. congruence. }
  pose proof (loop_collects toUpperCase keyRule prefix (flatten configs)
                {| success := []; errors := [] |} Hall) as Hloop.
  unfold configToEnv in Hr. rewrite Hloop in Hr. injection Hr as <-. done.
Qed.

Lemma collected_partition prefix entries :
  (∀ entry e, entry ∈ entries → convert entry.1 prefix = Throw e →
              instanceof_KeyValidationError e = true) →
  map leaf_of (omap (success_entry toUpperCase keyRule prefix) entries)
    ++ map leaf_of (omap (error_entry toUpperCase keyRule prefix) entries) ≡ₚ entries.
Proof.
  induction entries as [|[k v] entries IH]; intros Hall; [done|].
  assert (IH' := IH ltac:(intros; eapply Hall; [by right|done])).
  rewrite !omap_cons. unfold success_entry at 1, error_entry at 1. cbn [fst snd].
  destruct (convert k prefix) as [key|e] eqn:Hk.
  - cbn [map app leaf_of origKey value]. apply perm_skip, IH'.
  - pose proof (Hall (k, v) e ltac:(by left) Hk) as Hkind.
    destruct e; try discriminate. cbn [map app leaf_of origKey value].
    rewrite <- Permutation_middle. apply perm_skip, IH'.
Qed.

Lemma collected_sublist (f : string * string → option EnvMap) entries :
  (∀ entry e, f entry = Some e → leaf_of e = entry) →
  sublist (map leaf_of (omap f entries)) entries.
Proof.
  intros Hf. induction entries as [|entry entries IH]; [constructor|].
  rewrite omap_cons. destruct (f entry) as [e|] eqn:He; cbn [map].
  - rewrite (Hf _ _ He). by constructor.
  - by constructor.
Qed.

(** X17: when [configToEnv] returns, every leaf of the flattened
    configuration is in exactly one of the two lists, with its key as
    [origKey] and its value: the leaves of [success] and of [errors],
    together, are the leaves up to order, each list keeps the order of the
    leaves, and the lengths add up.  A success entry has no [err] and as
    [newKey] what [convertKey] returned; an error entry has the message and
    the key of the validation error [convertKey] threw. *)
Theorem configToEnv_partition configs prefix r :
  toEnv configs prefix = Ok r →
  map leaf_of (success r) ++ map leaf_of (errors r) ≡ₚ flatten configs
  ∧ sublist (map leaf_of (success r)) (flatten configs)
  ∧ sublist (map leaf_of (errors r)) (flatten configs)
  ∧ length (success r) + length (errors r) = length (flatten configs)
  ∧ Forall (λ e, err e = None
                 ∧ convert (origKey e) prefix = Ok (newKey e)) (success r)
  ∧ Forall (λ e, ∃ message, err e = Some message
                 ∧ convert (origKey e) prefix = Throw (KeyValidationError (newKey e) message))
           (errors r).
Proof.
  intros Hr. destruct (toEnv_Ok _ _ _ Hr) as (Hs & He & Hall). rewrite Hs, He.
  pose proof (collected_partition prefix (flatten configs) Hall) as Hperm.
  split; [done|]. split; [|split; [|split; [|split]]].
  - apply collected_sublist. intros [k v] e. unfold success_entry. cbn.
    destruct (convert k prefix); [|done]. by intros [= <-].
  - apply collected_sublist. intros [k v] e. unfold error_entry. cbn.
    destruct (convert k prefix) as [|[]]; try done. by intros [= <-].
  - apply Permutation_length in Hperm. by rewrite length_app, !length_map in Hperm.
  - apply Forall_forall. intros e Hin.
    apply list_elem_of_omap in Hin as ([k v] & _ & Hin). unfold success_entry in Hin. cbn in Hin.
    destruct (convert k prefix) eqn:Hk; [|done]. injection Hin as <-. done.
  - apply Forall_forall. intros e Hin.
    apply list_elem_of_omap in Hin as ([k v] & _ & Hin). unfold error_entry in Hin. cbn in Hin.
    destruct (convert k prefix) as [|[]] eqn:Hk; try done. injection Hin as <-. cbn. eauto.
Qed.

(** X18: when the converted key of every leaf passes validation,
    [configToEnv] returns, for every prefix, a success entry per leaf, in
    order, with the converted key as [newKey], and no error: a key that is
    valid as it is never gets the prefix. *)
Theorem configToEnv_valid_keys configs prefix :
  (∀ entry, entry ∈ flatten configs → validate (base entry.1) = Ok tt) →
  toEnv configs prefix =
    Ok {| success := map (λ entry, mkEnvMap entry.1 (base entry.1) entry.2 None)
                         (flatten configs);
          errors := [] |}.
Proof.
  intros Hall. unfold configToEnv.
  assert (Hconv : ∀ entry, entry ∈ flatten configs →
                           convert entry.1 prefix = Ok (base entry.1)).
  { intros entry Hin. specialize (Hall entry Hin). unfold validateKey in Hall.
    rewrite convertKey_cases. by destruct (keyRule (base entry.1)). }
  rewrite loop_collects.
  - cbn. f_equal. clear Hall.
    induction (flatten configs) as [|entry entries IH]; [done|].
    rewrite !omap_cons. cbn [map]. unfold success_entry at 1, error_entry at 1.
    rewrite (Hconv entry) by (by left).
    assert (IH' := IH ltac:(intros; apply Hconv; by right)).
    injection IH' as IH1 IH2. cbn. by rewrite IH1, IH2.
  - intros entry e Hin Hk. rewrite (Hconv entry Hin) in Hk. discriminate.
Qed.

End ConfigExportMore.


(** ** Objects as dictionaries *)

Lemma insert_index_Permutation i p l :
  map snd (JsObject.insert_index i p l) ≡ₚ p :: map snd l.
Proof.
  induction l as [|[j q] l IH]; [done|]. cbn.
  destruct (i <=? j)%N; [done|]. cbn. rewrite IH. apply perm_swap.
Qed.

Lemma sorted_Permutation l :
  map snd (foldr (λ ip acc, JsObject.insert_index ip.1 ip.2 acc) [] l) ≡ₚ map snd l.
Proof.
  induction l as [|[i p] l IH]; [done|]. cbn.
  rewrite insert_index_Permutation. by rewrite IH.
Qed.

(** [Object.entries] lists the properties, each once. *)
Lemma entries_Permutation o : JsObject.entries o ≡ₚ o.
Proof.
  unfold JsObject.entries. rewrite sorted_Permutation.
  induction o as [|p o IH]; [done|].
  unfold JsObject.indexed, JsObject.named in *.
  rewrite omap_cons. cbn [List.filter].
  destruct (JsObject.array_index p.1).
  - cbn. by rewrite IH.
  - rewrite <- Permutation_middle. by rewrite IH.
Qed.

Lemma has_elem_of key o : JsObject.has key o = true ↔ key ∈ map fst o.
Proof.
  unfold JsObject.has. rewrite existsb_exists, list_elem_of_In, in_map_iff.
  split.
  - intros (p & Hin & Hk). apply String.eqb_eq in Hk. by exists p.
  - intros (p & Hk & Hin). exists p. split; [done|]. by apply String.eqb_eq.
Qed.

Lemma keys_includes key o :
  existsb (String.eqb key) (JsObject.keys o) = JsObject.has key o.
Proof.
  apply eq_true_iff_eq. rewrite has_elem_of, existsb_exists. unfold JsObject.keys.
  assert (Hperm : map fst (JsObject.entries o) ≡ₚ map fst o)
    by (by rewrite entries_Permutation).
  split.
  - intros (k & Hin & Hk). apply String.eqb_eq in Hk as <-.
    rewrite <- Hperm. by apply list_elem_of_In.
  - intros Hin. exists key. split; [|apply String.eqb_refl].
    apply list_elem_of_In. by rewrite Hperm.
Qed.

Lemma property_None key o : property key o = None ↔ key ∉ map fst o.
Proof.
  unfold property. induction o as [|[k v] o IH]; cbn.
  - split; [intros _ H; by apply elem_of_nil in H|done].
  - destruct (String.eqb k key) eqn:Hk; cbn.
    + apply String.eqb_eq in Hk as ->. split; [done|]. intros H. exfalso. apply H. by left.
    + apply String.eqb_neq in Hk. rewrite IH. rewrite not_elem_of_cons.
      intuition congruence.
Qed.

Lemma property_has key o : JsObject.has key o = match property key o with Some _ => true | None => false end.
Proof.
  destruct (property key o) eqn:Hp.
  - apply has_elem_of. destruct (decide (key ∈ map fst o)) as [|Hn]; [done|].
    apply property_None in Hn. congruence.
  - apply property_None in Hp. destruct (JsObject.has key o) eqn:Hh; [|done].
    apply has_elem_of in Hh. done.
Qed.

Lemma property_elem_of key v o :
  NoDup (map fst o) → (key, v) ∈ o ↔ property key o = Some v.
Proof.
  unfold property. induction o as [|[k w] o IH]; cbn; intros Hnd.
  - split; [intros H; by apply elem_of_nil in H|done].
  - apply NoDup_cons in Hnd as [Hfresh Hnd]. rewrite elem_of_cons.
    destruct (String.eqb k key) eqn:Hk; cbn.
    + apply String.eqb_eq in Hk as ->. split.
      * intros [[= ->]|Hin]; [done|]. exfalso. apply Hfresh.
        apply list_elem_of_fmap. by exists (key, v).
      * intros [= ->]. by left.
    + apply String.eqb_neq in Hk. rewrite <- IH by done. split.
      * intros [[= -> ->]|Hin]; [done|done].
      * auto.
Qed.

Lemma set_keys key v o :
  key ≠ "__proto__" →
  map fst (JsObject.set key v o) = if JsObject.has key o then map fst o else map fst o ++ [key].
Proof.
  intros Hk. unfold JsObject.set.
  assert (String.eqb key "__proto__" = false) as -> by (by apply String.eqb_neq).
  destruct (JsObject.has key o); [|by rewrite map_app].
  rewrite map_map. apply map_ext_in. intros [k w] _. cbn.
  destruct (String.eqb k key) eqn:Hkk; [|done]. by apply String.eqb_eq in Hkk.
Qed.

Lemma set_proto v o : JsObject.set "__proto__" v o = o.
Proof. reflexivity. Qed.

Lemma set_NoDup key v o : NoDup (map fst o) → NoDup (map fst (JsObject.set key v o)).
Proof.
  intros Hnd. destruct (decide (key = "__proto__")) as [->|Hk]; [done|].
  rewrite set_keys by done. destruct (JsObject.has key o) eqn:Hh; [done|].
  apply NoDup_app. split; [done|]. split; [|apply NoDup_singleton].
  intros k Hin Hk'. apply list_elem_of_singleton in Hk' as ->.
  apply has_elem_of in Hin. congruence.
Qed.

Lemma set_no_proto key v o :
  "__proto__" ∉ map fst o → "__proto__" ∉ map fst (JsObject.set key v o).
Proof.
  intros Hn. destruct (decide (key = "__proto__")) as [->|Hk]; [done|].
  rewrite set_keys by done. destruct (JsObject.has key o); [done|].
  rewrite not_elem_of_app. split; [done|]. rewrite list_elem_of_singleton. congruence.
Qed.

Lemma property_replaced key v o k :
  property k (map (λ p, if String.eqb p.1 key then (key, v) else p) o) =
  if decide (k = key) then (if JsObject.has key o then Some v else None) else property k o.
Proof.
  unfold property, JsObject.has. induction o as [|[k' w] o IH]; cbn.
  - by destruct (decide (k = key)).
  - destruct (String.eqb k' key) eqn:Hk'; cbn.
    + apply String.eqb_eq in Hk' as ->.
      destruct (decide (k = key)) as [->|Hne].
      * by rewrite String.eqb_refl.
      * assert (String.eqb key k = false) as -> by (apply String.eqb_neq; congruence).
        rewrite IH. by destruct (decide (k = key)).
    + destruct (String.eqb k' k) eqn:Hk; cbn.
      * apply String.eqb_eq in Hk as ->. apply String.eqb_neq in Hk'.
        by destruct (decide (k = key)).
      * exact IH.
Qed.

Lemma property_app key o o' :
  property key (o ++ o') =
  match property key o with
  | Some v => Some v
  | None => property key o'
  end.
Proof.
  unfold property. induction o as [|[k w] o IH]; cbn; [done|].
  destruct (String.eqb k key); cbn; [done|exact IH].
Qed.

Lemma property_set key v o k :
  key ≠ "__proto__" →
  property k (JsObject.set key v o) = if decide (k = key) then Some v else property k o.
Proof.
  intros Hkey. unfold JsObject.set.
  assert (String.eqb key "__proto__" = false) as -> by (by apply String.eqb_neq).
  destruct (JsObject.has key o) eqn:Hh.
  - rewrite property_replaced, Hh. done.
  - rewrite property_app. rewrite property_has in Hh.
    destruct (decide (k = key)) as [->|Hne].
    + destruct (property key o); [done|]. unfold property. cbn. by rewrite String.eqb_refl.
    + destruct (property k o); [done|]. unfold property. cbn.
      assert (String.eqb key k = false) as -> by (apply String.eqb_neq; congruence). done.
Qed.

(** ** [getAllProjects] *)

Lemma aliases_of_app p l l' : aliases_of p (l ++ l') = aliases_of p l ++ aliases_of p l'.
Proof. unfold aliases_of. apply omap_app. Qed.

Lemma aliases_of_singleton p alias q :
  aliases_of p [(alias, q)] = if decide (q = p ∧ alias ≠ "default") then [alias] else [].
Proof. unfold aliases_of. rewrite omap_cons. cbn. by destruct (decide _). Qed.

(** The value held for a project after the entries of a configuration. *)
Lemma alias_steps p entries : ∀ held,
  fold_left (alias_step p) entries held =
  match last (aliases_of p entries) with
  | Some alias => Some alias
  | None => if decide (p ∈ map snd entries) then Some (default p held) else held
  end.
Proof.
  induction entries as [|[alias q] entries IH] using rev_ind; intros held.
  - cbn. destruct (decide (p ∈ [])) as [H|]; [by apply elem_of_nil in H|done].
  - rewrite fold_left_app, aliases_of_app, map_app. cbn [fold_left map snd].
    rewrite IH. unfold alias_step at 1. cbn [fst snd].
    rewrite aliases_of_singleton.
    destruct (decide (q = p)) as [->|Hq].
    + assert (Hin : p ∈ map snd entries ++ [p]) by (apply elem_of_app; right; by left).
      destruct (String.eqb alias "default") eqn:Ha.
      * apply String.eqb_eq in Ha as ->.
        destruct (decide (p = p ∧ "default" ≠ "default")) as [[_ ?]|_]; [done|].
        rewrite app_nil_r.
        destruct (last (aliases_of p entries)) as [a|]; [done|].
        destruct (decide (p ∈ map snd entries ++ [p])); [|done].
        by destruct (decide (p ∈ map snd entries)), held.
      * apply String.eqb_neq in Ha.
        destruct (decide (p = p ∧ alias ≠ "default")) as [_|Hn]; [|exfalso; by apply Hn].
        by rewrite last_snoc.
    + destruct (decide (q = p ∧ alias ≠ "default")) as [[? _]|_]; [done|].
      rewrite app_nil_r.
      destruct (last (aliases_of p entries)) as [a|]; [done|].
      destruct (decide (p ∈ map snd entries)) as [Hin|Hnin].
      * destruct (decide (p ∈ map snd entries ++ [q])) as [|Hn]; [done|].
        exfalso. apply Hn, elem_of_app. by left.
      * destruct (decide (p ∈ map snd entries ++ [q])) as [Hin|]; [|done].
        apply elem_of_app in Hin as [?|Hin]; [done|].
        apply list_elem_of_singleton in Hin. congruence.
Qed.

Section ProjectsFacts.

Variable Options : Type.
Variable getProjectId : Options -> option string.
Variable loadRC_projects : Options -> option (list (string * string)).

Local Abbreviation projects_of := (getAllProjects Options getProjectId loadRC_projects).
Local Abbreviation rc options := (default [] (loadRC_projects options)).
Local Abbreviation step :=
  (λ (results : JsObject.t) '(alias, projectId),
     if String.eqb alias "default" then
       if existsb (String.eqb projectId) (JsObject.keys results)
       then results
       else JsObject.set projectId projectId results
     else JsObject.set projectId alias results).

(** A well-formed dictionary: no key twice, and no [__proto__]. *)
Local Abbreviation wf o := (NoDup (map fst o) ∧ "__proto__" ∉ map fst o).

Lemma step_wf results entry : wf results → wf (step results entry).
Proof.
  intros [Hnd Hnp]. destruct entry as [alias q]. cbn.
  destruct (String.eqb alias "default");
    [destruct (existsb _ _); [done|]|]; split; auto using set_NoDup, set_no_proto.
Qed.

Lemma step_property results entry p :
  wf results → p ≠ "__proto__" →
  property p (step results entry) = alias_step p (property p results) entry.
Proof.
  intros [Hnd Hnp] Hp. destruct entry as [alias q]. unfold alias_step. cbn [fst snd].
  destruct (decide (q = "__proto__")) as [->|Hq].
  - rewrite !set_proto. destruct (decide ("__proto__" = p)); [congruence|].
    destruct (String.eqb alias "default"); [destruct (existsb _ _)|]; done.
  - destruct (String.eqb alias "default").
    + rewrite keys_includes, property_has.
      destruct (decide (q = p)) as [->|Hne].
      * destruct (property p results) eqn:Hprop; [done|].
        rewrite property_set by done. by destruct (decide (p = p)).
      * destruct (property q results); [done|].
        rewrite property_set by done. destruct (decide (p = q)); congruence.
    + rewrite property_set by done.
      destruct (decide (q = p)) as [->|Hne]; destruct (decide _); congruence.
Qed.

Lemma steps_wf entries : ∀ results, wf results → wf (fold_left step entries results).
Proof.
  induction entries as [|entry entries IH]; intros results Hwf; [done|].
  cbn [fold_left]. apply IH. by apply step_wf.
Qed.

Lemma steps_property entries p : ∀ results,
  wf results → p ≠ "__proto__" →
  property p (fold_left step entries results) =
  fold_left (alias_step p) entries (property p results).
Proof.
  induction entries as [|entry entries IH]; intros results Hwf Hp; [done|].
  cbn [fold_left]. rewrite IH by (by auto using step_wf).
  by rewrite step_property.
Qed.

(** The dictionary [getAllProjects] builds. *)
Local Abbreviation seeded options :=
  (match getProjectId options with
   | Some projectId =>
       if truthy_string projectId then JsObject.set projectId projectId [] else []
   | None => []
   end).
Local Abbreviation results_of options :=
  (match loadRC_projects options with
   | Some projects => fold_left step projects (seeded options)
   | None => seeded options
   end).

Lemma projects_of_results options :
  projects_of options =
  map (λ '(k, v), TargetProject.mk k (Some v)) (JsObject.entries (results_of options)).
Proof. reflexivity. Qed.

Lemma seeded_wf options : wf (seeded options).
Proof.
  assert (Hnil : wf ([] : JsObject.t)).
  { split; [constructor|]. intros H. by apply elem_of_nil in H. }
  destruct (getProjectId options) as [p|]; [|exact Hnil].
  destruct (truthy_string p); [|exact Hnil].
  destruct Hnil. split; auto using set_NoDup, set_no_proto.
Qed.

Lemma seeded_property options p :
  p ≠ "__proto__" →
  property p (seeded options) =
  if decide (getProjectId options = Some p ∧ p ≠ "") then Some p else None.
Proof.
  intros Hp. destruct (getProjectId options) as [p0|].
  - rewrite truthy_string_decide. destruct (decide (p0 = "")) as [->|Hne].
    + destruct (decide _) as [[Heq Hnn]|]; [|done]. exfalso. injection Heq as Heq. congruence.
    + destruct (decide (p0 = "__proto__")) as [->|Hp0].
      * rewrite set_proto. destruct (decide _) as [[Heq Hnn]|]; [|done]. exfalso. injection Heq as Heq. congruence.
      * rewrite property_set by done.
        destruct (decide (p = p0)) as [->|Hpp].
        -- destruct (decide _) as [|Hn]; [done|]. exfalso. by apply Hn.
        -- destruct (decide _) as [[Heq Hnn]|]; [|done]. exfalso. injection Heq as Heq. congruence.
  - destruct (decide _) as [[? ?]|]; done.
Qed.

Lemma results_wf options : wf (results_of options).
Proof.
  destruct (loadRC_projects options); [apply steps_wf|]; apply seeded_wf.
Qed.

Lemma results_property options p :
  p ≠ "__proto__" →
  property p (results_of options) =
  match last (aliases_of p (rc options)) with
  | Some alias => Some alias
  | None =>
      if decide ((getProjectId options = Some p ∧ p ≠ "") ∨ p ∈ map snd (rc options))
      then Some p else None
  end.
Proof.
  intros Hp.
  assert (Hfold : property p (results_of options) =
                  fold_left (alias_step p) (rc options) (property p (seeded options))).
  { destruct (loadRC_projects options) as [entries|]; cbn [default].
    - apply steps_property; [apply seeded_wf|done].
    - done. }
  rewrite Hfold, alias_steps, seeded_property by done.
  destruct (last _); [done|].
  destruct (decide (getProjectId options = Some p ∧ p ≠ "")) as [Hopt|Hopt].
  - destruct (decide (p ∈ map snd (rc options))); destruct (decide (_ ∨ _)) as [|Hn]; try done.
    + exfalso. apply Hn. by left.
    + exfalso. apply Hn. by left.
  - destruct (decide (p ∈ map snd (rc options))); destruct (decide (_ ∨ _)) as [Hy|Hn]; try done.
    + exfalso. apply Hn. by right.
    + exfalso. destruct Hy; done.
Qed.

Lemma results_proto options : property "__proto__" (results_of options) = None.
Proof. apply property_None. apply results_wf. Qed.

Lemma projects_of_elem options t :
  t ∈ projects_of options ↔
  ∃ v, TargetProject.alias t = Some v
       ∧ property (TargetProject.projectId t) (results_of options) = Some v.
Proof.
  rewrite projects_of_results, list_elem_of_fmap.
  destruct (results_wf options) as [Hnd _]. split.
  - intros ([k v] & -> & Hin). exists v. split; [done|]. cbn.
    apply property_elem_of; [done|]. by rewrite <- (entries_Permutation (results_of options)).
  - intros (v & Ha & Hp). exists (TargetProject.projectId t, v). split.
    + destruct t as [k a]. cbn in *. by rewrite Ha.
    + rewrite entries_Permutation. by apply property_elem_of.
Qed.

Lemma aliases_of_not_default p entries :
  Forall (λ alias, alias ≠ "default") (aliases_of p entries).
Proof.
  unfold aliases_of. apply Forall_forall. intros alias Hin.
  apply list_elem_of_omap in Hin as ([a q] & _ & H). cbn in H.
  destruct (decide _) as [[_ ?]|]; [|done]. by injection H as <-.
Qed.

(** X19: [getAllProjects] lists no project twice, and it lists exactly the
    project of the options, when [getProjectId] gives a non-empty one, and
    the projects of the configuration [loadRC] reads, under whatever alias;
    but for a project with the id [__proto__], which is never listed. *)
Theorem getAllProjects_each_once options :
  NoDup (map TargetProject.projectId
             (getAllProjects Options getProjectId loadRC_projects options))
  ∧ ∀ p, p ∈ map TargetProject.projectId
                 (getAllProjects Options getProjectId loadRC_projects options) ↔
         p ≠ "__proto__"
         ∧ ((getProjectId options = Some p ∧ p ≠ "")
            ∨ ∃ alias, (alias, p) ∈ rc options).
Proof.
  split.
  - rewrite projects_of_results, map_map.
    destruct (results_wf options) as [Hnd _].
    rewrite (map_ext _ fst) by (by intros [k v]).
    by rewrite entries_Permutation.
  - intros p. rewrite list_elem_of_fmap.
    assert (Hlisted : p ∈ map snd (rc options) ↔ ∃ alias, (alias, p) ∈ rc options).
    { rewrite list_elem_of_fmap. split.
      - intros ([a q] & -> & Hin). by exists a.
      - intros (a & Hin). by exists (a, p). }
    split.
    + intros (t & -> & Hin). apply projects_of_elem in Hin as (v & _ & Hprop).
      destruct (decide (TargetProject.projectId t = "__proto__")) as [Heq|Hne].
      { rewrite Heq, results_proto in Hprop. done. }
      split; [done|]. rewrite results_property in Hprop by done.
      destruct (last (aliases_of _ _)) as [a|] eqn:Hlast.
      * right. apply last_Some in Hlast as (l' & Hl').
        assert (Hin : a ∈ aliases_of (TargetProject.projectId t) (rc options)).
        { rewrite Hl'. apply elem_of_app. right. by left. }
        unfold aliases_of in Hin. apply list_elem_of_omap in Hin as ([a' q] & Hin & H).
        cbn in H. destruct (decide _) as [[<- _]|]; [|done]. injection H as <-. eauto.
      * destruct (decide _) as [[?|?]|]; [by left|right; by apply Hlisted|done].
    + intros (Hp & Hsrc).
      assert (Hprop : is_Some (property p (results_of options))).
      { rewrite results_property by done. destruct (last _); [done|].
        destruct (decide _) as [|Hn]; [done|]. exfalso. apply Hn.
        destruct Hsrc; [by left|right; by apply Hlisted]. }
      destruct Hprop as [v Hv]. exists (TargetProject.mk p (Some v)). split; [done|].
      apply projects_of_elem. by exists v.
Qed.

(** X20: the alias [getAllProjects] gives a project is the last alias
    other than [default] under which the configuration lists it, and the
    project id itself when there is none: a project that has several
    aliases is listed under the last one only, and the alias [default] is
    given to no project but one whose id is [default]. *)
Theorem getAllProjects_alias options t :
  t ∈ getAllProjects Options getProjectId loadRC_projects options →
  TargetProject.alias t = Some (alias_for (TargetProject.projectId t) (rc options))
  ∧ (TargetProject.alias t = Some "default" → TargetProject.projectId t = "default").
Proof.
  intros Hin. apply projects_of_elem in Hin as (v & Ha & Hprop).
  assert (Hne : TargetProject.projectId t ≠ "__proto__").
  { intros Heq. rewrite Heq, results_proto in Hprop. done. }
  rewrite results_property in Hprop by done.
  assert (Hv : v = alias_for (TargetProject.projectId t) (rc options)).
  { unfold alias_for. destruct (last _); [by injection Hprop|].
    destruct (decide _); [by injection Hprop|done]. }
  split; [by rewrite Ha, Hv|].
  rewrite Ha. intros [= Hd]. rewrite Hd in Hv. unfold alias_for in Hv.
  destruct (last _) as [a|] eqn:Hlast; cbn in Hv; [|done].
  exfalso. apply last_Some in Hlast as (l' & Hl').
  pose proof (aliases_of_not_default (TargetProject.projectId t) (rc options)) as Hall.
  rewrite Hl', Forall_app, Forall_singleton in Hall. destruct Hall as [_ Hneq]. congruence.
Qed.

End ProjectsFacts.

(** ** The command: the projects it goes on with *)

Section CommandFacts.

Variable toUpperCase : string -> string.
Variable keyRule : string -> KeyVerdict.
Variable Config : Type.
Variable flatten : Config -> list (string * string).
Variable bold : string -> string.
Variable testIamPermissions : string -> list string -> result IamResult.
Variable user : nat -> Question -> JsValue.
Variable materializeAll : nat -> string -> result Config.

Local Abbreviation checkPermission := (checkRequiredPermission bold testIamPermissions user).
Local Abbreviation checkAlias := (checkReservedAlias bold user).
Local Abbreviation select := (action_select bold testIamPermissions user).
Local Abbreviation permitted' := (permitted testIamPermissions).
Local Abbreviation eligible' := (eligible testIamPermissions).
Local Abbreviation toEnv := (configToEnv toUpperCase keyRule Config flatten).
Local Abbreviation convert_all :=
  (action_convert toUpperCase keyRule Config flatten materializeAll).
Local Abbreviation while := (action_while toUpperCase keyRule Config flatten bold user materializeAll).

Local Abbreviation asks := (asks user).

Lemma checkRequiredPermission_cases project w :
  match testIamPermissions (TargetProject.projectId project) REQUIRED_PERMISSIONS with
  | Throw e => checkPermission project w = (Throw e, w)
  | Ok result =>
      if passed result then checkPermission project w = (Ok true, w)
      else asks (checkPermission project w) w
  end.
Proof.
  unfold checkRequiredPermission, mbind, lift.
  destruct (testIamPermissions _ _) as [r|e]; [|done].
  destruct (passed r); [done|].
  unfold asks, logWarning, promptOnce, mutate. cbn -[String.append].
  match goal with |- context [user _ ?q] => exists q end. eexists [_].
  destruct (truthy _); reflexivity.
Qed.

Lemma checkReservedAlias_cases project w :
  if reserved project then asks (checkAlias project w) w
  else checkAlias project w = (Ok true, w).
Proof.
  unfold checkReservedAlias, reserved, mbind.
  destruct (TargetProject.alias project) as [alias|]; [|done].
  destruct (decide (alias = "local")) as [->|Hne].
  - rewrite bool_decide_eq_true_2 by done.
    unfold asks, logWarning, promptOnce, mutate. cbn -[String.append].
    match goal with |- context [user _ ?q] => exists q end. eexists [_; _].
    destruct (truthy _); cbn -[String.append]; rewrite <- ?app_assoc; reflexivity.
  - rewrite bool_decide_eq_false_2 by congruence.
    assert (existsb (String.eqb alias) RESERVED_PROJECT_ALIAS = false) as ->.
    { cbn. rewrite orb_false_r. by apply String.eqb_neq. }
    by rewrite orb_true_r.
Qed.

Lemma select_cons project rest projects w :
  select (project :: rest) projects w =
  match checkPermission project w with
  | (Ok permitted, w1) =>
      match (if permitted then checkAlias project else mret false) w1 with
      | (Ok free, w2) => select rest (if free then projects ++ [project] else projects) w2
      | (Throw e, w2) => (Throw e, w2)
      end
  | (Throw e, w1) => (Throw e, w1)
  end.
Proof.
  cbn [action_select]. unfold mbind.
  destruct (checkPermission project w) as [[p|e] w1]; [|done].
  by destruct p; [destruct (checkAlias project w1) as [[f|e] w2]|].
Qed.

(** One turn of the selection. *)
Lemma select_step project rest projects w :
  (eligible' project = true ∧
     select (project :: rest) projects w = select rest (projects ++ [project]) w)
  ∨ (eligible' project = false ∧
     ((∃ e, testIamPermissions (TargetProject.projectId project) REQUIRED_PERMISSIONS = Throw e
            ∧ select (project :: rest) projects w = (Throw e, w))
      ∨ ∃ question warnings,
          let w' := mkWorld (outputs w ++ warnings) (asked w ++ [question]) (fetched w) in
          select (project :: rest) projects w =
            if truthy (user (length (asked w)) question) then select rest projects w'
            else (Throw command_aborted, w'))).
Proof.
  rewrite select_cons. unfold eligible, permitted.
  pose proof (checkRequiredPermission_cases project w) as Hperm.
  destruct (testIamPermissions _ _) as [r|e].
  - destruct (passed r).
    + rewrite Hperm. cbn iota.
      pose proof (checkReservedAlias_cases project w) as Halias.
      destruct (reserved project).
      * right. split; [done|]. right.
        destruct Halias as (q & ws & ->). exists q, ws. cbn zeta. by destruct (truthy _).
      * left. split; [done|]. by rewrite Halias.
    + right. split; [done|]. right.
      destruct Hperm as (q & ws & ->). exists q, ws. cbn zeta. by destruct (truthy _).
  - right. split; [done|]. left. exists e. by rewrite Hperm.
Qed.

(** X21: the selection of the action goes on with the projects whose
    permissions are there and whose alias is not the reserved [local], in
    order.  It asks one question for every other project, in order, and
    fetches nothing.  When it returns, a question was asked for every such
    project and every answer was a yes; when it throws, either the last
    question asked was answered with a no and the error is "Command
    aborted!", or the error is the one [testIamPermissions] failed with for
    a project. *)
Theorem action_select_outcome allProjects : ∀ projects w,
  let run := select allProjects projects w in
  fetched run.2 = fetched w
  ∧ (∃ questions warnings,
       asked run.2 = asked w ++ questions ∧ outputs run.2 = outputs w ++ warnings
       ∧ length questions ≤ length (List.filter (λ p, negb (eligible' p)) allProjects))
  ∧ match run.1 with
    | Ok selected =>
        selected = projects ++ List.filter eligible' allProjects
        ∧ length (asked run.2) =
            length (asked w) + length (List.filter (λ p, negb (eligible' p)) allProjects)
        ∧ ∀ i question, asked run.2 !! i = Some question → length (asked w) ≤ i →
                        truthy (user i question) = true
    | Throw e =>
        (e = command_aborted
         ∧ ∃ question, last (asked run.2) = Some question
                       ∧ length (asked w) < length (asked run.2)
                       ∧ truthy (user (length (asked run.2) - 1) question) = false)
        ∨ (∃ project, project ∈ allProjects
             ∧ testIamPermissions (TargetProject.projectId project) REQUIRED_PERMISSIONS
               = Throw e)
    end.
Proof.
  induction allProjects as [|project rest IH]; intros projects w run.
  - subst run. cbn. split; [done|]. split.
    + exists [], []. by rewrite !app_nil_r.
    + rewrite app_nil_r. split; [done|]. split; [lia|]. intros i q Hq Hi.
      apply lookup_lt_Some in Hq. lia.
  - subst run.
    destruct (select_step project rest projects w)
      as [[Hel ->]|[Hel [(e & He & ->)|(q & ws & Hrun)]]].
    + cbn [List.filter]. rewrite Hel. cbn [negb].
      destruct (IH (projects ++ [project]) w) as (Hf & Hq & Hres).
      split; [done|]. split; [done|].
      destruct (select rest (projects ++ [project]) w).1; [|].
      * destruct Hres as (-> & ? & ?). by rewrite <- app_assoc.
      * destruct Hres as [?|(p & ? & ?)]; [by left|right]. exists p. split; [by right|done].
    + cbn. split; [done|]. split.
      * exists [], []. rewrite !app_nil_r. split; [done|]. split; [done|]. apply Nat.le_0_l.
      * right. exists project. split; [by left|done].
    + cbn zeta in Hrun. rewrite Hrun. cbn [List.filter]. rewrite Hel. cbn [negb length].
      set (w1 := mkWorld _ _ _) in *.
      destruct (truthy (user (length (asked w)) q)) eqn:Hans.
      * destruct (IH projects w1) as (Hf & (qs & ws' & Hqs & Hws & Hlen) & Hres).
        split; [done|]. split.
        { exists (q :: qs), (ws ++ ws'). rewrite Hqs, Hws. cbn.
          rewrite <- !app_assoc. split; [done|]. split; [done|]. lia. }
        destruct (select rest projects w1).1.
        -- destruct Hres as (-> & Hcount & Hall). split; [done|]. split.
           { rewrite Hcount. cbn. rewrite length_app. cbn. lia. }
           intros i q' Hq' Hi. destruct (decide (i = length (asked w))) as [->|Hne].
           ++ rewrite Hqs in Hq'. cbn in Hq'.
              rewrite <- app_assoc, lookup_app_r in Hq' by lia.
              rewrite Nat.sub_diag in Hq'. cbn in Hq'. injection Hq' as <-. done.
           ++ apply (Hall i q' Hq'). cbn. rewrite length_app. cbn. lia.
        -- destruct Hres as [(-> & q' & Hlast & Hlt & Hno)|(p & ? & ?)].
           ++ left. split; [done|]. exists q'. split; [done|]. split; [|done].
              cbn in Hlt. rewrite length_app in Hlt. cbn in Hlt. lia.
           ++ right. exists p. split; [by right|done].
      * cbn. split; [done|]. split.
        { exists [q], ws. split; [done|]. split; [done|]. cbn. lia. }
        left. split; [done|]. exists q. rewrite last_snoc, length_app. cbn.
        split; [done|]. split; [lia|].
        by replace (length (asked w) + 1 - 1) with (length (asked w)) by lia.
Qed.

(** X22: when [testIamPermissions] answers for every project and the user
    answers every question with a yes, the selection returns, with the
    projects whose permissions are there and whose alias is not reserved. *)
Theorem action_select_completes allProjects projects w :
  (∀ project, project ∈ allProjects →
     ∃ result, testIamPermissions (TargetProject.projectId project) REQUIRED_PERMISSIONS
               = Ok result) →
  (∀ i question, length (asked w) ≤ i → truthy (user i question) = true) →
  (select allProjects projects w).1 = Ok (projects ++ List.filter eligible' allProjects).
Proof.
  revert projects w. induction allProjects as [|project rest IH]; intros projects w Hiam Hyes.
  - cbn. by rewrite app_nil_r.
  - destruct (select_step project rest projects w)
      as [[Hel ->]|[Hel [(e & He & _)|(q & ws & Hrun)]]].
    + cbn [List.filter]. rewrite Hel, IH; [by rewrite <- app_assoc| |done].
      intros p Hp. apply Hiam. by right.
    + destruct (Hiam project) as [r Hr]; [by left|]. congruence.
    + cbn zeta in Hrun. rewrite Hrun, Hyes by done. cbn [List.filter]. rewrite Hel.
      apply IH.
      * intros p Hp. apply Hiam. by right.
      * intros i q' Hi. apply Hyes. cbn in Hi. rewrite length_app in Hi. lia.
Qed.

End CommandFacts.

(** ** The command: the loop of conversions *)

Section LoopFacts.

Variable toUpperCase : string -> string.
Variable keyRule : string -> KeyVerdict.
Variable Config : Type.
Variable flatten : Config -> list (string * string).
Variable bold : string -> string.
Variable user : nat -> Question -> JsValue.
Variable materializeAll : nat -> string -> result Config.

Local Abbreviation toEnv := (configToEnv toUpperCase keyRule Config flatten).
Local Abbreviation convert_all :=
  (action_convert toUpperCase keyRule Config flatten materializeAll).
Local Abbreviation while :=
  (action_while toUpperCase keyRule Config flatten bold user materializeAll).
Local Abbreviation ask_prefix := (promptForPrefix bold user).
Local Abbreviation prefix_of := (prefix_of_turn user).
Local Abbreviation clean results :=
  (forallb (λ result, (length (errors (configToEnvResult result)) =? 0)%nat) results).

Lemma clean_Forall results :
  clean results = true ↔ Forall (λ r, errors (configToEnvResult r) = []) results.
Proof.
  rewrite forallb_forall, Forall_forall. split; intros H r Hr.
  - apply list_elem_of_In, H, Nat.eqb_eq in Hr. by destruct (errors _).
  - apply list_elem_of_In, H in Hr. by rewrite Hr.
Qed.

(** [promptForPrefix] prints, asks its question and returns the answer. *)
Lemma promptForPrefix_run conversions w :
  ∃ warnings,
    ask_prefix conversions w =
      (Ok (user (length (asked w)) prefix_question),
       mkWorld (outputs w ++ warnings) (asked w ++ [prefix_question]) (fetched w)).
Proof.
  unfold promptForPrefix.
  assert (Hloop : ∀ (body : Conversion → string) conversions w,
    ∃ warnings,
      for_of conversions (λ conversion,
        if (length (errors (configToEnvResult conversion)) =? 0)%nat then mret tt
        else logWarning (body conversion)) w
      = (Ok tt, mkWorld (outputs w ++ warnings) (asked w) (fetched w))).
  { clear. intros body conversions. induction conversions as [|c cs IH]; intros w.
    - exists []. rewrite app_nil_r. by destruct w.
    - cbn [for_of]. unfold mbind.
      destruct (length (errors (configToEnvResult c)) =? 0)%nat; cbn.
      + apply IH.
      + destruct (IH (mkWorld (outputs w ++ [Warning (body c)]) (asked w) (fetched w)))
          as (ws & ->). cbn. eexists (_ :: ws). by rewrite <- app_assoc. }
  unfold mbind at 1. cbn -[String.append for_of].
  unfold mbind.
  match goal with |- context [for_of conversions ?f ?w0] =>
    match f with (λ conversion, if _ then _ else logWarning (@?body conversion)) =>
      destruct (Hloop body conversions w0) as (ws & ->) end end.
  cbn -[String.append]. eexists (_ :: ws). by rewrite <- app_assoc.
Qed.

(** The conversions of a turn: one per project, in order, of the
    configuration fetched for it. *)
Lemma convert_all_run prefix projects : ∀ results w rs w',
  convert_all prefix projects results w = (Ok rs, w') →
  ∃ convs,
    rs = results ++ convs
    ∧ map project convs = projects
    ∧ Forall (λ c, ∃ n configs,
        materializeAll n (TargetProject.projectId (project c)) = Ok configs
        ∧ toEnv configs prefix = Ok (configToEnvResult c)) convs
    ∧ outputs w' = outputs w ∧ asked w' = asked w
    ∧ fetched w' = fetched w ++ map TargetProject.projectId projects.
Proof.
  induction projects as [|p rest IH]; intros results w rs w' Hrun.
  - cbn in Hrun. injection Hrun as <- <-. exists []. rewrite !app_nil_r. by repeat split.
  - cbn [action_convert] in Hrun. unfold mbind, fetch, lift in Hrun.
    destruct (materializeAll (length (fetched w)) (TargetProject.projectId p))
      as [configs|e] eqn:Hfetch; [|done].
    destruct (toEnv configs prefix) as [r|e] eqn:Hconv; [|done].
    apply IH in Hrun as (convs & -> & Hps & Hall & Hout & Hask & Hfet).
    exists (mkConversion p r :: convs). cbn in *.
    rewrite <- app_assoc. split; [done|]. split; [by rewrite Hps|]. split.
    + constructor; [|done]. cbn. eauto.
    + rewrite Hfet, <- app_assoc. done.
Qed.

Lemma convert_all_stable (config : string → Config) prefix projects : ∀ results w,
  (∀ n p, materializeAll n p = Ok (config p)) →
  Forall (converts toUpperCase keyRule Config flatten config prefix) projects →
  convert_all prefix projects results w =
    (Ok (results ++ map (conversion_of toUpperCase keyRule Config flatten config prefix) projects),
     mkWorld (outputs w) (asked w) (fetched w ++ map TargetProject.projectId projects)).
Proof.
  intros results w Hstable Hall. revert results w.
  induction Hall as [|p rest [r Hr] _ IH]; intros results w.
  - cbn. rewrite !app_nil_r. by destruct w.
  - cbn [action_convert]. unfold mbind, fetch, lift. rewrite Hstable, Hr.
    rewrite IH. cbn. unfold conversion_of at 2. rewrite Hr, <- !app_assoc. done.
Qed.

Lemma prefix_of_turn_next prefix n k question_answer :
  question_answer = to_string (user n prefix_question) →
  prefix_of question_answer (S n) k = prefix_of prefix n (S k).
Proof.
  intros ->. destruct k as [|k]; cbn.
  - by rewrite Nat.add_0_r.
  - by rewrite Nat.add_succ_r.
Qed.

(** X23: when the loop of the action ends, there is one conversion per
    project, in order, and none has an error.  The loop has then asked for a
    prefix once per turn before the last and fetched the configuration of
    every project once per turn; and every conversion is that of a fetched
    configuration with the prefix of the last turn: the prefix the loop was
    started with if that is the first turn, the last answer otherwise. *)
Theorem action_while_sound turns : ∀ projects prefix w results w',
  while turns projects prefix [] w = (Ok (Some results), w') →
  map project results = projects
  ∧ Forall (λ r, errors (configToEnvResult r) = []) results
  ∧ ∃ k, k < turns
      ∧ asked w' = asked w ++ repeat prefix_question k
      ∧ fetched w' =
          fetched w ++ concat (repeat (map TargetProject.projectId projects) (S k))
      ∧ Forall (λ r, ∃ n configs,
          materializeAll n (TargetProject.projectId (project r)) = Ok configs
          ∧ toEnv configs (prefix_of prefix (length (asked w)) k) = Ok (configToEnvResult r))
          results.
Proof.
  induction turns as [|turns IH]; intros projects prefix w results w' Hrun; [done|].
  cbn [action_while] in Hrun. unfold mbind at 1 in Hrun.
  destruct (convert_all prefix projects [] w) as [[rs|e] w1] eqn:Hconv; [|done].
  apply convert_all_run in Hconv as (convs & -> & Hps & Hall & Hout & Hask & Hfet).
  cbn [app] in Hrun.
  destruct (clean convs) eqn:Hclean.
  - injection Hrun as <- <-. apply clean_Forall in Hclean.
    split; [done|]. split; [done|]. exists 0. cbn.
    rewrite !app_nil_r. split; [lia|]. split; [done|]. by split.
  - unfold mbind in Hrun.
    destruct (promptForPrefix_run convs w1) as (ws & Hask1). rewrite Hask1 in Hrun.
    apply IH in Hrun as (Hps' & Hclean' & k & Hk & Hasked & Hfetched & Hall').
    split; [done|]. split; [done|]. exists (S k). cbn [asked fetched] in *.
    split; [lia|]. split; [|split].
    + rewrite Hasked, Hask, <- app_assoc. done.
    + rewrite Hfetched, Hfet, <- app_assoc. done.
    + rewrite length_app, Nat.add_1_r in Hall'.
      rewrite (prefix_of_turn_next prefix) in Hall' by done.
      rewrite Hask in Hall'. exact Hall'.
Qed.

(** X24: when the configurations can be fetched and do not change, and the
    keys convert in the first [k] turns, each time with an error left, and
    convert with no error under the prefix of the turn after, the loop ends
    in that turn, given the turns: it has asked [k] times and returns the
    conversions under that prefix.  With no project it ends in the first
    turn, having asked nothing. *)
Theorem action_while_ends (config : string → Config) k : ∀ turns projects prefix w,
  (∀ n p, materializeAll n p = Ok (config p)) →
  (∀ i, i < k →
     Forall (converts toUpperCase keyRule Config flatten config
               (prefix_of prefix (length (asked w)) i)) projects
     ∧ ¬ Forall (converts_clean toUpperCase keyRule Config flatten config
                   (prefix_of prefix (length (asked w)) i)) projects) →
  Forall (converts_clean toUpperCase keyRule Config flatten config
            (prefix_of prefix (length (asked w)) k)) projects →
  k < turns →
  ∃ w',
    while turns projects prefix [] w =
      (Ok (Some (map (conversion_of toUpperCase keyRule Config flatten config
                        (prefix_of prefix (length (asked w)) k)) projects)), w')
    ∧ asked w' = asked w ++ repeat prefix_question k
    ∧ fetched w' = fetched w ++ concat (repeat (map TargetProject.projectId projects) (S k)).
Proof.
  assert (Hclean : ∀ prefix projects,
    Forall (converts toUpperCase keyRule Config flatten config prefix) projects →
    clean (map (conversion_of toUpperCase keyRule Config flatten config prefix) projects) = true
    ↔ Forall (converts_clean toUpperCase keyRule Config flatten config prefix) projects).
  { intros prefix projects Hconv. rewrite clean_Forall, Forall_fmap.
    split; intros Hall.
    - apply Forall_forall. intros p Hp.
      rewrite Forall_forall in Hall, Hconv.
      destruct (Hconv p Hp) as [r Hr]. specialize (Hall p Hp).
      unfold conversion_of in Hall. cbn in Hall. rewrite Hr in Hall. by exists r.
    - eapply Forall_impl; [exact Hall|]. intros p [r [Hr He]].
      unfold conversion_of. cbn. by rewrite Hr. }
  induction k as [|k IH]; intros turns projects prefix w Hstable Hdirty Hlast Hturns.
  - destruct turns as [|turns]; [lia|]. cbn [prefix_of_turn] in *.
    assert (Hconv : Forall (converts toUpperCase keyRule Config flatten config prefix) projects).
    { eapply Forall_impl; [exact Hlast|]. intros p [r [Hr _]]. by exists r. }
    cbn [action_while]. unfold mbind at 1.
    rewrite (convert_all_stable config) by done. cbn [app].
    rewrite (proj2 (Hclean prefix projects Hconv) Hlast).
    eexists. split; [reflexivity|]. cbn. by rewrite !app_nil_r.
  - destruct turns as [|turns]; [lia|].
    destruct (Hdirty 0 ltac:(lia)) as [Hconv Hnot]. cbn [prefix_of_turn] in Hconv, Hnot.
    cbn [action_while]. unfold mbind at 1.
    rewrite (convert_all_stable config) by done. cbn [app].
    destruct (clean _) eqn:Hc.
    { exfalso. apply Hnot. by apply Hclean. }
    unfold mbind.
    set (w1 := mkWorld _ _ _).
    destruct (promptForPrefix_run
                (map (conversion_of toUpperCase keyRule Config flatten config prefix) projects) w1)
      as (ws & ->).
    set (w2 := mkWorld _ _ _). set (prefix' := to_string _).
    assert (Hshift : ∀ i, prefix_of prefix' (length (asked w2)) i
                          = prefix_of prefix (length (asked w)) (S i)).
    { intros i. subst w2 w1. cbn [asked]. rewrite length_app, Nat.add_1_r.
      by apply prefix_of_turn_next. }
    destruct (IH turns projects prefix' w2) as (w' & -> & Hasked & Hfetched).
    + done.
    + intros i Hi. rewrite Hshift. apply Hdirty. lia.
    + by rewrite Hshift.
    + lia.
    + exists w'. rewrite Hshift. split; [done|]. rewrite Hasked, Hfetched.
      subst w2 w1. cbn [asked fetched]. rewrite <- !app_assoc. done.
Qed.

End LoopFacts.

(** ** The command: the action *)

Section ActionFacts.

Variable toUpperCase : string -> string.
Variable keyRule : string -> KeyVerdict.
Variable Config : Type.
Variable flatten : Config -> list (string * string).
Variable Options : Type.
Variable getProjectId : Options -> option string.
Variable loadRC_projects : Options -> option (list (string * string)).
Variable bold : string -> string.
Variable testIamPermissions : string -> list string -> result IamResult.
Variable user : nat -> Question -> JsValue.
Variable materializeAll : nat -> string -> result Config.

Local Abbreviation select := (action_select bold testIamPermissions user).
Local Abbreviation eligible' := (eligible testIamPermissions).
Local Abbreviation while :=
  (action_while toUpperCase keyRule Config flatten bold user materializeAll).
Local Abbreviation run :=
  (action toUpperCase keyRule Config flatten Options getProjectId loadRC_projects bold
          testIamPermissions user materializeAll).
Local Abbreviation projects_of := (getAllProjects Options getProjectId loadRC_projects).




End ActionFacts.


(** * Concrete runs *)

Module Runs.
Import Examples.

(** ** Key conversion and export *)

Example convert_plain : convert "some-service.key" "CONFIG_" = Ok "SOME_SERVICE_KEY".
Proof. reflexivity. Qed.

Example convert_reserved : convert "firebase.key" "CONFIG_" = Ok "CONFIG_FIREBASE_KEY".
Proof. reflexivity. Qed.

Example convert_still_invalid :
  convert "firebase.key" "" = Throw (KeyValidationError "FIREBASE_KEY" "reserved prefix").
Proof. reflexivity. Qed.

(** A failure of the first validation that is no validation failure is
    dropped by [convertKey]: the key is returned as if it were valid. *)
Example convert_drops_other_failure : convert "crash" "CONFIG_" = Ok "CRASH".
Proof. reflexivity. Qed.

(** One of the second validation reaches [configToEnv], which wraps it. *)
Example toEnv_aborts :
  convert "" "CRASH" = Throw (OtherError "out of memory")
  ∧ toEnv [("a.b", "1"); ("", "2"); ("c", "3")] "CRASH" =
    Throw (unexpected (OtherError "out of memory")).
Proof. split; reflexivity. Qed.

(** C4: a failure of another kind than a validation failure, raised by the
    first validation of a key, does not abort [configToEnv]: [convertKey]
    catches it, tests only for a validation failure and returns the key
    as it stands, so the leaf is listed as a success under a key that was
    never validated.  The same failure raised by the second validation
    leaves [convertKey] and aborts the call. *)
Lemma configToEnv_drops_other_failure :
  validateKey keyRule "CRASH" = Throw (OtherError "out of memory")
  ∧ instanceof_KeyValidationError (OtherError "out of memory") = false
  ∧ convert "crash" "CONFIG_" = Ok "CRASH"
  ∧ toEnv [("a.b", "1"); ("crash", "2")] "CONFIG_" =
    Ok {| success := [mkEnvMap "a.b" "A_B" "1" None; mkEnvMap "crash" "CRASH" "2" None];
          errors := [] |}
  ∧ toEnv [("a.b", "1"); ("", "2")] "CRASH" =
    Throw (unexpected (OtherError "out of memory")).
Proof. repeat split; reflexivity. Qed.

Example toEnv_leaf : toEnv [("a.b", "1")] "" =
  Ok {| success := [mkEnvMap "a.b" "A_B" "1" None]; errors := [] |}.
Proof. reflexivity. Qed.

(** Only the first newline is escaped; every quote is. *)
Example escape_first_newline_only :
  escape ("a" +:+ str1 LF +:+ "b" +:+ str1 LF +:+ "it's")
  = "a\nb" +:+ str1 LF +:+ "it\'s".
Proof. reflexivity. Qed.

Example dotenv_two_lines :
  toDotenvFormat [mkEnvMap "a.b" "A_B" "1" None; mkEnvMap "long.key" "LONG_KEY" "x y" None]
  = "A_B=" +:+ str1 DQUOTE +:+ "1" +:+ str1 DQUOTE +:+ Js.spaces 7 +:+ " # from a.b" +:+ str1 LF
    +:+ "LONG_KEY=" +:+ str1 DQUOTE +:+ "x y" +:+ str1 DQUOTE +:+ " # from long.key".
Proof. reflexivity. Qed.

Example dotenv_nothing : toDotenvFormat [] = "".
Proof. reflexivity. Qed.

Lemma toDotenvFormat_aligned_witness :
  ∃ width,
    toDotenvFormat [mkEnvMap "a.b" "A_B" "1" None; mkEnvMap "long.key" "LONG_KEY" "x y" None] =
      Js.join (str1 LF)
        (map (λ e, rendered e +:+ Js.spaces (width - String.length (rendered e))
                   +:+ " # from " +:+ origKey e)
             [mkEnvMap "a.b" "A_B" "1" None; mkEnvMap "long.key" "LONG_KEY" "x y" None])
    ∧ (∀ e, e ∈ [mkEnvMap "a.b" "A_B" "1" None; mkEnvMap "long.key" "LONG_KEY" "x y" None] →
         String.length (rendered e) ≤ width)
    ∧ (∃ e, e ∈ [mkEnvMap "a.b" "A_B" "1" None; mkEnvMap "long.key" "LONG_KEY" "x y" None]
            ∧ String.length (rendered e) = width)
    ∧ (∀ e, e ∈ [mkEnvMap "a.b" "A_B" "1" None; mkEnvMap "long.key" "LONG_KEY" "x y" None] →
         String.length (rendered e +:+ Js.spaces (width - String.length (rendered e))) = width)
    ∧ (∀ s, escape s = escaped s).
Proof. apply toDotenvFormat_aligned. discriminate. Defined.

Lemma convertKey_prefix_fallback_witness :
  convert "some-service.key" "CONFIG_" = Ok "SOME_SERVICE_KEY"
  ∧ convert "firebase.key" "CONFIG_" = Ok "CONFIG_FIREBASE_KEY"
  ∧ convert "firebase.key" "FIREBASE_" =
      Throw (KeyValidationError "FIREBASE_FIREBASE_KEY" "reserved prefix").
Proof.
  split; [|split].
  - apply (proj1 (convertKey_prefix_fallback toUpperCase keyRule "some-service.key" "CONFIG_")).
    reflexivity.
  - apply (proj1 (proj2 (convertKey_prefix_fallback toUpperCase keyRule "firebase.key" "CONFIG_"))
             "FIREBASE_KEY" "reserved prefix"); reflexivity.
  - apply (proj2 (proj2 (convertKey_prefix_fallback toUpperCase keyRule "firebase.key" "FIREBASE_"))
             "FIREBASE_KEY" "reserved prefix"); reflexivity.
Defined.

Lemma configToEnv_collects_witness :
  ∃ r, toEnv [("a.b", "1"); ("firebase.x", "2")] "FIREBASE_" = Ok r
       ∧ success r = [mkEnvMap "a.b" "A_B" "1" None]
       ∧ errors r = [mkEnvMap "firebase.x" "FIREBASE_FIREBASE_X" "2" (Some "reserved prefix")].
Proof.
  destruct (proj1 (configToEnv_collects_validation_failures toUpperCase keyRule _ flatten
                     [("a.b", "1"); ("firebase.x", "2")] "FIREBASE_"))
    as (r & Hr & Hs & He & _).
  - intros entry e Hin Hk.
    apply elem_of_cons in Hin as [->|Hin]; [discriminate Hk|].
    apply list_elem_of_singleton in Hin as ->.
    injection Hk as <-. reflexivity.
  - exists r. split; [exact Hr|]. split; [exact Hs | exact He].
Defined.

(** ** The builder on values *)

Example build_two_regions :
  map (λ f, (FunctionSpec.id f, FunctionSpec.region f, FunctionSpec.project f,
             FunctionSpec.trigger f))
      (Backend.cloudFunctions (build two_regions emptyBackend).2)
  = [("fn", "us-east1", "p", HttpsTrigger true); ("fn", "europe-west1", "p", HttpsTrigger true)].
Proof. reflexivity. Qed.

Example build_no_regions :
  map FunctionSpec.region (Backend.cloudFunctions (build no_regions emptyBackend).2)
  = ["us-central1"].
Proof. reflexivity. Qed.

Example build_connectors :
  map FunctionSpec.vpcConnector (Backend.cloudFunctions (build short_connector emptyBackend).2)
  = [Some "projects/p/locations/us-east1/connectors/conn";
     Some "projects/p/locations/europe-west1/connectors/conn"]
  ∧ map FunctionSpec.vpcConnector (Backend.cloudFunctions (build long_connector emptyBackend).2)
    = [Some "projects/q/locations/x/connectors/c"].
Proof. split; reflexivity. Qed.

Example build_scheduled :
  map ScheduleSpec.id (Backend.schedules (build scheduled emptyBackend).2)
  = ["firebase-schedule-fn-us-east1"; "firebase-schedule-fn-europe-west1"]
  ∧ map PubSubSpec.id (Backend.topics (build scheduled emptyBackend).2)
    = ["firebase-schedule-fn-us-east1"; "firebase-schedule-fn-europe-west1"]
  ∧ map FunctionSpec.trigger (Backend.cloudFunctions (build scheduled emptyBackend).2)
    = [EventTrigger "google.pubsub.topic.publish"
         {[ "resource" := "projects/p/topics/firebase-schedule-fn-us-east1" ]} false;
       EventTrigger "google.pubsub.topic.publish"
         {[ "resource" := "projects/p/topics/firebase-schedule-fn-europe-west1" ]} false]
  ∧ Backend.requiredAPIs (build scheduled emptyBackend).2
    = {[ "pubsub" := "pubsub.googleapis.com"; "scheduler" := "cloudscheduler.googleapis.com" ]}.
Proof. repeat split; vm_compute; reflexivity. Qed.

Example build_scheduled_https :
  (build scheduled_https emptyBackend).1 = Ok tt
  ∧ map (λ f, (FunctionSpec.trigger f, FunctionSpec.labels f))
        (Backend.cloudFunctions (build scheduled_https emptyBackend).2)
    = [(HttpsTrigger true, Some {[ "team" := "a"; "deployment-scheduled" := "true" ]})].
Proof. split; vm_compute; reflexivity. Qed.

(** C1, counterexample: the fan-out as the specification words it fails for
    an empty regions list (nothing is appended, not one function in the
    default region), for a list that names a region twice (the two regions
    are not distinct) and for an annotation with no trigger (the call
    throws and appends nothing). *)
Lemma fanout_counterexample :
  ¬ fanout_as_stated defaultRegion "p" empty_regions emptyBackend
      (build empty_regions emptyBackend).2
  ∧ ¬ fanout_as_stated defaultRegion "p" repeated_region emptyBackend
        (build repeated_region emptyBackend).2
  ∧ ¬ fanout_as_stated defaultRegion "p" no_trigger emptyBackend
        (build no_trigger emptyBackend).2.
Proof.
  split; [|split]; intros [Hlist Hdefault].
  - destruct Hdefault as (f & Hf & _); [by right|]. discriminate Hf.
  - destruct (Hlist _ eq_refl) as (fs & Hfs & _ & _ & Hnd); [discriminate|].
    vm_compute in Hfs. rewrite <- Hfs in Hnd. cbn in Hnd.
    apply NoDup_cons in Hnd as [Hnotin _]. apply Hnotin. by left.
  - destruct (Hlist _ eq_refl) as (fs & Hfs & Hlen & _); [discriminate|].
    vm_compute in Hfs. by rewrite <- Hfs in Hlen.
Qed.

Lemma addResources_one_function_per_region_witness :
  ∃ want' fs,
    build two_regions busy = (Ok tt, want')
    ∧ Backend.cloudFunctions want' = Backend.cloudFunctions busy ++ fs
    ∧ Forall (λ f, FunctionSpec.id f = TriggerAnnotation.name two_regions
                   ∧ FunctionSpec.project f = "p") fs
    ∧ (∀ rs, TriggerAnnotation.regions two_regions = Some rs →
         length fs = length rs
         ∧ map FunctionSpec.region fs = rs
         ∧ (NoDup rs → NoDup (map FunctionSpec.region fs)))
    ∧ (TriggerAnnotation.regions two_regions = None →
         ∃ f, fs = [f] ∧ FunctionSpec.region f = defaultRegion).
Proof. apply addResources_one_function_per_region. reflexivity. Defined.

(** C2: an annotation with no trigger at all, or with both, whose regions
    list is empty is accepted, and nothing is added for it: the check of
    the triggers is in the body of the loop over the regions, which an
    empty list never enters.  The same annotations with the regions field
    absent, or with regions listed, are refused with the
    structural-consistency error. *)
Lemma empty_regions_skip_trigger_check :
  ¬ one_trigger_kind no_trigger_no_region
  ∧ build no_trigger_no_region busy = (Ok tt, busy)
  ∧ ¬ one_trigger_kind (annotation (Some https0) (Some event0) None (Some []) None None None)
  ∧ build (annotation (Some https0) (Some event0) None (Some []) None None None) busy
    = (Ok tt, busy)
  ∧ build (annotation None None None None None None None) busy
    = (Throw unexpected_annotation, busy)
  ∧ build no_trigger busy = (Throw unexpected_annotation, busy)
  ∧ build both_triggers busy = (Throw unexpected_annotation, busy).
Proof.
  split; [intros H; discriminate H|]. split; [reflexivity|].
  split; [intros H; discriminate H|]. repeat split; reflexivity.
Qed.

Lemma addResources_rejects_trigger_mismatch_witness :
  build no_trigger busy = (Throw unexpected_annotation, busy)
  ∧ build both_triggers busy = (Throw unexpected_annotation, busy).
Proof.
  split.
  - apply addResources_rejects_trigger_mismatch; [intros H; discriminate H | discriminate].
  - apply addResources_rejects_trigger_mismatch; [intros H; discriminate H | discriminate].
Defined.

Lemma addResources_throw_leaves_aggregate_witness :
  (build both_triggers busy).1 = Throw unexpected_annotation
  ∧ (build both_triggers busy).2 = busy.
Proof.
  destruct (addResources_throw_leaves_aggregate defaultRegion scheduleId scheduledLabel
              "p" "nodejs14" both_triggers busy
              unexpected_annotation (build both_triggers busy).2 eq_refl) as [_ H].
  split; [reflexivity | exact H].
Defined.

Lemma addResources_https_allowInsecure_witness :
  ∃ fs,
    Backend.cloudFunctions (build two_regions busy).2 = Backend.cloudFunctions busy ++ fs
    ∧ (build two_regions busy).1 = Ok tt
    ∧ length fs = 2
    ∧ Forall (λ f, FunctionSpec.trigger f = HttpsTrigger true) fs.
Proof.
  destruct (addResources_https_allowInsecure defaultRegion scheduleId scheduledLabel
              "p" "nodejs14" two_regions https0 busy eq_refl)
    as (fs & Hfs & Hall & Hok).
  exists fs. split; [exact Hfs|].
  split; [apply (Hok eq_refl)|]. split; [apply (Hok eq_refl)|].
  eapply Forall_impl; [exact Hall|]. intros f (b & Hb & _ & _ & Habsent).
  rewrite Hb. f_equal. apply (proj1 (Habsent eq_refl)). by left.
Defined.

(** C8, counterexample: an empty [vpcConnector] contains no [/], and the
    function gets no connector at all rather than the path with nothing
    after [connectors/]. *)
Lemma vpcConnector_counterexample :
  TriggerAnnotation.vpcConnector empty_connector = Some ""
  ∧ Js.includes "/" "" = false
  ∧ map FunctionSpec.vpcConnector (Backend.cloudFunctions (build empty_connector emptyBackend).2)
    = [None].
Proof. repeat split; reflexivity. Qed.

Lemma addResources_vpcConnector_witness :
  ∃ fs,
    Backend.cloudFunctions (build short_connector busy).2 = Backend.cloudFunctions busy ++ fs
    ∧ Forall (λ f,
        (Js.includes "/" "conn" = false →
           FunctionSpec.vpcConnector f =
             Some ("projects/" +:+ "p" +:+ "/locations/" +:+ FunctionSpec.region f
                   +:+ "/connectors/" +:+ "conn"))
        ∧ (Js.includes "/" "conn" = true → FunctionSpec.vpcConnector f = Some "conn")) fs
    ∧ (one_trigger_kind short_connector →
         (build short_connector busy).1 = Ok tt
         ∧ map FunctionSpec.region fs = ["us-east1"; "europe-west1"]).
Proof.
  apply (addResources_vpcConnector defaultRegion scheduleId scheduledLabel "p" "nodejs14"
           short_connector "conn" busy); [reflexivity | discriminate].
Defined.

Lemma addResources_scheduled_witness :
  ∃ want' fs scs tps,
    build scheduled busy = (Ok tt, want')
    ∧ Backend.cloudFunctions want' = Backend.cloudFunctions busy ++ fs
    ∧ Backend.schedules want' = Backend.schedules busy ++ scs
    ∧ Backend.topics want' = Backend.topics busy ++ tps
    ∧ map ScheduleSpec.id scs = map PubSubSpec.id tps
    ∧ Backend.requiredAPIs want' !! "pubsub" = Some "pubsub.googleapis.com"
    ∧ Backend.requiredAPIs want' !! "scheduler" = Some "cloudscheduler.googleapis.com".
Proof.
  destruct (addResources_scheduled defaultRegion scheduleId scheduledLabel "p" "nodejs14"
              scheduled schedule0 busy eq_refl eq_refl)
    as (want' & fs & scs & tps & Hrun & Hfs & Hscs & Htps & Hsid & Htid & Hapis & _).
  exists want', fs, scs, tps. do 4 (split; [done|]).
  split.
  - clear -Hsid Htid. revert tps Htid.
    induction Hsid as [|r sc rs scs Hsc _ IH]; intros tps Htid;
      inversion Htid as [|? tp ? tps' Htp Htps']; subst; [done|].
    cbn. rewrite Hsc, Htp. f_equal. by apply IH.
  - apply Hapis. discriminate.
Defined.

(** ** The builder on objects *)

Example store_holds_the_annotation : snapshot store0 5 = Some scheduled.
Proof. reflexivity. Qed.

(** On this input the two builders do the same. *)
Example store_build_agrees :
  (store_build store0).1 = (build scheduled emptyBackend).1
  ∧ snapshot_backend (store_build store0).2 11 = Some (build scheduled emptyBackend).2.
Proof. split; vm_compute; reflexivity. Qed.

Example store_build_agrees_plain :
  snapshot store1 3 = Some plain
  ∧ snapshot_backend store1 9 = Some want1
  ∧ (store_build1 store1).1 = (build plain want1).1
  ∧ snapshot_backend (store_build1 store1).2 9 = Some (build plain want1).2
  ∧ map (λ f, (FunctionSpec.region f, FunctionSpec.trigger f, FunctionSpec.vpcConnector f))
        (Backend.cloudFunctions (build plain want1).2)
    = [("us-central1", HttpsTrigger false,
        Some "projects/p/locations/us-central1/connectors/conn")].
Proof. repeat split; vm_compute; reflexivity. Qed.

(** With both triggers both builders throw and leave the aggregate alone;
    on objects the annotation is frozen by then. *)
Example store_build_agrees_rejected :
  (store_build1 store2).1 = Throw unexpected_annotation
  ∧ snapshot_backend (store_build1 store2).2 9 = Some want1
  ∧ (store_build1 store2).2 !! 3 =
      Some (Heap.OAnnotation
              (Heap.TriggerAnnotation.mk "fn" (Some gcfv2) (Some 1) "fn" (Some "conn")
                 None None (Some 256%Z) (Some "60s") None None None
                 (Some 0) (Some 11) (Some 2) None None None (Some 80%Z) None)
              true).
Proof. repeat split; vm_compute; reflexivity. Qed.

(** If the aggregate's [requiredAPIs] dictionary is the very object the
    annotation has as its labels, the call writes into the annotation's
    labels: the two must share no object for the annotation to be left as
    it was. *)
Example shared_dictionary_is_written :
  snapshot store0_shared 5 ≠ snapshot (store_build store0_shared).2 5.
Proof. vm_compute. intros [=]. Qed.

(** C9, counterexample: the resources of the two regions are not
    independent values.  Both functions (cells 16 and 23) hold the invoker
    list of the annotation (cell 4), both schedules (17 and 24) its retry
    configuration (cell 1), and both topics (18 and 25) the one label
    object (cell 12).  And an annotation whose labels are the very
    dictionary the aggregate has as its [requiredAPIs] does not come out of
    the call as it went in. *)
Lemma independence_counterexample :
  (store_build store0).1 = Ok tt
  ∧ (store_build store0).2 !! 7 = Some (Heap.ORefs [16; 23])
  ∧ (store_build store0).2 !! 8 = Some (Heap.ORefs [17; 24])
  ∧ (store_build store0).2 !! 9 = Some (Heap.ORefs [18; 25])
  ∧ resource_refs (store_build store0).2 16 = [14; 19; 4]
  ∧ resource_refs (store_build store0).2 23 = [21; 26; 4]
  ∧ resource_refs (store_build store0).2 17 = [15; 1]
  ∧ resource_refs (store_build store0).2 24 = [22; 1]
  ∧ resource_refs (store_build store0).2 18 = [12; 15]
  ∧ resource_refs (store_build store0).2 25 = [12; 22]
  ∧ annotation_refs (store_build store0).2 5 = [0; 3; 4; 2; 1]
  ∧ ¬ independent_resources (store_build store0).2 5 [[16; 17; 18]; [23; 24; 25]]
  ∧ snapshot store0_shared 5 ≠ snapshot (store_build store0_shared).2 5.
Proof.
  do 11 (split; [vm_compute; reflexivity|]).
  split; [|vm_compute; intros [=]].
  intros [Hann _].
  apply (Hann [16; 17; 18] 16 4).
  - by left.
  - by left.
  - change (4 ∈ resource_refs (store_build store0).2 16).
    replace (resource_refs (store_build store0).2 16) with [14; 19; 4]
      by (vm_compute; reflexivity).
    by do 2 right; left.
  - replace (annotation_refs (store_build store0).2 5) with [0; 3; 4; 2; 1]
      by (vm_compute; reflexivity).
    by do 2 right; left.
Qed.

Lemma addResources_leaves_annotation_witness :
  snapshot (store_build store0).2 5 = Some scheduled
  ∧ length store0 ≤ length (store_build store0).2.
Proof.
  destruct (HeapFacts.addResources_leaves_annotation defaultRegion scheduleId 12 "p" "nodejs14"
              5 11 store0 scheduled (store_build store0).1 (store_build store0).2)
    as (Hsnap & Hlen & _).
  - reflexivity.
  - intros a w Ha Hw. injection Ha as <-. injection Hw as <-. discriminate.
  - unfold store_build. by destruct (Heap.addResourcesToBackend _ _ _ _ _ _ _ _).
  - split; [exact Hsnap | exact Hlen].
Defined.

(** ** Discovery *)

Example fork_environment :
  fork_options (fork ["--inspect-brk"; "--trace-warnings"] "p" "functions" [("a", "1")]
                     inspected_env)
  = mkForkOptions true
      {[ "NODE_OPTIONS" := "--max-old-space-size=4096";
         "GCLOUD_PROJECT" := "p";
         "CLOUD_RUNTIME_CONFIG" := "{a:1}";
         "HOME" := "/root" ]}
      ["--trace-warnings"].
Proof. vm_compute. reflexivity. Qed.

Example only_inspect_options :
  fork_env (fork_options (fork [] "p" "functions" []
                            {[ "NODE_OPTIONS" := "--inspect --inspect-brk=0" ]}))
    !! "NODE_OPTIONS" = Some "".
Proof. vm_compute. reflexivity. Qed.

Example clean_exit_is_not_heard :
  discover (parseTriggers_promise [OnExit (Some 0%Z)]) ∅ = None.
Proof. reflexivity. Qed.

Example killed_parser :
  discover (parseTriggers_promise [OnExit None]) ∅ = Some (Throw unknown_problem).
Proof. reflexivity. Qed.

Example discover_skips_empty_regions :
  discover (Fulfilled [no_trigger_no_region; no_regions]) ∅
  = Some (Ok (build no_regions emptyBackend).2).
Proof. vm_compute. reflexivity. Qed.

Lemma parseTriggers_NODE_OPTIONS_witness :
  fork_env (fork_options (fork ["--inspect-brk"] "p" "functions" [] inspected_env))
    !! "NODE_OPTIONS" = Some "--max-old-space-size=4096".
Proof.
  destruct (parseTriggers_NODE_OPTIONS (list (string * string)) config_isEmpty config_stringify
              "lib/triggerParser.js" ["--inspect-brk"] "p" "functions" [] inspected_env
              "--inspect=9229 --max-old-space-size=4096")
    as (options' & Hlookup & -> & _).
  - vm_compute. reflexivity.
  - discriminate.
  - exact Hlookup.
Defined.

Lemma parseTriggers_first_settlement_witness :
  parseTriggers_promise (quiet_events ++ OnMessage late_triggers :: [OnExit (Some 1%Z)])
  = Fulfilled [no_regions].
Proof.
  destruct (parseTriggers_first_settlement quiet_events (OnMessage late_triggers)
              [OnExit (Some 1%Z)]) as [Hfirst _].
  - constructor.
    + right. eexists. split; [reflexivity|]. split; [reflexivity|]. by right.
    + constructor; [by left | constructor].
  - intros [H|(m & H & Ht & _)]; [discriminate H|]. injection H as <-. discriminate Ht.
  - exact Hfirst.
Defined.

Lemma discoverBackend_adds_witness :
  ∃ want,
    discover (Fulfilled [two_regions; no_trigger_no_region; scheduled]) {[ "KEY" := "value" ]}
      = Some (Ok want)
    ∧ Backend.environmentVariables want = {[ "KEY" := "value" ]}.
Proof.
  destruct (discoverBackend_adds defaultRegion scheduleId scheduledLabel emptyBackend
              "p" "nodejs14" [two_regions; no_trigger_no_region; scheduled]
              {[ "KEY" := "value" ]})
    as (want & fss & Hrun & _ & _ & Henv & _).
  - constructor; [intros [Hn _]; apply Hn; reflexivity|].
    constructor; [intros [_ Hr]; apply Hr; reflexivity|].
    constructor; [intros [Hn _]; apply Hn; reflexivity | constructor].
  - exists want. split; [exact Hrun | exact Henv].
Defined.

Lemma discoverBackend_schedules_backed_witness :
  discover (Fulfilled [scheduled]) ∅ = Some (Ok (build scheduled emptyBackend).2)
  ∧ schedules_backed (build scheduled emptyBackend).2.
Proof.
  assert (Hrun : discover (Fulfilled [scheduled]) ∅
                 = Some (Ok (build scheduled emptyBackend).2))
    by (vm_compute; reflexivity).
  split; [exact Hrun|].
  apply (discoverBackend_schedules_backed defaultRegion scheduleId scheduledLabel emptyBackend
           "p" "nodejs14" [scheduled] ∅); [|exact Hrun].
  split.
  - reflexivity.
  - intros s Hin. by apply elem_of_nil in Hin.
  - intros Hne. by destruct Hne.
Defined.

Lemma discoverBackend_unique_names_witness :
  map function_name (Backend.cloudFunctions (build two_regions emptyBackend).2)
  = [TargetIds.mk "fn" "us-east1" "p"; TargetIds.mk "fn" "europe-west1" "p"].
Proof.
  apply (proj1 (discoverBackend_unique_names defaultRegion scheduleId scheduledLabel
                  emptyBackend "p" "nodejs14" [two_regions] ∅
                  (build two_regions emptyBackend).2 eq_refl
                  ltac:(vm_compute; reflexivity))).
Defined.

Lemma addResources_keeps_schedules_backed_witness :
  schedules_backed (build scheduled emptyBackend).2.
Proof.
  apply (addResources_keeps_schedules_backed defaultRegion scheduleId scheduledLabel
           "p" "nodejs14" scheduled emptyBackend).
  split.
  - reflexivity.
  - intros s Hin. by apply elem_of_nil in Hin.
  - intros Hne. by destruct Hne.
Defined.

Lemma addResources_unscheduled_witness :
  Backend.schedules (build two_regions busy).2 = Backend.schedules busy
  ∧ Backend.requiredAPIs (build two_regions busy).2 = Backend.requiredAPIs busy.
Proof.
  destruct (addResources_unscheduled defaultRegion scheduleId scheduledLabel
              "p" "nodejs14" two_regions busy eq_refl) as (Hs & _ & Ha & _).
  split; [exact Hs | exact Ha].
Defined.

(** ** The exported file, further *)

Example escape_plain : escape "a b\c" = "a b\c".
Proof. reflexivity. Qed.

Example dotenv_broken_line :
  Js.split LF
    (toDotenvFormat [mkEnvMap "k" "K" (String LF (String "x" (String LF "y"))) None])
  = ["K=" +:+ str1 DQUOTE +:+ "\nx"; "y" +:+ str1 DQUOTE +:+ " # from k"].
Proof. reflexivity. Qed.

Lemma escape_confuses_newline_witness :
  escape (String "a" (String LF "b")) = escape "a\nb".
Proof.
  apply (proj1 (escape_confuses_newline "a" "b" eq_refl eq_refl)).
Defined.

Lemma convertKey_sound_witness :
  ("CONFIG_FIREBASE_KEY" = baseKey toUpperCase "firebase.key"
   ∨ "CONFIG_FIREBASE_KEY" = "CONFIG_" +:+ baseKey toUpperCase "firebase.key")
  ∧ (validateKey keyRule "CONFIG_FIREBASE_KEY" = Ok tt
     ∨ ("CONFIG_FIREBASE_KEY" = baseKey toUpperCase "firebase.key"
        ∧ ∃ what, validateKey keyRule "CONFIG_FIREBASE_KEY" = Throw (OtherError what)))
  ∧ Js.includes "." (baseKey toUpperCase "firebase.key") = false
  ∧ Js.includes "-" (baseKey toUpperCase "firebase.key") = false.
Proof.
  apply (convertKey_sound toUpperCase keyRule "firebase.key" "CONFIG_" "CONFIG_FIREBASE_KEY").
  reflexivity.
Defined.

Lemma configToEnv_partition_witness :
  map leaf_of [mkEnvMap "a.b" "A_B" "1" None]
    ++ map leaf_of [mkEnvMap "firebase.x" "FIREBASE_FIREBASE_X" "2" (Some "reserved prefix")]
  ≡ₚ [("a.b", "1"); ("firebase.x", "2")].
Proof.
  apply (proj1 (configToEnv_partition toUpperCase keyRule _ flatten
                  [("a.b", "1"); ("firebase.x", "2")] "FIREBASE_"
                  {| success := [mkEnvMap "a.b" "A_B" "1" None];
                     errors := [mkEnvMap "firebase.x" "FIREBASE_FIREBASE_X" "2"
                                         (Some "reserved prefix")] |}
                  eq_refl)).
Defined.

Lemma configToEnv_valid_keys_witness :
  toEnv [("a.b", "1"); ("c-d", "2")] "CONFIG_"
  = Ok {| success := [mkEnvMap "a.b" "A_B" "1" None; mkEnvMap "c-d" "C_D" "2" None];
          errors := [] |}.
Proof.
  apply (configToEnv_valid_keys toUpperCase keyRule _ flatten
           [("a.b", "1"); ("c-d", "2")] "CONFIG_").
  intros entry Hin.
  apply elem_of_cons in Hin as [->|Hin]; [reflexivity|].
  apply list_elem_of_singleton in Hin as ->. reflexivity.
Defined.

(** ** The command *)

Example projects_listed :
  projects = [ proj_a;
               TargetProject.mk "proj-b" (Some "prod");
               TargetProject.mk "proj-c" (Some "local") ].
Proof. vm_compute. reflexivity. Qed.

Example projects_by_index_first :
  getAllProjects unit (λ _, Some "__proto__")
                 (λ _, Some [("x", "10"); ("y", "9"); ("z", "b"); ("default", "9")]) tt
  = [ TargetProject.mk "9" (Some "y");
      TargetProject.mk "10" (Some "x");
      TargetProject.mk "b" (Some "z") ].
Proof. vm_compute. reflexivity. Qed.

Example selection :
  (select projects [] world0).1 = Ok [proj_a]
  ∧ length (asked (select projects [] world0).2) = 2.
Proof. vm_compute. split; reflexivity. Qed.

Example export_run :
  (run 5 tt world0).1
  = Ok (Some [(".env.proj-a",
               toDotenvFormat [ mkEnvMap "firebase.key" "CONFIG_FIREBASE_KEY" "1" None;
                                mkEnvMap "a.b" "A_B" "2" None ])])
  ∧ length (asked (run 5 tt world0).2) = 3
  ∧ fetched (run 5 tt world0).2 = ["proj-a"; "proj-a"].
Proof. vm_compute. repeat split; reflexivity. Qed.

Example export_out_of_turns : (run 1 tt world0).1 = Ok None.
Proof. vm_compute. reflexivity. Qed.

Lemma getAllProjects_alias_witness :
  TargetProject.alias (TargetProject.mk "proj-b" (Some "prod"))
  = Some (alias_for "proj-b" rc_projects).
Proof.
  apply (getAllProjects_alias unit (λ _, Some "proj-a") (λ _, Some rc_projects) tt
           (TargetProject.mk "proj-b" (Some "prod"))).
  change (TargetProject.mk "proj-b" (Some "prod") ∈ projects).
  rewrite projects_listed. apply elem_of_cons. right. apply elem_of_cons. by left.
Defined.

Lemma action_select_completes_witness :
  (select projects [] world0).1
  = Ok ([] ++ List.filter (eligible iam) projects).
Proof.
  apply (action_select_completes (λ s, s) iam user projects [] world0).
  - intros project _. unfold iam. destruct (String.eqb _ _); eexists; reflexivity.
  - intros i question _. unfold user.
    destruct question as [|[key [b|s]] rest]; try reflexivity.
    destruct (String.eqb s "confirm"); reflexivity.
Defined.

Lemma action_while_sound_witness :
  ∃ results w',
    while 5 [proj_a] "" [] world0 = (Ok (Some results), w')
    ∧ map project results = [proj_a]
    ∧ Forall (λ r, errors (configToEnvResult r) = []) results.
Proof.
  destruct (while 5 [proj_a] "" [] world0) as [[[results|]|e] w'] eqn:Hrun;
    [|exfalso; vm_compute in Hrun; discriminate Hrun..].
  exists results, w'. split; [reflexivity|].
  destruct (action_while_sound toUpperCase keyRule (list (string * string)) flatten
              (λ s, s) user remote 5 [proj_a] "" world0 results w' Hrun) as (Hps & Hclean & _).
  split; [exact Hps | exact Hclean].
Defined.

Lemma action_while_ends_witness :
  ∃ w',
    while 5 [proj_a] "" [] world0 =
      (Ok (Some [mkConversion proj_a
                   {| success := [ mkEnvMap "firebase.key" "CONFIG_FIREBASE_KEY" "1" None;
                                   mkEnvMap "a.b" "A_B" "2" None ];
                      errors := [] |}]), w')
    ∧ asked w' = [prefix_question].
Proof.
  destruct (action_while_ends toUpperCase keyRule (list (string * string)) flatten
              (λ s, s) user remote remote_config 1 5 [proj_a] "" world0)
    as (w' & Hrun & Hasked & _).
  - reflexivity.
  - intros i Hi. assert (i = 0) as -> by lia. split.
    + constructor; [|constructor]. eexists. vm_compute. reflexivity.
    + intros Hall. inversion Hall as [|? ? [r [Hr He]] _]; subst.
      vm_compute in Hr. injection Hr as <-. discriminate He.
  - constructor; [|constructor]. eexists. split; vm_compute; reflexivity.
  - lia.
  - exists w'. split; [exact Hrun | exact Hasked].
Defined.

End Runs.
